(** * node-postman: DKIM canonicalisation, signing input, MX grouping and the
    SMTP conversation, as a shallow embedding of [dkim.ts] and [postman.ts].

    Strings are JavaScript strings restricted to code units U+0000..U+00FF
    (one [ascii] per code unit).  On that range the builtins used by the
    program ([\s], [trim], [toLowerCase], [split], [join], [substr]) have the
    behaviour written out in module [JS] below. *)

From Stdlib Require Import List Ascii String Bool Arith PeanoNat NArith ZArith Lia
  Permutation Sorted.
Import ListNotations.

Local Open Scope list_scope.
Local Open Scope bool_scope.

Set Default Proof Using "Type".

(* ================================================================== *)
(** * Part I: definitions                                              *)
(* ================================================================== *)

(** ** JavaScript strings and the builtins the program calls *)

Module JS.

Abbreviation str := (list ascii).

(** A literal of the source text. *)
Definition lit (s : string) : str := list_ascii_of_string s.

Definition CR : ascii := ascii_of_nat 13.
Definition LF : ascii := ascii_of_nat 10.
Definition SP : ascii := ascii_of_nat 32.
Definition CRLF : str := [CR; LF].

Definition is_nil {A} (l : list A) : bool :=
  match l with [] => true | _ => false end.

(** [\s] of a JavaScript regular expression (and the characters [trim]
    strips), on U+0000..U+00FF: TAB, LF, VT, FF, CR, SPACE and NBSP. *)
Definition is_space (c : ascii) : bool :=
  let n := nat_of_ascii c in
  (n =? 9) || (n =? 10) || (n =? 11) || (n =? 12) || (n =? 13)
  || (n =? 32) || (n =? 160).

(** [String.prototype.toLowerCase] on one code unit of U+0000..U+00FF:
    A-Z and the Latin-1 capitals U+00C0..U+00DE (except the sign U+00D7)
    move up by 32, everything else stays. *)
Definition lower (c : ascii) : ascii :=
  let n := nat_of_ascii c in
  if ((65 <=? n) && (n <=? 90))
     || ((192 <=? n) && (n <=? 222) && negb (n =? 215))
  then ascii_of_nat (n + 32) else c.

Definition toLowerCase (s : str) : str := map lower s.

(** [s.replace(/p*$/, '')]: the maximal suffix of characters satisfying
    [p] is removed. *)
Fixpoint strip_trailing {A : Type} (p : A -> bool) (s : list A) : list A :=
  match s with
  | [] => []
  | c :: t =>
      let t' := strip_trailing p t in
      if p c && is_nil t' then [] else c :: t'
  end.

Fixpoint strip_leading {A : Type} (p : A -> bool) (s : list A) : list A :=
  match s with
  | [] => []
  | c :: t => if p c then strip_leading p t else s
  end.

(** [s.replace(/\s*$/, '')] *)
Definition rtrim (s : str) : str := strip_trailing is_space s.

(** [String.prototype.trim] *)
Definition trim (s : str) : str := strip_leading is_space (rtrim s).

(** [s.replace(/\s+/g, ' ')]: every maximal run of white space becomes one
    SPACE.  [in_run] says that the previous character was white space. *)
Fixpoint collapse_from (in_run : bool) (s : str) : str :=
  match s with
  | [] => []
  | c :: t =>
      if is_space c
      then (if in_run then collapse_from true t else SP :: collapse_from true t)
      else c :: collapse_from false t
  end.

Definition collapse_ws (s : str) : str := collapse_from false s.

(** Put [c] in front of the first piece of a split. *)
Definition cons_head (c : ascii) (l : list str) : list str :=
  match l with
  | [] => [[c]]
  | x :: r => (c :: x) :: r
  end.

(** [s.split(sep)] for a one-character separator; the result is never
    empty ([''.split(':')] is [['']]). *)
Fixpoint split_on (sep : ascii) (s : str) : list str :=
  match s with
  | [] => [[]]
  | c :: t =>
      if Ascii.eqb c sep then [] :: split_on sep t
      else cons_head c (split_on sep t)
  end.

(** [a.join(sep)] *)
Fixpoint join (sep : str) (l : list str) : str :=
  match l with
  | [] => []
  | [x] => x
  | x :: r => x ++ sep ++ join sep r
  end.

(** [s.replace(/\r?\n|\r/g, '\n')]: scanning left to right, CR LF, a lone
    LF and a lone CR each become one LF. *)
Fixpoint replace_newlines (s : str) : str :=
  match s with
  | [] => []
  | c :: t =>
      if Ascii.eqb c CR then
        match t with
        | d :: t' =>
            if Ascii.eqb d LF then LF :: replace_newlines t'
            else LF :: replace_newlines t
        | [] => [LF]
        end
      else c :: replace_newlines t
  end.

(** [s.split(/\r?\n|\r/)] *)
Fixpoint split_newlines (s : str) : list str :=
  match s with
  | [] => [[]]
  | c :: t =>
      if Ascii.eqb c CR then
        match t with
        | d :: t' =>
            if Ascii.eqb d LF then [] :: split_newlines t'
            else [] :: split_newlines t
        | [] => [[]; []]
        end
      else if Ascii.eqb c LF then [] :: split_newlines t
      else cons_head c (split_newlines t)
  end.

(** [s.replace(/\n*$/, '\n')]: the trailing run of LF (possibly empty) is
    replaced by one LF. *)
Definition replace_trailing_LFs (s : str) : str :=
  strip_trailing (Ascii.eqb LF) s ++ [LF].

(** [s.replace(/\n/g, '\r\n')] *)
Fixpoint LF_to_CRLF (s : str) : str :=
  match s with
  | [] => []
  | c :: t => if Ascii.eqb c LF then CR :: LF :: LF_to_CRLF t
              else c :: LF_to_CRLF t
  end.

(** [s.match(/^\s/)] as a truth value *)
Definition starts_with_space (s : str) : bool :=
  match s with
  | [] => false
  | c :: _ => is_space c
  end.

Definition str_eqb (a b : str) : bool :=
  if list_eq_dec ascii_dec a b then true else false.

(** [a.indexOf(x) >= 0] *)
Definition includes (a : list str) (x : str) : bool := existsb (str_eqb x) a.

(** [s.substr(pos, n)] and [s.substr(pos)] for [pos] within the string. *)
Definition substr (s : str) (pos n : nat) : str := firstn n (skipn pos s).
Definition substr_from (s : str) (pos : nat) : str := skipn pos s.

(** The names every object literal [{}] inherits from [Object.prototype].
    For such a name [k], [k in o] holds and [o[k]] is a function (or, for
    [__proto__], the prototype object) even when [o] has no own property
    [k]. *)
Definition object_prototype_keys : list str :=
  map lit
    ["constructor"; "__defineGetter__"; "__defineSetter__"; "hasOwnProperty";
     "__lookupGetter__"; "__lookupSetter__"; "isPrototypeOf";
     "propertyIsEnumerable"; "toString"; "valueOf"; "__proto__";
     "toLocaleString"]%string.

Definition inherited (k : str) : bool := includes object_prototype_keys k.

(** An object used as a string-keyed map of strings: its own properties. *)
Definition obj : Type := list (str * str).

Fixpoint own (o : obj) (k : str) : option str :=
  match o with
  | [] => None
  | (k', v) :: r => if str_eqb k k' then Some v else own r k
  end.

(** [k in o] *)
Definition has_property (o : obj) (k : str) : bool :=
  match own o k with Some _ => true | None => inherited k end.

(** [o[k] = v] for a name that is not yet an own property or that the
    caller overwrites; the newest binding shadows. *)
Definition set (o : obj) (k v : str) : obj := (k, v) :: o.

End JS.
Import JS.

(** ** Loops and array updates *)

(** [for (i = n - 1; i >= 0; i--) st = body i st] *)
Fixpoint for_down {S : Type} (n : nat) (body : nat -> S -> S) (st : S) : S :=
  match n with
  | 0 => st
  | S i => for_down i body (body i st)
  end.

(** [a.splice(i, 1)]: the array without its element at index [i]. *)
Fixpoint remove_at {A : Type} (i : nat) (a : list A) : list A :=
  match a, i with
  | [], _ => []
  | _ :: r, 0 => r
  | x :: r, S j => x :: remove_at j r
  end.

(** [a[i] = v] for an index inside the array. *)
Fixpoint update_at {A : Type} (i : nat) (v : A) (a : list A) : list A :=
  match a, i with
  | [], _ => []
  | _ :: r, 0 => v :: r
  | x :: r, S j => x :: update_at j v r
  end.

(** ** dkim.ts: the canonicaliser *)

Module DKIMCanonicalizer.

(** [simpleBody]: [body.replace(/(?:\r?\n|\r)*$/, '\r\n')]. *)
Definition simpleBody (body : str) : str :=
  strip_trailing (fun c => Ascii.eqb c CR || Ascii.eqb c LF) body ++ CRLF.

(** [relaxedBody] *)
Definition relaxedBody (body : str) : str :=
  LF_to_CRLF
    (replace_trailing_LFs
       (join [LF]
          (map (fun line => collapse_ws (rtrim line))
             (split_on LF (replace_newlines body))))).

Record header_line : Type := { key : str; value : str }.

(** [relaxedHeaderLine] *)
Definition relaxedHeaderLine (line : str) : header_line :=
  match split_on ":" line with
  | [] => {| key := []; value := [] |}
  | k :: rest =>
      {| key := trim (toLowerCase k);
         value := trim (collapse_ws (join (lit ":") rest)) |}
  end.

(** What [headerFields[k]] evaluates to: an own string, a member inherited
    from [Object.prototype], or [undefined]. *)
Inductive looked_up : Type :=
| Own (v : str)
| Proto (k : str)
| Undefined.

Definition lookup (o : obj) (k : str) : looked_up :=
  match own o k with
  | Some v => Own v
  | None => if inherited k then Proto k else Undefined
  end.

(** Truthiness: the empty string and [undefined] are falsy, functions and
    objects are truthy. *)
Definition truthy (v : looked_up) : bool :=
  match v with
  | Own s => negb (is_nil s)
  | Proto _ => true
  | Undefined => false
  end.

Section Engine.

(** The string an engine gives for a member of [Object.prototype] when it
    is concatenated to a string (for instance the text of the native
    function [toString]). *)
Variable proto_to_string : str -> str.

Definition to_string (v : looked_up) : str :=
  match v with
  | Own s => s
  | Proto k => proto_to_string k
  | Undefined => lit "undefined"
  end.

(** [(fieldNames || '').toLowerCase().split(':').map(field => field.trim())] *)
Definition includedFields_of (fieldNames : str) : list str :=
  map trim (split_on ":" (toLowerCase fieldNames)).

(** One turn of the loop "join lines" at index [i]. *)
Definition join_step (includedFields : list str) (i : nat)
    (st : list str * obj) : list str * obj :=
  let '(headerLines, headerFields) := st in
  let cur := nth i headerLines [] in
  if negb (i =? 0) && starts_with_space cur then
    (remove_at i
       (update_at (i - 1) (nth (i - 1) headerLines [] ++ cur) headerLines),
     headerFields)
  else
    let line := relaxedHeaderLine cur in
    if includes includedFields (key line)
       && negb (has_property headerFields (key line))
    then (headerLines, set headerFields (key line) (value line))
    else (headerLines, headerFields).

(** The first loop of [relaxedHeaders]; it returns the unfolded lines and
    the recorded fields. *)
Definition join_lines (includedFields : list str) (headers : str)
    : list str * obj :=
  let headerLines := split_newlines headers in
  for_down (List.length headerLines) (join_step includedFields)
    (headerLines, []).

(** One turn of the second loop at index [i]; the state is
    [(includedFields, headers)]. *)
Definition select_step (headerFields : obj) (i : nat)
    (st : list str * list str) : list str * list str :=
  let '(includedFields, headers) := st in
  let name := nth i includedFields [] in
  if negb (truthy (lookup headerFields name))
  then (remove_at i includedFields, headers)
  else (includedFields,
        (name ++ lit ":" ++ to_string (lookup headerFields name)) :: headers).

Record canonical_headers : Type := { headers : str; fieldNames : str }.

(** The second loop of [relaxedHeaders]; it returns the names that are kept
    and the array [headers]. *)
Definition select (includedFields : list str) (headerFields : obj)
    : list str * list str :=
  for_down (List.length includedFields) (select_step headerFields)
    (includedFields, []).

(** [relaxedHeaders] *)
Definition relaxedHeaders (headers fieldNames : str) : canonical_headers :=
  let includedFields := includedFields_of fieldNames in
  let headerFields := snd (join_lines includedFields headers) in
  let '(includedFields', selected) := select includedFields headerFields in
  {| headers := join CRLF selected ++ CRLF;
     fieldNames := join (lit ":") includedFields' |}.

End Engine.

End DKIMCanonicalizer.

(** ** dkim.ts: line folding *)

Module Dkim.

Fixpoint take_while (p : ascii -> bool) (s : str) : str :=
  match s with
  | [] => []
  | c :: t => if p c then c :: take_while p t else []
  end.

Definition not_space (c : ascii) : bool := negb (is_space c).

(** [match[0]] of [line.match(/^[^\n\r]*(\r?\n|\r)/)]: the prefix of [line]
    up to and including its first line break, if it has one. *)
Fixpoint up_to_newline (line : str) : option str :=
  match line with
  | [] => None
  | c :: t =>
      if Ascii.eqb c LF then Some [c]
      else if Ascii.eqb c CR then
        match t with
        | d :: _ => if Ascii.eqb d LF then Some [c; d] else Some [c]
        | [] => Some [c]
        end
      else option_map (cons c) (up_to_newline t)
  end.

(** [line.match(/(\s+)[^\s]*$/)]: the lengths of [match[0]] (the last run of
    white space and the word after it) and of [match[1]] (that run). *)
Definition last_space_run (line : str) : option (nat * nat) :=
  let before := strip_trailing not_space line in
  if is_nil before then None
  else
    let word := List.length line - List.length before in
    let run := List.length before - List.length (rtrim before) in
    Some (run + word, run).

(** [rest.match] against a word (one or more characters that are not white
    space, at the start of [rest]) followed by a captured, possibly empty, run
    of white space: the lengths of [match[0]] and [match[1]]. *)
Definition word_then_spaces (rest : str) : option (nat * nat) :=
  let word := take_while not_space rest in
  if is_nil word then None
  else
    let run := take_while is_space (skipn (List.length word) rest) in
    Some (List.length word + List.length run, List.length run).

(** What one turn of the loop of [foldLines] emits when its window [line]
    holds no line break: the window cut before its last run of white space
    (after it when [afterSpace]) if that leaves something, otherwise the
    window extended to the end of the word that crosses its border. *)
Definition fold_chunk (afterSpace : bool) (line rest : str) : str :=
  let cut_line :=
    match last_space_run line with
    | Some (m0, m1) =>
        let cut := m0 - (if afterSpace then m1 else 0) in
        if cut <? List.length line
        then Some (firstn (List.length line - cut) line)
        else None
    | None => None
    end in
  match cut_line with
  | Some l => l
  | None =>
      let after := skipn (List.length line) rest in
      match word_then_spaces after with
      | Some (m0, m1) =>
          line ++ firstn (m0 - (if afterSpace then 0 else m1)) after
      | None => line
      end
  end.

(** The [while] loop of [foldLines]; [rest] is [str.substr(pos)], so that
    [pos < len] is [rest <> ''].  Each turn that continues consumes at least
    one character, hence [fuel] turns suffice when [fuel] exceeds the length
    of [rest]. *)
Fixpoint foldLines_loop (lineLength : nat) (afterSpace : bool) (fuel : nat)
    (rest result : str) : str :=
  match fuel with
  | 0 => result
  | S fuel' =>
      if is_nil rest then result
      else
        let line := firstn lineLength rest in
        if List.length line <? lineLength then result ++ line
        else
          match up_to_newline line with
          | Some m =>
              foldLines_loop lineLength afterSpace fuel'
                (skipn (List.length m) rest) (result ++ m)
          | None =>
              let line := fold_chunk afterSpace line rest in
              let rest' := skipn (List.length line) rest in
              let result := result ++ line in
              foldLines_loop lineLength afterSpace fuel' rest'
                (if is_nil rest' then result else result ++ CRLF)
          end
  end.

(** [foldLines(str, lineLength, afterSpace)]; [lineLength || 76]. *)
Definition foldLines (s : str) (lineLength : nat) (afterSpace : bool) : str :=
  let lineLength := if lineLength =? 0 then 76 else lineLength in
  foldLines_loop lineLength afterSpace (S (List.length s)) s [].

(** ** dkim.ts: the signer *)

(** [/[^\u0000-\u007f]/.test(str)] *)
Definition hasUTFChars (s : str) : bool :=
  existsb (fun c => 127 <? nat_of_ascii c) s.

Definition defaultFieldNames : str :=
  lit ("From:Sender:Reply-To:Subject:To:" ++
       "Cc:MIME-Version:Content-Type:Content-Transfer-Encoding:Content-ID:" ++
       "Content-Description:Resent-Date:Resent-From:Resent-Sender:" ++
       "Resent-To:Resent-Cc:Resent-Message-ID:In-Reply-To:References:" ++
       "List-Id:List-Help:List-Unsubscribe:List-Subscribe:List-Post:" ++
       "List-Owner:List-Archive")%string.

(** The length of [/\r?\n/] at the start of [s]. *)
Definition newline_token (s : str) : option nat :=
  match s with
  | [] => None
  | c :: t =>
      if Ascii.eqb c LF then Some 1
      else if Ascii.eqb c CR then
        match t with
        | d :: _ => if Ascii.eqb d LF then Some 2 else None
        | [] => None
        end
      else None
  end.

(** The length of [/(?:\r?\n){2}/] at the start of [s]. *)
Definition blank_line_token (s : str) : option nat :=
  match newline_token s with
  | Some a =>
      match newline_token (skipn a s) with
      | Some b => Some (a + b)
      | None => None
      end
  | None => None
  end.

(** The leftmost [(index, length)] at which [/(?:\r?\n){2}/] matches. *)
Fixpoint find_blank_line (s : str) : option (nat * nat) :=
  match blank_line_token s with
  | Some n => Some (0, n)
  | None =>
      match s with
      | [] => None
      | _ :: t =>
          match find_blank_line t with
          | Some (i, n) => Some (S i, n)
          | None => None
          end
      end
  end.

(** [email.match(/^\r?\n|(?:\r?\n){2}/)] as [(match.index, match[0].length)]:
    at index 0 the first alternative is tried first. *)
Definition header_body_match (email : str) : option (nat * nat) :=
  match newline_token email with
  | Some n => Some (0, n)
  | None => find_blank_line email
  end.

(** [headers] and [body] as [DKIMSign] computes them; an empty string is
    falsy, so an empty remainder makes [body] the whole [email]. *)
Definition split_email (email : str) : str * str :=
  match header_body_match email with
  | Some (index, len) =>
      (substr email 0 index,
       let b := substr_from email (index + len) in
       if is_nil b then email else b)
  | None => ([], email)
  end.

(** [.] of a regular expression: any character except a line terminator. *)
Definition dot (c : ascii) : bool := negb (Ascii.eqb c CR || Ascii.eqb c LF).

(** [n] characters matched by [.{n}] at the start of [s]. *)
Definition dots (n : nat) (s : str) : bool :=
  (List.length (firstn n s) =? n) && forallb dot (firstn n s).

(** The negative lookahead [(?!\r?\n|\r)]: what follows does not start with
    a line break. *)
Definition no_newline_ahead (s : str) : bool :=
  match s with
  | [] => true
  | c :: _ => dot c
  end.

(** [signature.replace(/(^.{73}|.{75}(?!\r?\n|\r))/g, '$&\r\n ')]: left to
    right, a match is copied and followed by CR LF SPACE, a character at
    which nothing matches is copied. *)
Fixpoint fold_signature (fuel : nat) (at_start : bool) (s : str) : str :=
  match fuel with
  | 0 => s
  | S fuel' =>
      match s with
      | [] => []
      | c :: t =>
          if at_start && dots 73 s then
            firstn 73 s ++ CRLF ++ [SP]
            ++ fold_signature fuel' false (skipn 73 s)
          else if dots 75 s && no_newline_ahead (skipn 75 s) then
            firstn 75 s ++ CRLF ++ [SP]
            ++ fold_signature fuel' false (skipn 75 s)
          else c :: fold_signature fuel' false t
      end
  end.

Record dkim_options : Type := {
  domainName : str;
  keySelector : str;
  headerFieldNames : option str;
  privateKey : str
}.

Section Crypto.

Variable proto_to_string : str -> str.
(** [sha256(str, 'base64')] *)
Variable sha256_base64 : str -> str.
(** [new URL(`https://${domainName}`).hostname], or [domainName] when the
    URL does not parse. *)
Variable toASCIIDomain : str -> str.
(** [crypto.createSign('RSA-SHA256').update(data).sign(key, 'base64')];
    [None] when the key is refused and [sign] throws. *)
Variable rsa_sha256_base64 : str -> str -> option str.

Definition generateDKIMHeader (domainName keySelector headerFieldNames
    headers body : str) : str :=
  let canonicalizedBody := DKIMCanonicalizer.relaxedBody body in
  let canonicalizedBodyHash := sha256_base64 canonicalizedBody in
  let canonicalizedHeaderData :=
    DKIMCanonicalizer.relaxedHeaders proto_to_string headers headerFieldNames in
  let domainName :=
    if hasUTFChars domainName then toASCIIDomain domainName else domainName in
  let dkim :=
    join (lit "; ")
      [lit "v=1"; lit "a=rsa-sha256"; lit "c=relaxed/relaxed";
       lit "d=" ++ domainName; lit "q=dns/txt"; lit "s=" ++ keySelector;
       lit "bh=" ++ canonicalizedBodyHash;
       lit "h=" ++ DKIMCanonicalizer.fieldNames canonicalizedHeaderData] in
  foldLines (lit "DKIM-Signature: " ++ dkim) 76 false
  ++ lit ";" ++ CRLF ++ lit " b=".

(** [options.headerFieldNames || defaultFieldNames] *)
Definition effective_field_names (o : dkim_options) : str :=
  match headerFieldNames o with
  | Some s => if is_nil s then defaultFieldNames else s
  | None => defaultFieldNames
  end.

(** The DKIM-Signature header with its empty [b=], as [DKIMSign] builds it. *)
Definition dkim_header (email : str) (o : dkim_options) : str :=
  let '(headers, body) := split_email email in
  generateDKIMHeader (domainName o) (keySelector o) (effective_field_names o)
    headers body.

(** The string handed to [signer.update]: [canonicalizedHeaderData.headers]
    after the [+=]. *)
Definition signed_data (email : str) (o : dkim_options) : str :=
  let '(headers, body) := split_email email in
  let dkim := dkim_header email o in
  let canonicalizedHeaderData :=
    DKIMCanonicalizer.relaxedHeaders proto_to_string headers
      (effective_field_names o) in
  let canonicalizedDKIMHeader := DKIMCanonicalizer.relaxedHeaderLine dkim in
  DKIMCanonicalizer.headers canonicalizedHeaderData
  ++ DKIMCanonicalizer.key canonicalizedDKIMHeader ++ lit ":"
  ++ DKIMCanonicalizer.value canonicalizedDKIMHeader.

(** [DKIMSign]; [None] when signing throws. *)
Definition DKIMSign (email : str) (o : dkim_options) : option str :=
  match rsa_sha256_base64 (signed_data email o) (privateKey o) with
  | Some signature =>
      Some (dkim_header email o
            ++ trim (fold_signature (List.length signature) true signature))
  | None => None
  end.

End Crypto.

End Dkim.

(** ** postman.ts *)

Module Postman.

(** [string | string[]] *)
Inductive addresses : Type :=
| One (a : str)
| Many (l : list str).

Record EnvelopeAttachment : Type := {
  filename : str;
  path : str;
  contentType : str
}.

Record SendEnvelope : Type := {
  from : str;
  to : addresses;
  cc : option addresses;
  bcc : option addresses;
  subject : str;
  body : str;
  html : option str;
  attachments : option (list EnvelopeAttachment)
}.

Record DKIMOptions : Type := {
  domain : str;
  keySelector : str;
  privateKey : str
}.

(** What a call of [createEmailMessage] draws from outside the program: the
    three [crypto.randomBytes(16).toString('hex')], [Date.now()] in decimal,
    and [fs.readFile(path)] in base64 ([None] when the read fails). *)
Record Ambient : Type := {
  mixedHex : str;
  alternativeHex : str;
  messageIdHex : str;
  now : str;
  readFile : str -> option str
}.

Inductive error : Type :=
| DnsTimedOut (timeout : N)
| DnsFailed (domain msg : str)
| NoMxRecords (domain : str)
| NotAFunction
| OperationTimedOut
| MustAcceptTls
| TlsError (text : str)
| SmtpError (text : str)
| ReadFailed (path : str)
| SignFailed.

(** A promise; once settled it stays as it is. *)
Inductive promise (A : Type) : Type :=
| Pending
| Fulfilled (a : A)
| Rejected (e : error).
Arguments Pending {A}.
Arguments Fulfilled {A} a.
Arguments Rejected {A} e.

Definition resolve {A} (a : A) (p : promise A) : promise A :=
  match p with Pending => Fulfilled a | _ => p end.

Definition reject {A} (e : error) (p : promise A) : promise A :=
  match p with Pending => Rejected e | _ => p end.

Definition DEFAULT_PORT : N := 25.
Definition DEFAULT_CONNECT_TIMEOUT : N := 30000.
Definition DEFAULT_READ_TIMEOUT : N := 60000.
Definition DEFAULT_MX_LOOKUP_TIMEOUT : N := 10000.

Definition DQ : ascii := ascii_of_nat 34.

(** Truthiness of an optional [string | string[]]: [undefined] and [''] are
    falsy, every array is truthy. *)
Definition given (a : option addresses) : bool :=
  match a with
  | None => false
  | Some (One s) => negb (is_nil s)
  | Some (Many _) => true
  end.

Definition formatAddresses (a : addresses) : str :=
  match a with
  | Many l => join (lit ", ") l
  | One s => s
  end.

(** [address.split('@')[1]] where it is turned into a string (a template
    literal, a property name): [undefined] reads "undefined". *)
Definition domain_of (address : str) : str :=
  match nth_error (split_on "@" address) 1 with
  | Some d => d
  | None => lit "undefined"
  end.

Definition generateMessageId (amb : Ambient) (domain : str) : str :=
  lit "<" ++ messageIdHex amb ++ lit "." ++ now amb ++ lit "@" ++ domain
  ++ lit ">".

(** ** MX lookup *)

Record MxRecord : Type := { priority : nat; exchange : str }.

(** [addresses.sort((a, b) => a.priority - b.priority)]: the sort is stable. *)
Fixpoint insert_by_priority (r : MxRecord) (l : list MxRecord)
    : list MxRecord :=
  match l with
  | [] => [r]
  | x :: t =>
      if priority r <=? priority x then r :: x :: t
      else x :: insert_by_priority r t
  end.

Definition sort_by_priority (l : list MxRecord) : list MxRecord :=
  fold_right insert_by_priority [] l.

(** What can happen while a lookup is pending: the timer of [setTimeout]
    fires, or [dns.resolveMx] calls back with an error or with [addresses]
    ([None] standing for a missing list). *)
Inductive mx_event : Type :=
| TimerFired
| DnsError (msg : str)
| DnsAnswer (addresses : option (list MxRecord)).

Record mx_state : Type := {
  timer_armed : bool;
  settled : promise str
}.

Definition mx_step (domain : str) (timeout : N) (st : mx_state)
    (ev : mx_event) : mx_state :=
  match ev with
  | TimerFired =>
      if timer_armed st then
        {| timer_armed := false;
           settled := reject (DnsTimedOut timeout) (settled st) |}
      else st
  | DnsError msg =>
      {| timer_armed := false;
         settled := reject (DnsFailed domain msg) (settled st) |}
  | DnsAnswer addresses =>
      {| timer_armed := false;
         settled :=
           match addresses with
           | None | Some [] => reject (NoMxRecords domain) (settled st)
           | Some (a :: l) =>
               match sort_by_priority (a :: l) with
               | mxRecord :: _ => resolve (exchange mxRecord) (settled st)
               | [] => settled st
               end
           end |}
  end.

(** [getMailExchange(domain, timeout)] under the events [evs], in the order
    in which they occur. *)
Definition getMailExchange (domain : str) (timeout : N)
    (evs : list mx_event) : promise str :=
  settled
    (fold_left (mx_step domain timeout) evs
       {| timer_armed := true; settled := Pending |}).

(** ** Grouping recipients *)

Record RecipientGroup : Type := { mxHost : str; recipients : list str }.

Definition allRecipients (e : SendEnvelope) : list str :=
  (match to e with
   | Many l => l
   | One a => [a]
   end)
  ++ (match cc e with
      | Some (Many l) => l
      | Some (One a) => if is_nil a then [] else [a]
      | None => []
      end)
  ++ (match bcc e with
      | Some (Many l) => l
      | Some (One a) => if is_nil a then [] else [a]
      | None => []
      end).

(** [domainMap]: own properties in the order of their creation. *)
Definition domain_map : Type := list (str * list str).

Fixpoint own_list (m : domain_map) (k : str) : option (list str) :=
  match m with
  | [] => None
  | (k', v) :: r => if str_eqb k k' then Some v else own_list r k
  end.

(** [domainMap[domain].push(recipient)] on an own property. *)
Fixpoint push_to (m : domain_map) (k : str) (x : str) : domain_map :=
  match m with
  | [] => []
  | (k', v) :: r =>
      if str_eqb k k' then (k', v ++ [x]) :: r else (k', v) :: push_to r k x
  end.

(** The body of [allRecipients.forEach]; [None] when it throws: for a name
    inherited from [Object.prototype], [domainMap[domain]] is truthy and has
    no [push]. *)
Definition group_step (domainMap : domain_map) (recipient : str)
    : option domain_map :=
  let domain := domain_of recipient in
  match own_list domainMap domain with
  | Some _ => Some (push_to domainMap domain recipient)
  | None =>
      if inherited domain then None
      else Some (push_to (domainMap ++ [(domain, [])]) domain recipient)
  end.

Fixpoint group_all (domainMap : domain_map) (l : list str)
    : option domain_map :=
  match l with
  | [] => Some domainMap
  | r :: t =>
      match group_step domainMap r with
      | Some m => group_all m t
      | None => None
      end
  end.

Definition is_digit (c : ascii) : bool :=
  (48 <=? nat_of_ascii c) && (nat_of_ascii c <=? 57).

Definition digit_value (c : ascii) : N := N.of_nat (nat_of_ascii c - 48).

Definition decimal (s : str) : N :=
  fold_left (fun acc c => (10 * acc + digit_value c)%N) s 0%N.

(** An array index as a property name: the canonical decimal form of an
    integer from 0 to 2^32 - 2. *)
Definition array_index (k : str) : option N :=
  match k with
  | [] => None
  | c :: t =>
      if forallb is_digit k
         && (negb (Ascii.eqb c "0") || is_nil t)
         && (List.length k <=? 10)
         && (decimal k <? 4294967295)%N
      then Some (decimal k) else None
  end.

Fixpoint insert_index (x : N * str) (l : list (N * str)) : list (N * str) :=
  match l with
  | [] => [x]
  | y :: t =>
      if (fst x <=? fst y)%N then x :: y :: t else y :: insert_index x t
  end.

(** [Object.keys(o)]: array indices in ascending numeric order, then the
    other names in the order of their creation. *)
Definition object_keys (names : list str) : list str :=
  let indices :=
    flat_map (fun k => match array_index k with
                       | Some n => [(n, k)]
                       | None => []
                       end) names in
  map snd (fold_right insert_index [] indices)
  ++ filter (fun k => match array_index k with
                      | Some _ => false
                      | None => true
                      end) names.

(** [domainMap] after the [forEach], listed in the order of
    [Object.keys(domainMap)]; [None] when the [forEach] throws. *)
Definition domain_groups (e : SendEnvelope) : option (list (str * list str)) :=
  match group_all [] (allRecipients e) with
  | Some domainMap =>
      Some (map (fun d => (d, match own_list domainMap d with
                              | Some l => l
                              | None => []
                              end))
              (object_keys (map fst domainMap)))
  | None => None
  end.

(** How [getRecipientsByMx] ends: fulfilled with the groups, rejected, or
    never settled.  [Promise.all] rejects with the reason of the lookup that
    is rejected first in time; [Failed] lists the reasons of all rejected
    lookups, in the order of the groups, one of which is the reason. *)
Inductive grouping : Type :=
| Groups (l : list RecipientGroup)
| Failed (reasons : list error)
| Stuck.

Definition rejections {A} (l : list (promise A)) : list error :=
  flat_map (fun p => match p with Rejected e => [e] | _ => [] end) l.

Fixpoint all_fulfilled {A} (l : list (promise A)) : option (list A) :=
  match l with
  | [] => Some []
  | Fulfilled a :: t =>
      match all_fulfilled t with
      | Some r => Some (a :: r)
      | None => None
      end
  | _ :: _ => None
  end.

(** [getRecipientsByMx(sendOptions, timeout)]; [dns domain] lists the events
    of the lookup of [domain]. *)
Definition getRecipientsByMx (dns : str -> list mx_event)
    (sendOptions : SendEnvelope) (timeout : N) : grouping :=
  match domain_groups sendOptions with
  | None => Failed [NotAFunction]
  | Some byDomain =>
      let lookups :=
        map (fun dr => getMailExchange (fst dr) timeout (dns (fst dr)))
          byDomain in
      match rejections lookups with
      | reason :: more => Failed (reason :: more)
      | [] =>
          match all_fulfilled lookups with
          | Some hosts =>
              Groups (map (fun hd => {| mxHost := fst hd;
                                        recipients := snd (snd hd) |})
                        (combine hosts byDomain))
          | None => Stuck
          end
      end
  end.

(** ** Building the message *)

Section Message.

Variable proto_to_string : str -> str.
Variable sha256_base64 : str -> str.
Variable toASCIIDomain : str -> str.
Variable rsa_sha256_base64 : str -> str -> option str.

(** [dkimSigned]; [None] when [DKIMSign] throws. *)
Definition dkimSigned (rfc822message : str) (dkimOptions : DKIMOptions)
    : option str :=
  match Dkim.DKIMSign proto_to_string sha256_base64 toASCIIDomain
          rsa_sha256_base64 rfc822message
          {| Dkim.domainName := domain dkimOptions;
             Dkim.keySelector := keySelector dkimOptions;
             Dkim.headerFieldNames := None;
             Dkim.privateKey := privateKey dkimOptions |} with
  | Some dkimSignature => Some (dkimSignature ++ CRLF ++ rfc822message)
  | None => None
  end.

(** [encodeAttachment]; the line breaks of the template literal are LF. *)
Definition encodeAttachment (amb : Ambient) (attachment : EnvelopeAttachment)
    (boundary : str) : option str :=
  match readFile amb (path attachment) with
  | Some base64Content =>
      Some ([LF] ++ lit "--" ++ boundary ++ [LF]
            ++ lit "Content-Type: " ++ contentType attachment
            ++ lit "; name=" ++ [DQ] ++ filename attachment ++ [DQ] ++ [LF]
            ++ lit "Content-Transfer-Encoding: base64" ++ [LF]
            ++ lit "Content-Disposition: attachment; filename=" ++ [DQ]
            ++ filename attachment ++ [DQ] ++ [LF]
            ++ [LF]
            ++ base64Content ++ [LF])
  | None => None
  end.

(** The [for] loop over the attachments: [message] grows by one part per
    attachment until a read fails. *)
Fixpoint add_attachments (amb : Ambient) (mixedBoundary : str)
    (l : list EnvelopeAttachment) (message : str) : str + error :=
  match l with
  | [] => inl message
  | attachment :: t =>
      match encodeAttachment amb attachment mixedBoundary with
      | Some part => add_attachments amb mixedBoundary t (message ++ part)
      | None => inr (ReadFailed (path attachment))
      end
  end.

(** The message before signing: everything [createEmailMessage] appends up
    to the closing of the alternative part. *)
Definition message_head (amb : Ambient) (sendOptions : SendEnvelope) : str :=
  let fromDomain := domain_of (from sendOptions) in
  let mixedBoundary := lit "--boundary_" ++ mixedHex amb in
  let alternativeBoundary := lit "--boundary_" ++ alternativeHex amb in
  lit "Message-ID: " ++ generateMessageId amb fromDomain ++ CRLF
  ++ lit "From: " ++ from sendOptions ++ CRLF
  ++ lit "To: " ++ formatAddresses (to sendOptions) ++ CRLF
  ++ (match cc sendOptions with
      | Some a => if given (Some a)
                  then lit "CC: " ++ formatAddresses a ++ CRLF else []
      | None => []
      end)
  ++ (match bcc sendOptions with
      | Some a => if given (Some a)
                  then lit "BCC: " ++ formatAddresses a ++ CRLF else []
      | None => []
      end)
  ++ lit "Subject: " ++ subject sendOptions ++ CRLF
  ++ lit "MIME-Version: 1.0" ++ CRLF
  ++ lit "Content-Type: multipart/mixed; boundary=" ++ [DQ] ++ mixedBoundary
  ++ [DQ] ++ CRLF ++ CRLF
  ++ lit "--" ++ mixedBoundary ++ CRLF
  ++ lit "Content-Type: multipart/alternative; boundary=" ++ [DQ]
  ++ alternativeBoundary ++ [DQ] ++ CRLF ++ CRLF
  ++ lit "--" ++ alternativeBoundary ++ CRLF
  ++ lit "Content-Type: text/plain; charset=" ++ [DQ] ++ lit "utf-8" ++ [DQ]
  ++ CRLF ++ CRLF
  ++ body sendOptions ++ CRLF
  ++ (match html sendOptions with
      | Some h =>
          if is_nil h then []
          else lit "--" ++ alternativeBoundary ++ CRLF
               ++ lit "Content-Type: text/html; charset=" ++ [DQ]
               ++ lit "utf-8" ++ [DQ] ++ CRLF ++ CRLF
               ++ h ++ CRLF
      | None => []
      end)
  ++ lit "--" ++ alternativeBoundary ++ lit "--" ++ CRLF.

(** [createEmailMessage] *)
Definition createEmailMessage (amb : Ambient) (sendOptions : SendEnvelope)
    (dkim : option DKIMOptions) : str + error :=
  let mixedBoundary := lit "--boundary_" ++ mixedHex amb in
  match add_attachments amb mixedBoundary
          (match attachments sendOptions with Some l => l | None => [] end)
          (message_head amb sendOptions) with
  | inl message =>
      let message := message ++ lit "--" ++ mixedBoundary ++ lit "--" ++ CRLF in
      match dkim with
      | Some o =>
          match dkimSigned message o with
          | Some signed => inl signed
          | None => inr SignFailed
          end
      | None => inl message
      end
  | inr e => inr e
  end.

End Message.

(** ** The SMTP conversation *)

Definition hex_value (c : ascii) : option Z :=
  let n := nat_of_ascii c in
  if (48 <=? n) && (n <=? 57) then Some (Z.of_nat (n - 48))
  else if (97 <=? n) && (n <=? 102) then Some (Z.of_nat (n - 87))
  else if (65 <=? n) && (n <=? 70) then Some (Z.of_nat (n - 55))
  else None.

Definition decimal_value (c : ascii) : option Z :=
  if is_digit c then Some (Z.of_nat (nat_of_ascii c - 48)) else None.

(** The number read from the longest prefix of digits of [s] in the given
    radix; [None] when [s] does not start with a digit. *)
Fixpoint digits (radix : Z) (value : ascii -> option Z) (acc : option Z)
    (s : str) : option Z :=
  match s with
  | [] => acc
  | c :: t =>
      match value c with
      | Some d =>
          digits radix value
            (Some (radix * (match acc with Some a => a | None => 0 end) + d)%Z)
            t
      | None => acc
      end
  end.

(** [parseInt(s)]: leading white space and a sign are skipped, [0x] or [0X]
    announces hexadecimal digits; [None] is [NaN]. *)
Definition parseInt (s : str) : option Z :=
  let s := strip_leading is_space s in
  let '(negative, s) :=
    match s with
    | c :: t =>
        if Ascii.eqb c "-" then (true, t)
        else if Ascii.eqb c "+" then (false, t)
        else (false, s)
    | [] => (false, s)
    end in
  let magnitude :=
    match s with
    | z :: x :: t =>
        if Ascii.eqb z "0" && (Ascii.eqb x "x" || Ascii.eqb x "X")
        then digits 16 hex_value None t
        else digits 10 decimal_value None s
    | _ => digits 10 decimal_value None s
    end in
  match magnitude with
  | Some m => Some (if negative then (- m)%Z else m)
  | None => None
  end.

Definition code_is (code : option Z) (n : Z) : bool :=
  match code with
  | Some c => (c =? n)%Z
  | None => false
  end.

Definition code_at_least (code : option Z) (n : Z) : bool :=
  match code with
  | Some c => (n <=? c)%Z
  | None => false
  end.

Fixpoint starts_with (prefix s : str) : bool :=
  match prefix, s with
  | [], _ => true
  | _ :: _, [] => false
  | a :: p, b :: t => Ascii.eqb a b && starts_with p t
  end.

(** [s.includes(needle)] *)
Fixpoint str_includes (needle s : str) : bool :=
  starts_with needle s
  || match s with
     | [] => false
     | _ :: t => str_includes needle t
     end.

Inductive channel : Type := Plain | Tls.

(** What the two sockets of a session can deliver, and the settling of a
    call of [createEmailMessage] (which draws [amb]). *)
Inductive event : Type :=
| ClientData (data : str)
| ClientTimeout
| ClientError (msg : str)
| ClientEnd
| TlsSecure
| TlsData (data : str)
| TlsSocketError (msg : str)
| TlsEnd
| MessageBuilt (amb : Ambient).

Record session : Type := {
  greeted : bool;
  timeout_armed : bool;
  (** [None] until [tls.connect] is called, then [tlsGreeted] *)
  tlsGreeted : option bool;
  (** everything written, oldest first *)
  written : list (channel * str);
  client_destroyed : bool;
  tls_destroyed : bool;
  tls_ended : bool;
  (** calls of [createEmailMessage] that have not settled *)
  building : nat;
  outcome : promise str
}.

Definition start : session :=
  {| greeted := false; timeout_armed := true; tlsGreeted := None;
     written := []; client_destroyed := false; tls_destroyed := false;
     tls_ended := false; building := 0; outcome := Pending |}.

Definition write (ch : channel) (data : str) (s : session) : session :=
  {| greeted := greeted s; timeout_armed := timeout_armed s;
     tlsGreeted := tlsGreeted s; written := written s ++ [(ch, data)];
     client_destroyed := client_destroyed s; tls_destroyed := tls_destroyed s;
     tls_ended := tls_ended s; building := building s; outcome := outcome s |}.

Definition settle (f : promise str -> promise str) (s : session) : session :=
  {| greeted := greeted s; timeout_armed := timeout_armed s;
     tlsGreeted := tlsGreeted s; written := written s;
     client_destroyed := client_destroyed s; tls_destroyed := tls_destroyed s;
     tls_ended := tls_ended s; building := building s;
     outcome := f (outcome s) |}.

Definition destroy_client (s : session) : session :=
  {| greeted := greeted s; timeout_armed := timeout_armed s;
     tlsGreeted := tlsGreeted s; written := written s;
     client_destroyed := true; tls_destroyed := tls_destroyed s;
     tls_ended := tls_ended s; building := building s; outcome := outcome s |}.

Definition destroy_tls (s : session) : session :=
  {| greeted := greeted s; timeout_armed := timeout_armed s;
     tlsGreeted := tlsGreeted s; written := written s;
     client_destroyed := client_destroyed s; tls_destroyed := true;
     tls_ended := tls_ended s; building := building s; outcome := outcome s |}.

Definition end_tls (s : session) : session :=
  {| greeted := greeted s; timeout_armed := timeout_armed s;
     tlsGreeted := tlsGreeted s; written := written s;
     client_destroyed := client_destroyed s; tls_destroyed := tls_destroyed s;
     tls_ended := true; building := building s; outcome := outcome s |}.

Definition set_greeted (s : session) : session :=
  {| greeted := true; timeout_armed := timeout_armed s;
     tlsGreeted := tlsGreeted s; written := written s;
     client_destroyed := client_destroyed s; tls_destroyed := tls_destroyed s;
     tls_ended := tls_ended s; building := building s; outcome := outcome s |}.

Definition disarm (s : session) : session :=
  {| greeted := greeted s; timeout_armed := false;
     tlsGreeted := tlsGreeted s; written := written s;
     client_destroyed := client_destroyed s; tls_destroyed := tls_destroyed s;
     tls_ended := tls_ended s; building := building s; outcome := outcome s |}.

Definition set_tlsGreeted (g : bool) (s : session) : session :=
  {| greeted := greeted s; timeout_armed := timeout_armed s;
     tlsGreeted := Some g; written := written s;
     client_destroyed := client_destroyed s; tls_destroyed := tls_destroyed s;
     tls_ended := tls_ended s; building := building s; outcome := outcome s |}.

Definition set_building (n : nat) (s : session) : session :=
  {| greeted := greeted s; timeout_armed := timeout_armed s;
     tlsGreeted := tlsGreeted s; written := written s;
     client_destroyed := client_destroyed s; tls_destroyed := tls_destroyed s;
     tls_ended := tls_ended s; building := n; outcome := outcome s |}.

Definition sent : str := lit "Email sent successfully".

Section Session.

Variable proto_to_string : str -> str.
Variable sha256_base64 : str -> str.
Variable toASCIIDomain : str -> str.
Variable rsa_sha256_base64 : str -> str -> option str.

Variable sendOptions : SendEnvelope.
Variable dkim : option DKIMOptions.
Variable group : RecipientGroup.

(** [client.on('data', ...)], after the [once('data')] listener has
    switched the timeout off. *)
Definition on_client_data (serverData : str) (s : session) : session :=
  let s := disarm s in
  let code := parseInt (substr serverData 0 3) in
  if code_is code 220 && negb (greeted s) then
    write Plain (lit "EHLO " ++ mxHost group ++ CRLF) s
  else if code_is code 250 && negb (greeted s) then
    let s := set_greeted s in
    if str_includes (lit "250-STARTTLS") serverData
    then write Plain (lit "STARTTLS" ++ CRLF) s
    else settle (reject MustAcceptTls) (destroy_client s)
  else if code_is code 220 && str_includes (lit "TLS") serverData
          && greeted s then
    set_tlsGreeted false s
  else if code_at_least code 500 then
    settle (reject (SmtpError serverData)) (destroy_client s)
  else s.

(** [tlsSocket.on('data', ...)] with [tlsGreeted = g]. *)
Definition on_tls_data (g : bool) (tlsResponse : str) (s : session)
    : session :=
  let code := parseInt (substr tlsResponse 0 3) in
  if code_is code 250 && negb g then
    let s := write Tls (lit "MAIL FROM:<" ++ from sendOptions ++ lit ">"
                        ++ CRLF) s in
    let s := fold_left
               (fun s recipient =>
                  write Tls (lit "RCPT TO:<" ++ recipient ++ lit ">" ++ CRLF) s)
               (recipients group) s in
    let s := write Tls (lit "DATA" ++ CRLF) s in
    set_tlsGreeted true s
  else if code_is code 354 then
    set_building (S (building s)) s
  else if code_is code 250 && str_includes (lit "2.0.0") tlsResponse then
    end_tls (settle (resolve sent) (write Tls (lit "QUIT" ++ CRLF) s))
  else if code_at_least code 500 then
    settle (reject (TlsError tlsResponse)) (destroy_tls s)
  else s.

(** Whether the TLS socket exists and can still deliver events. *)
Definition tls_live (s : session) : bool :=
  match tlsGreeted s with
  | Some _ => negb (client_destroyed s) && negb (tls_destroyed s)
  | None => false
  end.

(** The continuation of [createEmailMessage(...)]: [then] writes the message
    and the line with the dot, [catch] rejects.  Nothing is written to a
    socket that was destroyed or ended. *)
Definition on_message (amb : Ambient) (s : session) : session :=
  match createEmailMessage proto_to_string sha256_base64 toASCIIDomain
          rsa_sha256_base64 amb sendOptions dkim with
  | inl message =>
      if tls_live s && negb (tls_ended s)
      then write Tls (lit "." ++ CRLF) (write Tls message s)
      else s
  | inr e => settle (reject e) s
  end.

(** One event of a session.  A destroyed socket delivers nothing, and once
    [tls.connect] has taken the plain socket over, its data reach the
    listeners of the TLS socket only. *)
Definition step (s : session) (ev : event) : session :=
  match ev with
  | ClientData data =>
      if client_destroyed s then s
      else match tlsGreeted s with
           | None => on_client_data data s
           | Some _ => s
           end
  | ClientTimeout =>
      if client_destroyed s || negb (timeout_armed s) then s
      else settle (reject OperationTimedOut) (destroy_client s)
  | ClientError msg =>
      if client_destroyed s then s
      else settle (reject (SmtpError msg)) (destroy_client s)
  | ClientEnd => s
  | TlsSecure =>
      if tls_live s && negb (tls_ended s)
      then write Tls (lit "EHLO " ++ mxHost group ++ CRLF) s
      else s
  | TlsData data =>
      match tlsGreeted s with
      | Some g => if tls_live s then on_tls_data g data s else s
      | None => s
      end
  | TlsSocketError msg =>
      if tls_live s then settle (reject (TlsError msg)) (destroy_tls s) else s
  | TlsEnd => s
  | MessageBuilt amb =>
      match building s with
      | 0 => s
      | S n => on_message amb (set_building n s)
      end
  end.

(** The session of one group under the events [evs]. *)
Definition run (evs : list event) : session := fold_left step evs start.

End Session.

Section Send.

Variable proto_to_string : str -> str.
Variable sha256_base64 : str -> str.
Variable toASCIIDomain : str -> str.
Variable rsa_sha256_base64 : str -> str -> option str.

Record PostmanOptions : Type := {
  dkim : option DKIMOptions;
  port : option N;
  readTimeout : option N;
  connectionTimeout : option N;
  mxLookupTimeout : option N
}.

(** What the network does during one [send]: the events of each MX lookup
    and the events of the session of the [i]-th group. *)
Record World : Type := {
  dns : str -> list mx_event;
  net : nat -> list event
}.

(** How [send] ends; a rejection lists the possible reasons (one, except
    for several failed lookups). *)
Inductive sending : Type :=
| Delivered (message : str)
| Refused (reasons : list error)
| Hanging.

(** The [for ... of] loop over the groups, from the [i]-th group on. *)
Fixpoint send_groups (options : PostmanOptions) (sendOptions : SendEnvelope)
    (w : World) (i : nat) (groups : list RecipientGroup) : sending :=
  match groups with
  | [] => Delivered sent
  | group :: rest =>
      match outcome (run proto_to_string sha256_base64 toASCIIDomain
                       rsa_sha256_base64 sendOptions (dkim options) group
                       (net w i)) with
      | Fulfilled _ => send_groups options sendOptions w (S i) rest
      | Rejected e => Refused [e]
      | Pending => Hanging
      end
  end.

(** [Postman.send] *)
Definition send (options : PostmanOptions) (w : World)
    (sendOptions : SendEnvelope) : sending :=
  match getRecipientsByMx (dns w) sendOptions
          (match mxLookupTimeout options with
           | Some t => t
           | None => DEFAULT_MX_LOOKUP_TIMEOUT
           end) with
  | Groups groups => send_groups options sendOptions w 0 groups
  | Failed reasons => Refused reasons
  | Stuck => Hanging
  end.

End Send.

End Postman.

(** ** Vocabulary of the properties *)

Module Text.

(** The canonical form of one body line, as the [map] of [relaxedBody]
    computes it. *)
Definition canon_line (line : str) : str := collapse_ws (rtrim line).

(** CR or LF. *)
Definition newline_char (c : ascii) : bool := Ascii.eqb c CR || Ascii.eqb c LF.

(** White space inside a line: [\s] except the line breaks. *)
Definition blank (c : ascii) : bool := is_space c && negb (newline_char c).

(** A line holds no CR and no LF. *)
Definition is_line (l : str) : bool := forallb (fun c => negb (newline_char c)) l.

(** The three line endings. *)
Inductive eol : Type := Cr | Lf | CrLf.

Definition eol_str (e : eol) : str :=
  match e with
  | Cr => [CR]
  | Lf => [LF]
  | CrLf => CRLF
  end.

(** A text written line by line, every line but the last with its own line
    ending. *)
Fixpoint compose (ls : list (str * eol)) (last : str) : str :=
  match ls with
  | [] => last
  | (l, e) :: r => l ++ eol_str e ++ compose r last
  end.

(** No line ended by a lone CR is followed by an empty line ended by a lone
    LF (together the two would read as one CR LF). *)
Fixpoint unambiguous (ls : list (str * eol)) : bool :=
  match ls with
  | [] => true
  | (_, e) :: r =>
      negb (match e, r with
            | Cr, ([], Lf) :: _ => true
            | _, _ => false
            end)
      && unambiguous r
  end.

(** Two lines that differ only in the white space at their end and in the
    length (and choice of blanks) of the runs of white space inside them. *)
Inductive same_words : str -> str -> Prop :=
| sw_end (w1 w2 : str) :
    forallb blank w1 = true -> forallb blank w2 = true -> same_words w1 w2
| sw_char (c : ascii) (s t : str) :
    is_space c = false -> same_words s t -> same_words (c :: s) (c :: t)
| sw_run (w1 w2 s t : str) :
    w1 <> [] -> w2 <> [] ->
    forallb blank w1 = true -> forallb blank w2 = true ->
    same_words s t -> same_words (w1 ++ s) (w2 ++ t).

(** [out] is [s] with CR LF inserted at some places, and nothing else
    changed. *)
Inductive folded : str -> str -> Prop :=
| folded_nil : folded [] []
| folded_keep (c : ascii) (s out : str) : folded s out -> folded (c :: s) (c :: out)
| folded_break (s out : str) : folded s out -> folded s (CR :: LF :: out).

(** [out] is [s] with CR LF SPACE inserted at some places, and nothing else
    changed. *)
Inductive wrapped : str -> str -> Prop :=
| wrapped_nil : wrapped [] []
| wrapped_keep (c : ascii) (s out : str) :
    wrapped s out -> wrapped (c :: s) (c :: out)
| wrapped_break (s out : str) :
    wrapped s out -> wrapped s (CR :: LF :: SP :: out).

(** The last steps of [relaxedBody] on lines that are already split and
    canonical. *)
Definition render (ls : list str) : str :=
  LF_to_CRLF (join [LF] (strip_trailing is_nil ls) ++ [LF]).

End Text.

Module HeaderText.

Import DKIMCanonicalizer.

(** What Node prints for the members of [Object.prototype]. *)
Definition node_proto_to_string (k : str) : str :=
  if str_eqb k (lit "__proto__") then lit "[object Object]"
  else lit "function "
       ++ (if str_eqb k (lit "constructor") then lit "Object" else k)
       ++ lit "() { [native code] }".

(** The header lines after unfolding: [headerLines] when the first loop of
    [relaxedHeaders] is over (the requested names play no part in it). *)
Definition unfolded (headers : str) : list str :=
  fst (join_lines [] headers).

(** The canonical name of a header line. *)
Definition name_of (line : str) : str := key (relaxedHeaderLine line).

(** The canonical value of a header line. *)
Definition value_of (line : str) : str := value (relaxedHeaderLine line).

(** Some line among [lines] is a header named [k]. *)
Definition occurs (k : str) (lines : list str) : bool :=
  existsb (fun l => str_eqb (name_of l) k) lines.

(** The canonical value of the bottom-most line named [k]. *)
Fixpoint bottom_value (k : str) (lines : list str) : option str :=
  match lines with
  | [] => None
  | l :: r =>
      match bottom_value k r with
      | Some v => Some v
      | None => if str_eqb (name_of l) k then Some (value_of l) else None
      end
  end.

(** The value [relaxedHeaders] takes for the name [k]: that of the
    bottom-most line named [k]. *)
Definition selected_value (k : str) (lines : list str) : str :=
  match bottom_value k lines with
  | Some v => v
  | None => []
  end.

(** Whether [relaxedHeaders] keeps the requested name [k]: its bottom-most
    line has a value that is not empty. *)
Definition kept_name (lines : list str) (k : str) : bool :=
  match bottom_value k lines with
  | Some v => negb (is_nil v)
  | None => false
  end.

(** The canonical value of the top-most line named [k]. *)
Fixpoint top_value (k : str) (lines : list str) : option str :=
  match lines with
  | [] => None
  | l :: r => if str_eqb (name_of l) k then Some (value_of l)
              else top_value k r
  end.

(** [headerFields] after the header line [line] has been looked at. *)
Definition record_line (inc : list str) (F : obj) (line : str) : obj :=
  if includes inc (name_of line) && negb (has_property F (name_of line))
  then set F (name_of line) (value_of line) else F.

(** The first loop as a scan of the lines from the bottom: [x] is the line
    at the current index with everything folded into it so far, [rev_pre]
    the lines above it, bottom first, and [finished] the lines below. *)
Fixpoint scan (inc : list str) (rev_pre : list str) (x : str)
    (finished : list str) (F : obj) : list str * obj :=
  match rev_pre with
  | [] => (x :: finished, record_line inc F x)
  | y :: rp =>
      if starts_with_space x then scan inc rp (y ++ x) finished F
      else scan inc rp y (x :: finished) (record_line inc F x)
  end.

(** The unfolding alone. *)
Fixpoint unfold_from (rev_pre : list str) (x : str) (finished : list str)
    : list str :=
  match rev_pre with
  | [] => x :: finished
  | y :: rp =>
      if starts_with_space x then unfold_from rp (y ++ x) finished
      else unfold_from rp y (x :: finished)
  end.

End HeaderText.

Module GroupText.

Import Postman.

(** [domainMap] holds, for the recipients [l] seen so far, one entry per
    domain, with the recipients of that domain in the order seen. *)
Definition grouped (m : domain_map) (l : list str) : Prop :=
  NoDup (map fst m)
  /\ (forall d rs, In (d, rs) m ->
        rs = filter (fun r => str_eqb (domain_of r) d) l /\ rs <> [])
  /\ (forall r, In r l -> In (domain_of r) (map fst m)).



End GroupText.

Module WireText.

Import Postman.

(** The recipients of the [bcc] field as [getRecipientsByMx] reads them. *)
Definition bcc_list (e : SendEnvelope) : list str :=
  match bcc e with
  | Some (Many l) => l
  | Some (One a) => if is_nil a then [] else [a]
  | None => []
  end.

(** Dot-stuffing as the specification words it: a '.' at the start of the
    payload or right after CR LF is doubled.  [line_start] says that a line
    starts here, [cr] that the previous character was CR. *)
Fixpoint stuff (line_start cr : bool) (s : str) : str :=
  match s with
  | [] => []
  | c :: t =>
      if line_start && Ascii.eqb c "."
      then "."%char :: "."%char :: stuff false false t
      else c :: stuff (cr && Ascii.eqb c LF) (Ascii.eqb c CR) t
  end.

Definition dot_stuffed (payload : str) : str := stuff true false payload.

(** A session after the writes [ws], in order. *)
Definition writes (ws : list (channel * str)) (s : session) : session :=
  {| greeted := greeted s; timeout_armed := timeout_armed s;
     tlsGreeted := tlsGreeted s; written := written s ++ ws;
     client_destroyed := client_destroyed s; tls_destroyed := tls_destroyed s;
     tls_ended := tls_ended s; building := building s; outcome := outcome s |}.

(** The commands a client may send before TLS is established. *)
Definition plain_command (mxHost data : str) : Prop :=
  data = lit "EHLO " ++ mxHost ++ CRLF \/ data = lit "STARTTLS" ++ CRLF.

(** The script of a server that greets, offers STARTTLS and accepts
    everything, with the message built from [amb] after the 354. *)
Definition accepting_script (amb : Ambient) : list event :=
  [ClientData (lit "220 mx ESMTP" ++ CRLF);
   ClientData (lit "250-mx" ++ CRLF ++ lit "250-STARTTLS" ++ CRLF
               ++ lit "250 OK" ++ CRLF);
   ClientData (lit "220 2.0.0 Ready to start TLS" ++ CRLF);
   TlsSecure;
   TlsData (lit "250-mx" ++ CRLF ++ lit "250 OK" ++ CRLF);
   TlsData (lit "250 2.1.0 OK" ++ CRLF);
   TlsData (lit "250 2.1.5 OK" ++ CRLF);
   TlsData (lit "354 Go ahead" ++ CRLF);
   MessageBuilt amb;
   TlsData (lit "250 2.0.0 OK queued" ++ CRLF)].

(** A session is fulfilled only by the branch that writes QUIT. *)
Definition quit_sent (s : session) : Prop :=
  forall m, outcome s = Fulfilled m ->
            m = sent /\ In (Tls, lit "QUIT" ++ CRLF) (written s).

(** What the plain socket carries, and what must have happened before the
    TLS socket is used. *)
Definition clear_text_safe (mx : str) (s : session) : Prop :=
  (forall d, In (Plain, d) (written s) -> plain_command mx d)
  /\ (greeted s = true ->
      In (Plain, lit "STARTTLS" ++ CRLF) (written s)
      \/ client_destroyed s = true)
  /\ (tlsGreeted s <> None -> In (Plain, lit "STARTTLS" ++ CRLF) (written s))
  /\ (forall d, In (Tls, d) (written s) -> tlsGreeted s <> None).

(** What a session has written once the envelope is out and DATA is
    announced. *)
Definition envelope_commands (sendOptions : SendEnvelope)
    (group : RecipientGroup) : list (channel * str) :=
  [(Plain, lit "EHLO " ++ mxHost group ++ CRLF);
   (Plain, lit "STARTTLS" ++ CRLF);
   (Tls, lit "EHLO " ++ mxHost group ++ CRLF);
   (Tls, lit "MAIL FROM:<" ++ from sendOptions ++ lit ">" ++ CRLF)]
  ++ map (fun r => (Tls, lit "RCPT TO:<" ++ r ++ lit ">" ++ CRLF))
       (recipients group)
  ++ [(Tls, lit "DATA" ++ CRLF)].

(** The session between DATA and the end of the message, with [n] calls of
    [createEmailMessage] under way. *)
Definition envelope_sent (sendOptions : SendEnvelope) (group : RecipientGroup)
    (n : nat) : session :=
  {| greeted := true; timeout_armed := false; tlsGreeted := Some true;
     written := envelope_commands sendOptions group;
     client_destroyed := false; tls_destroyed := false; tls_ended := false;
     building := n; outcome := Pending |}.

(** The session of a delivery that went through. *)
Definition delivered (sendOptions : SendEnvelope) (group : RecipientGroup)
    (message : str) : session :=
  {| greeted := true; timeout_armed := false; tlsGreeted := Some true;
     written := envelope_commands sendOptions group
                ++ [(Tls, message); (Tls, lit "." ++ CRLF);
                    (Tls, lit "QUIT" ++ CRLF)];
     client_destroyed := false; tls_destroyed := false; tls_ended := true;
     building := 0; outcome := Fulfilled sent |}.

(** The code of a reply, as both listeners read it. *)
Definition code_of (reply : str) : option Z := parseInt (substr reply 0 3).

(** A reply that does not make the TLS listener act once the envelope is
    out: not a 354, not a 250 that holds "2.0.0", not 500 or more. *)
Definition passive (reply : str) : bool :=
  negb (code_is (code_of reply) 354)
  && negb (code_is (code_of reply) 250 && str_includes (lit "2.0.0") reply)
  && negb (code_at_least (code_of reply) 500).

(** A whole conversation: the greeting, the answers to EHLO and STARTTLS,
    the TLS handshake, the answer to the second EHLO, the answers [acks] to
    the envelope, the answer [go] to DATA, the message built from [amb], and
    the last answer. *)
Definition conversation (greeting offer ready hello : str) (acks : list str)
    (go : str) (amb : Ambient) (queued : str) : list event :=
  [ClientData greeting; ClientData offer; ClientData ready; TlsSecure;
   TlsData hello]
  ++ map TlsData acks
  ++ [TlsData go; MessageBuilt amb; TlsData queued].

(** The separators at which [DKIMSign] can cut headers from body. *)
Definition blank_lines : list str :=
  [[LF; LF]; [LF; CR; LF]; [CR; LF; LF]; [CR; LF; CR; LF]].

(** What a session wrote to the TLS socket, in order. *)
Definition tls_written (s : session) : list str :=
  map snd (filter (fun w => match fst w with Tls => true | Plain => false end)
             (written s)).

End WireText.

(** ** Fixed inputs for the closed examples *)

Module Scenario.

Import Postman.

(** Stand-ins for the three external functions. *)
Definition hash (_ : str) : str := lit "47DEQpj8HBSa+/TImW+5JCeuQeRkm5NMpJWZG3hSuFU=".
Definition ascii_domain (d : str) : str := d.
Definition sign (_ _ : str) : option str := Some (lit "c2lnbmF0dXJl").

Definition ambient : Ambient :=
  {| mixedHex := lit "00112233445566778899aabbccddeeff";
     alternativeHex := lit "ffeeddccbbaa99887766554433221100";
     messageIdHex := lit "0123456789abcdef0123456789abcdef";
     now := lit "1700000000000";
     readFile := fun _ => None |}.

(** Scenario S4 of the specification. *)
Definition s4 : SendEnvelope :=
  {| from := lit "me@home.org";
     to := Many [lit "a@ex1.com"];
     cc := Some (Many [lit "b@ex1.com"]);
     bcc := Some (Many [lit "c@ex2.com"]);
     subject := lit "Hi";
     body := lit "Hello";
     html := None;
     attachments := None |}.

(** An envelope whose body is the single line ".". *)
Definition dot_body : SendEnvelope :=
  {| from := lit "me@home.org";
     to := One (lit "a@ex1.com");
     cc := None;
     bcc := None;
     subject := lit "Hi";
     body := lit ".";
     html := None;
     attachments := None |}.

(** A resolver that answers at once, with one record per domain. *)
Definition dns (d : str) : list mx_event :=
  [DnsAnswer (Some [ {| priority := 10; exchange := lit "mx." ++ d |} ])].

Definition ex1 : RecipientGroup :=
  {| mxHost := lit "mx.ex1.com";
     recipients := [lit "a@ex1.com"; lit "b@ex1.com"] |}.

Definition ex2 : RecipientGroup :=
  {| mxHost := lit "mx.ex2.com"; recipients := [lit "c@ex2.com"] |}.

Definition ex1_only : RecipientGroup :=
  {| mxHost := lit "mx.ex1.com"; recipients := [lit "a@ex1.com"] |}.

(** A server that greets, offers STARTTLS, and accepts everything. *)
Definition handshake : list event :=
  [ClientData (lit "220 mx ESMTP" ++ CRLF);
   ClientData (lit "250-mx" ++ CRLF ++ lit "250-STARTTLS" ++ CRLF
               ++ lit "250 OK" ++ CRLF);
   ClientData (lit "220 2.0.0 Ready to start TLS" ++ CRLF);
   TlsSecure;
   TlsData (lit "250-mx" ++ CRLF ++ lit "250 OK" ++ CRLF)].

Definition accepting : list event :=
  handshake
  ++ [TlsData (lit "250 2.1.0 OK" ++ CRLF);
      TlsData (lit "250 2.1.5 OK" ++ CRLF);
      TlsData (lit "354 Go ahead" ++ CRLF);
      MessageBuilt ambient;
      TlsData (lit "250 2.0.0 OK queued" ++ CRLF)].

(** A network in which every server accepts everything. *)
Definition world : World := {| Postman.dns := dns; net := fun _ => accepting |}.

(** A network in which the server of the first group refuses the message
    with a 550 once TLS is up. *)
Definition refusing : list event :=
  [ClientData (lit "220 mx ESMTP" ++ CRLF);
   ClientData (lit "250-mx" ++ CRLF ++ lit "250-STARTTLS" ++ CRLF
               ++ lit "250 OK" ++ CRLF);
   ClientData (lit "220 2.0.0 Ready to start TLS" ++ CRLF);
   TlsSecure;
   TlsData (lit "550 no" ++ CRLF)].

Definition hostile_world : World :=
  {| Postman.dns := dns;
     net := fun i => match i with 0 => refusing | _ => accepting end |}.

(** An envelope with one attachment, a disk on which it can be read, and
    the DKIM options of the sender. *)
Definition attached : SendEnvelope :=
  {| from := lit "me@home.org";
     to := One (lit "a@ex1.com");
     cc := None;
     bcc := None;
     subject := lit "Hi";
     body := lit "Hello";
     html := None;
     attachments :=
       Some [ {| filename := lit "a.txt"; path := lit "/tmp/a.txt";
                 contentType := lit "text/plain" |} ] |}.

Definition disk : Ambient :=
  {| mixedHex := lit "00112233445566778899aabbccddeeff";
     alternativeHex := lit "ffeeddccbbaa99887766554433221100";
     messageIdHex := lit "0123456789abcdef0123456789abcdef";
     now := lit "1700000000000";
     readFile := fun _ => Some (lit "aGk=") |}.

Definition home_key : DKIMOptions :=
  {| domain := lit "home.org"; keySelector := lit "default";
     privateKey := lit "key" |}.


(** A resolver that fails for every domain. *)
Definition no_dns (d : str) : list mx_event := [DnsError (lit "ENOTFOUND")].

(** An e-mail none of whose headers is among the default names to sign,
    the options of a signer, and a signer that signs one string only. *)
Definition unlisted : str :=
  lit "X-Note: hi" ++ CRLF ++ CRLF ++ lit "Hello".

Definition home_options : Dkim.dkim_options :=
  {| Dkim.domainName := lit "home.org"; Dkim.keySelector := lit "default";
     Dkim.headerFieldNames := None; Dkim.privateKey := lit "key" |}.

Definition sign_only (expected data key : str) : option str :=
  if str_eqb data expected then Some (lit "c2lnbmF0dXJl") else None.


(** [new Postman({})] *)
Definition defaults : PostmanOptions :=
  {| Postman.dkim := None; port := None; readTimeout := None;
     connectionTimeout := None; mxLookupTimeout := None |}.

End Scenario.

(* ================================================================== *)
(** * Part II: properties                                              *)
(* ================================================================== *)

(** ** Strings *)

Section StringFacts.

Lemma str_eqb_eq (a b : str) : str_eqb a b = true <-> a = b.
Proof.
  unfold str_eqb. destruct (list_eq_dec ascii_dec a b); split; congruence.
Qed.

Lemma str_eqb_refl (a : str) : str_eqb a a = true.
Proof. apply str_eqb_eq. reflexivity. Qed.

Lemma str_eqb_neq (a b : str) : str_eqb a b = false <-> a <> b.
Proof.
  unfold str_eqb. destruct (list_eq_dec ascii_dec a b); split; congruence.
Qed.

Lemma is_nil_true {A} (l : list A) : is_nil l = true <-> l = [].
Proof. destruct l; simpl; split; congruence. Qed.

Lemma is_nil_false {A} (l : list A) : is_nil l = false <-> l <> [].
Proof. destruct l; simpl; split; congruence. Qed.

Lemma is_space_LF : is_space LF = true.
Proof. reflexivity. Qed.

Lemma is_space_CR : is_space CR = true.
Proof. reflexivity. Qed.

Lemma is_space_SP : is_space SP = true.
Proof. reflexivity. Qed.

Lemma not_space_not_LF c : is_space c = false -> Ascii.eqb c LF = false.
Proof.
  intros H. destruct (Ascii.eqb_spec c LF); [subst; discriminate | reflexivity].
Qed.

Lemma not_space_not_CR c : is_space c = false -> Ascii.eqb c CR = false.
Proof.
  intros H. destruct (Ascii.eqb_spec c CR); [subst; discriminate | reflexivity].
Qed.

(** *** [strip_trailing] *)

Lemma strip_trailing_cons {A} (p : A -> bool) (c : A) (t : list A) :
  strip_trailing p (c :: t)
  = if p c && is_nil (strip_trailing p t) then [] else c :: strip_trailing p t.
Proof. reflexivity. Qed.

Lemma strip_trailing_all {A} (p : A -> bool) (s : list A) :
  forallb p s = true -> strip_trailing p s = [].
Proof.
  induction s as [|c t IH]; simpl; [reflexivity|].
  intros H. apply andb_prop in H. destruct H as [Hc Ht].
  rewrite (IH Ht), Hc. reflexivity.
Qed.

Lemma strip_trailing_nil_all {A} (p : A -> bool) (s : list A) :
  strip_trailing p s = [] -> forallb p s = true.
Proof.
  induction s as [|c t IH]; simpl; [reflexivity|].
  destruct (p c); simpl.
  - destruct (strip_trailing p t); simpl; [auto | discriminate].
  - discriminate.
Qed.

Lemma strip_trailing_app_all {A} (p : A -> bool) (s w : list A) :
  forallb p w = true -> strip_trailing p (s ++ w) = strip_trailing p s.
Proof.
  intros Hw. induction s as [|c t IH]; simpl.
  - apply strip_trailing_all; assumption.
  - rewrite IH. reflexivity.
Qed.

Lemma strip_trailing_app_keep {A} (p : A -> bool) (s x : list A) :
  strip_trailing p x <> [] ->
  strip_trailing p (s ++ x) = s ++ strip_trailing p x.
Proof.
  intros Hx. induction s as [|c t IH]; simpl; [reflexivity|].
  rewrite IH. destruct (t ++ strip_trailing p x) eqn:E.
  - apply app_eq_nil in E. tauto.
  - simpl. rewrite andb_false_r. reflexivity.
Qed.

Lemma strip_trailing_idem {A} (p : A -> bool) (s : list A) :
  strip_trailing p (strip_trailing p s) = strip_trailing p s.
Proof.
  induction s as [|c t IH]; simpl; [reflexivity|].
  destruct (p c && is_nil (strip_trailing p t)) eqn:E; simpl; [reflexivity|].
  rewrite IH, E. reflexivity.
Qed.

Lemma strip_trailing_last {A} (p : A -> bool) (s : list A) (c : A) :
  p c = false -> strip_trailing p (s ++ [c]) = s ++ [c].
Proof.
  intros Hc. replace (s ++ [c]) with (s ++ strip_trailing p [c]) at 2
    by (simpl; rewrite Hc; reflexivity).
  apply strip_trailing_app_keep. simpl. rewrite Hc. discriminate.
Qed.

Lemma strip_trailing_fixed {A} (p : A -> bool) (s : list A) :
  strip_trailing p s = s <-> (s = [] \/ exists t c, s = t ++ [c] /\ p c = false).
Proof.
  split.
  - intros H. destruct s as [|a s]; [left; reflexivity|right].
    destruct (exists_last (l := a :: s)) as [t [c E]]; [discriminate|].
    exists t, c. split; [assumption|].
    destruct (p c) eqn:Hc; [|reflexivity].
    rewrite E in H. rewrite strip_trailing_app_all in H by (simpl; rewrite Hc; reflexivity).
    assert (L : List.length (strip_trailing p t) <= List.length t).
    { clear. induction t as [|x t IH]; simpl; [lia|].
      destruct (p x && is_nil (strip_trailing p t)); simpl; lia. }
    rewrite H in L. rewrite length_app in L. simpl in L. lia.
  - intros [-> | [t [c [-> Hc]]]]; [reflexivity|].
    apply strip_trailing_last; assumption.
Qed.

End StringFacts.

(** *** Induction two characters at a time, as the newline scanners recurse *)

Lemma list_ind2 {A} (P : list A -> Prop) :
  P [] -> (forall c, P [c]) ->
  (forall c d t, P t -> P (d :: t) -> P (c :: d :: t)) ->
  forall l, P l.
Proof.
  intros H0 H1 H2 l.
  assert (H : P l /\ forall c, P (c :: l)).
  { induction l as [|d t [IHa IHb]]; split; auto. }
  tauto.
Qed.

(** *** [split_on] and [join] *)

Section SplitJoin.

Lemma split_on_not_nil sep s : split_on sep s <> [].
Proof.
  destruct s as [|c t]; simpl; [discriminate|].
  destruct (Ascii.eqb c sep); [discriminate|].
  destruct (split_on sep t); discriminate.
Qed.

Lemma cons_head_app c (l r : list str) :
  l <> [] -> cons_head c (l ++ r) = cons_head c l ++ r.
Proof. destruct l; simpl; intros H; [congruence | reflexivity]. Qed.

Lemma split_on_app sep x y :
  split_on sep (x ++ sep :: y) = split_on sep x ++ split_on sep y.
Proof.
  induction x as [|c t IH]; simpl.
  - rewrite Ascii.eqb_refl. reflexivity.
  - destruct (Ascii.eqb c sep); rewrite IH; [reflexivity|].
    apply cons_head_app, split_on_not_nil.
Qed.

Lemma split_on_free sep x :
  forallb (fun c => negb (Ascii.eqb c sep)) x = true -> split_on sep x = [x].
Proof.
  induction x as [|c t IH]; simpl; [reflexivity|].
  intros H. apply andb_prop in H. destruct H as [Hc Ht].
  apply negb_true_iff in Hc. rewrite Hc, (IH Ht). reflexivity.
Qed.

Lemma split_on_pieces_free sep s :
  Forall (fun x => forallb (fun c => negb (Ascii.eqb c sep)) x = true)
    (split_on sep s).
Proof.
  induction s as [|c t IH]; simpl.
  - repeat constructor.
  - destruct (Ascii.eqb c sep) eqn:E.
    + constructor; [reflexivity | assumption].
    + destruct (split_on sep t) as [|x r]; simpl.
      * repeat constructor. simpl. rewrite E. reflexivity.
      * inversion IH; subst. constructor; [|assumption].
        simpl. rewrite E. assumption.
Qed.

Lemma join_cons sep x (r : list str) :
  r <> [] -> join sep (x :: r) = x ++ sep ++ join sep r.
Proof. destruct r; simpl; intros H; [congruence | reflexivity]. Qed.

Lemma split_on_join sep (ls : list str) :
  ls <> [] ->
  Forall (fun x => forallb (fun c => negb (Ascii.eqb c sep)) x = true) ls ->
  split_on sep (join [sep] ls) = ls.
Proof.
  induction ls as [|x r IH]; [congruence|].
  intros _ H. inversion H as [|? ? Hx Hr]; subst.
  destruct r as [|y r'].
  - simpl. apply split_on_free; assumption.
  - rewrite join_cons by discriminate.
    change ([sep] ++ join [sep] (y :: r')) with (sep :: join [sep] (y :: r')).
    rewrite split_on_app, (split_on_free _ _ Hx), IH by (discriminate || assumption).
    reflexivity.
Qed.

Lemma join_split_on sep s : join [sep] (split_on sep s) = s.
Proof.
  induction s as [|c t IH]; simpl; [reflexivity|].
  destruct (Ascii.eqb_spec c sep) as [->|N].
  - destruct (split_on sep t) eqn:E; [destruct (split_on_not_nil _ _ E)|].
    simpl in *. rewrite IH. reflexivity.
  - destruct (split_on sep t) as [|x r] eqn:E; [destruct (split_on_not_nil _ _ E)|].
    simpl. destruct r; simpl in *; rewrite <- IH; reflexivity.
Qed.

Lemma join_app sep (a b : list str) :
  a <> [] -> b <> [] -> join sep (a ++ b) = join sep a ++ sep ++ join sep b.
Proof.
  intros Ha Hb. induction a as [|x r IH]; [congruence|].
  destruct r as [|y r'].
  - simpl app. rewrite join_cons by assumption. reflexivity.
  - change ((x :: y :: r') ++ b) with (x :: ((y :: r') ++ b)).
    rewrite join_cons by discriminate. rewrite IH by discriminate.
    rewrite (join_cons sep x (y :: r')) by discriminate.
    rewrite <- !app_assoc. reflexivity.
Qed.

Lemma join_all_nil sep (ls : list str) :
  forallb is_nil ls = true ->
  join [sep] ls = repeat sep (pred (List.length ls)).
Proof.
  induction ls as [|x r IH]; simpl; [reflexivity|].
  intros H. apply andb_prop in H. destruct H as [Hx Hr].
  apply is_nil_true in Hx. subst x.
  destruct r as [|y r']; [reflexivity|].
  rewrite (IH Hr). reflexivity.
Qed.

Lemma all_sep_lines_nil sep (ls : list str) :
  Forall (fun x => forallb (fun c => negb (Ascii.eqb c sep)) x = true) ls ->
  forallb (Ascii.eqb sep) (join [sep] ls) = true ->
  forallb is_nil ls = true.
Proof.
  induction ls as [|x r IH]; [reflexivity|].
  intros H J. inversion H as [|? ? Hx Hr]; subst.
  assert (X : forall t, forallb (Ascii.eqb sep) (x ++ t) = true -> x = []).
  { intros t Ht. destruct x as [|c x']; [reflexivity|]. simpl in *.
    apply andb_prop in Hx. apply andb_prop in Ht.
    destruct Hx as [Hc _]. destruct Ht as [Hc' _].
    rewrite Ascii.eqb_sym in Hc'. rewrite Hc' in Hc. discriminate. }
  destruct r as [|y r'].
  - simpl in J. rewrite (X [] ) by (rewrite app_nil_r; assumption). reflexivity.
  - rewrite join_cons in J by discriminate.
    pose proof (X _ J) as ->. simpl in J. apply andb_prop in J.
    simpl. apply IH; tauto.
Qed.

(** Stripping the trailing separators of a joined text strips its trailing
    empty pieces. *)
Lemma strip_trailing_join sep (ls : list str) :
  Forall (fun x => forallb (fun c => negb (Ascii.eqb c sep)) x = true) ls ->
  strip_trailing (Ascii.eqb sep) (join [sep] ls)
  = join [sep] (strip_trailing is_nil ls).
Proof.
  induction ls as [|x r IH]; [reflexivity|].
  intros H. inversion H as [|? ? Hx Hr]; subst.
  assert (Sx : strip_trailing (Ascii.eqb sep) x = x).
  { clear - Hx. induction x as [|c t IHt]; simpl; [reflexivity|].
    simpl in Hx. apply andb_prop in Hx. destruct Hx as [Hc Ht].
    rewrite (IHt Ht). rewrite Ascii.eqb_sym. apply negb_true_iff in Hc.
    rewrite Hc. reflexivity. }
  destruct r as [|y r'].
  - simpl. rewrite Sx. destruct x; reflexivity.
  - rewrite join_cons by discriminate.
    rewrite (strip_trailing_cons is_nil x (y :: r')).
    specialize (IH Hr).
    destruct (forallb is_nil (y :: r')) eqn:E.
    + rewrite (strip_trailing_all _ _ E).
      rewrite strip_trailing_app_all, Sx.
      * destruct x; reflexivity.
      * rewrite (join_all_nil _ _ E). simpl.
        rewrite Ascii.eqb_refl. simpl.
        clear. induction (List.length r'); simpl; [reflexivity|].
        rewrite Ascii.eqb_refl. assumption.
    + assert (T : strip_trailing is_nil (y :: r') <> []).
      { intros C. apply strip_trailing_nil_all in C. congruence. }
      assert (J : strip_trailing (Ascii.eqb sep) (join [sep] (y :: r')) <> []).
      { intros C. apply strip_trailing_nil_all in C.
        apply all_sep_lines_nil in C; [congruence | assumption]. }
      replace (is_nil (strip_trailing is_nil (y :: r'))) with false
        by (symmetry; apply is_nil_false; assumption).
      rewrite andb_false_r.
      rewrite (join_cons [sep] x (strip_trailing is_nil (y :: r'))) by assumption.
      rewrite <- IH.
      change ([sep] ++ join [sep] (y :: r')) with (sep :: join [sep] (y :: r')).
      assert (K : strip_trailing (Ascii.eqb sep) (sep :: join [sep] (y :: r'))
                  = sep :: strip_trailing (Ascii.eqb sep) (join [sep] (y :: r'))).
      { rewrite strip_trailing_cons.
        destruct (strip_trailing (Ascii.eqb sep) (join [sep] (y :: r')));
          [congruence|].
        simpl. rewrite andb_false_r. reflexivity. }
      rewrite strip_trailing_app_keep; rewrite K; [reflexivity | discriminate].
Qed.

End SplitJoin.

(** ** The relaxed body *)

Section BodyFacts.

Import Text DKIMCanonicalizer.

Lemma relaxedBody_unfold body :
  relaxedBody body
  = LF_to_CRLF
      (strip_trailing (Ascii.eqb LF)
         (join [LF] (map canon_line (split_on LF (replace_newlines body))))
       ++ [LF]).
Proof. reflexivity. Qed.

(** *** Collapsing white space *)

Lemma collapse_from_chars f s :
  Forall (fun c => c = SP \/ is_space c = false) (collapse_from f s).
Proof.
  revert f. induction s as [|c t IH]; intros f; simpl; [constructor|].
  destruct (is_space c) eqn:E.
  - destruct f; [apply IH|]. constructor; [left; reflexivity | apply IH].
  - constructor; [right; assumption | apply IH].
Qed.

Lemma collapse_from_idem f s :
  collapse_from f (collapse_from f s) = collapse_from f s.
Proof.
  revert f. induction s as [|c t IH]; intros f; simpl; [reflexivity|].
  destruct (is_space c) eqn:E.
  - destruct f; [apply IH|]. simpl. rewrite IH. reflexivity.
  - simpl. rewrite E, IH. reflexivity.
Qed.

Lemma collapse_from_snoc f s c :
  is_space c = false -> collapse_from f (s ++ [c]) = collapse_from f s ++ [c].
Proof.
  intros Hc. revert f. induction s as [|d t IH]; intros f; simpl.
  - rewrite Hc. reflexivity.
  - destruct (is_space d); [destruct f|]; rewrite IH; reflexivity.
Qed.

Lemma rtrim_shape s :
  rtrim s = [] \/ exists t c, rtrim s = t ++ [c] /\ is_space c = false.
Proof.
  apply (proj1 (strip_trailing_fixed is_space (rtrim s))).
  apply strip_trailing_idem.
Qed.

Lemma rtrim_canon_line l : rtrim (canon_line l) = canon_line l.
Proof.
  unfold canon_line, collapse_ws.
  destruct (rtrim_shape l) as [-> | [t [c [-> Hc]]]]; [reflexivity|].
  rewrite collapse_from_snoc by assumption.
  apply strip_trailing_last; assumption.
Qed.

Lemma canon_line_idem l : canon_line (canon_line l) = canon_line l.
Proof.
  unfold canon_line at 1. rewrite rtrim_canon_line.
  unfold canon_line, collapse_ws. apply collapse_from_idem.
Qed.

Lemma canon_line_is_line l : is_line (canon_line l) = true.
Proof.
  unfold is_line, canon_line, collapse_ws.
  apply forallb_forall. intros c Hc.
  pose proof (collapse_from_chars false (rtrim l)) as F.
  rewrite Forall_forall in F. destruct (F c Hc) as [-> | N]; [reflexivity|].
  unfold newline_char. rewrite (not_space_not_CR _ N), (not_space_not_LF _ N).
  reflexivity.
Qed.

Lemma canon_line_all_space l : forallb is_space l = true -> canon_line l = [].
Proof.
  intros H. unfold canon_line, rtrim. rewrite strip_trailing_all by assumption.
  reflexivity.
Qed.

Lemma is_line_no_LF l :
  is_line l = true -> forallb (fun c => negb (Ascii.eqb c LF)) l = true.
Proof.
  unfold is_line, newline_char. intros H. apply forallb_forall. intros c Hc.
  rewrite forallb_forall in H. specialize (H c Hc).
  rewrite negb_orb in H. apply andb_prop in H. tauto.
Qed.

Lemma is_line_no_CR l :
  is_line l = true -> forallb (fun c => negb (Ascii.eqb c CR)) l = true.
Proof.
  unfold is_line, newline_char. intros H. apply forallb_forall. intros c Hc.
  rewrite forallb_forall in H. specialize (H c Hc).
  rewrite negb_orb in H. apply andb_prop in H. tauto.
Qed.

Lemma canon_lines_no_LF (ls : list str) :
  Forall (fun x => forallb (fun c => negb (Ascii.eqb c LF)) x = true)
    (map canon_line ls).
Proof.
  apply Forall_forall. intros x Hx. apply in_map_iff in Hx.
  destruct Hx as [l [<- _]]. apply is_line_no_LF, canon_line_is_line.
Qed.

Lemma relaxedBody_render body :
  relaxedBody body
  = render (map canon_line (split_on LF (replace_newlines body))).
Proof.
  rewrite relaxedBody_unfold. unfold render.
  rewrite strip_trailing_join by apply canon_lines_no_LF. reflexivity.
Qed.

(** *** Line breaks *)

Lemma replace_newlines_LF_to_CRLF x :
  forallb (fun c => negb (Ascii.eqb c CR)) x = true ->
  replace_newlines (LF_to_CRLF x) = x.
Proof.
  induction x as [|c t IH]; simpl; [reflexivity|].
  intros H. apply andb_prop in H. destruct H as [Hc Ht].
  apply negb_true_iff in Hc.
  destruct (Ascii.eqb_spec c LF) as [->|N]; simpl.
  - rewrite (IH Ht). reflexivity.
  - rewrite Hc, (IH Ht). reflexivity.
Qed.

Lemma replace_newlines_line_app l x :
  forallb (fun c => negb (Ascii.eqb c CR)) l = true ->
  replace_newlines (l ++ x) = l ++ replace_newlines x.
Proof.
  induction l as [|c t IH]; simpl; [reflexivity|].
  intros H. apply andb_prop in H. destruct H as [Hc Ht].
  apply negb_true_iff in Hc. rewrite Hc, (IH Ht). reflexivity.
Qed.

Lemma replace_newlines_newlines t :
  forallb newline_char t = true ->
  exists k, replace_newlines t = repeat LF k.
Proof.
  induction t as [| c | c d t IHt IHd] using list_ind2; intros H.
  - exists 0. reflexivity.
  - simpl in H. rewrite andb_true_r in H. unfold newline_char in H.
    exists 1. simpl. destruct (Ascii.eqb_spec c CR); [reflexivity|].
    simpl in H. apply Ascii.eqb_eq in H. subst. reflexivity.
  - assert (Hd : forallb newline_char (d :: t) = true)
      by (simpl in H; apply andb_prop in H; tauto).
    assert (Ht : forallb newline_char t = true)
      by (simpl in Hd; apply andb_prop in Hd; tauto).
    destruct (IHt Ht) as [k Ek]. destruct (IHd Hd) as [k' Ek'].
    change (replace_newlines (c :: d :: t)) with
      (if Ascii.eqb c CR
       then if Ascii.eqb d LF then LF :: replace_newlines t
            else LF :: replace_newlines (d :: t)
       else c :: replace_newlines (d :: t)).
    destruct (Ascii.eqb_spec c CR).
    + destruct (Ascii.eqb d LF); [exists (S k) | exists (S k')];
        rewrite ?Ek, ?Ek'; reflexivity.
    + exists (S k'). simpl in H. apply andb_prop in H. destruct H as [Hc _].
      unfold newline_char in Hc. apply orb_prop in Hc.
      destruct Hc as [Hc|Hc]; apply Ascii.eqb_eq in Hc; [congruence|].
      subst. rewrite Ek'. reflexivity.
Qed.

(** Line breaks appended to a text add line feeds, and nothing else, to its
    normal form. *)
Lemma replace_newlines_app_newlines b t :
  forallb newline_char t = true ->
  exists k, replace_newlines (b ++ t) = replace_newlines b ++ repeat LF k.
Proof.
  intros Ht.
  induction b as [| c | c d b IHb IHd] using list_ind2.
  - apply replace_newlines_newlines; assumption.
  - destruct t as [|e t'].
    + exists 0. rewrite !app_nil_r. reflexivity.
    + change (replace_newlines ([c] ++ e :: t')) with
        (if Ascii.eqb c CR
         then if Ascii.eqb e LF then LF :: replace_newlines t'
              else LF :: replace_newlines (e :: t')
         else c :: replace_newlines (e :: t')).
      assert (Ht' : forallb newline_char t' = true)
        by (simpl in Ht; apply andb_prop in Ht; tauto).
      destruct (replace_newlines_newlines _ Ht) as [k Ek].
      destruct (replace_newlines_newlines _ Ht') as [k' Ek'].
      simpl (replace_newlines [c]).
      destruct (Ascii.eqb c CR).
      * destruct (Ascii.eqb e LF); [exists k' | exists k];
          rewrite ?Ek, ?Ek'; reflexivity.
      * exists k. rewrite Ek. reflexivity.
  - destruct IHb as [k Ek]. destruct IHd as [k' Ek'].
    change (replace_newlines ((c :: d :: b) ++ t)) with
      (if Ascii.eqb c CR
       then if Ascii.eqb d LF then LF :: replace_newlines (b ++ t)
            else LF :: replace_newlines ((d :: b) ++ t)
       else c :: replace_newlines ((d :: b) ++ t)).
    change (replace_newlines (c :: d :: b)) with
      (if Ascii.eqb c CR
       then if Ascii.eqb d LF then LF :: replace_newlines b
            else LF :: replace_newlines (d :: b)
       else c :: replace_newlines (d :: b)).
    destruct (Ascii.eqb c CR).
    + destruct (Ascii.eqb d LF); [exists k | exists k'];
        rewrite ?Ek, ?Ek'; reflexivity.
    + exists k'. rewrite Ek'. reflexivity.
Qed.

Lemma split_on_seps sep k : split_on sep (repeat sep k) = repeat [] (S k).
Proof.
  induction k as [|k IH]; simpl; [reflexivity|].
  rewrite Ascii.eqb_refl, IH. reflexivity.
Qed.

Lemma split_on_app_seps sep x k :
  split_on sep (x ++ repeat sep k) = split_on sep x ++ repeat [] k.
Proof.
  destruct k as [|k].
  - simpl. rewrite !app_nil_r. reflexivity.
  - simpl repeat. rewrite split_on_app, split_on_seps. reflexivity.
Qed.

Lemma render_app_nils (ls : list str) k :
  render (ls ++ repeat [] k) = render ls.
Proof.
  unfold render. rewrite strip_trailing_app_all; [reflexivity|].
  induction k; simpl; auto.
Qed.

(** The normal form of a text written line by line. *)
Lemma replace_newlines_compose ls last :
  Forall (fun le => is_line (fst le) = true) ls -> is_line last = true ->
  unambiguous ls = true ->
  replace_newlines (compose ls last) = join [LF] (map fst ls ++ [last]).
Proof.
  intros Hls Hlast. induction ls as [|[l e] r IH]; intros U.
  - simpl. rewrite <- (app_nil_r last) at 1.
    rewrite replace_newlines_line_app by (apply is_line_no_CR; assumption).
    simpl. apply app_nil_r.
  - inversion Hls as [|? ? Hl Hr]; subst. simpl in Hl.
    simpl in U. apply andb_prop in U. destruct U as [U1 U2].
    specialize (IH Hr U2).
    change (map fst ((l, e) :: r) ++ [last]) with (l :: (map fst r ++ [last])).
    rewrite join_cons by (destruct (map fst r); discriminate).
    simpl compose.
    rewrite replace_newlines_line_app by (apply is_line_no_CR; assumption).
    f_equal. rewrite <- IH.
    destruct e; simpl.
    + (* a lone CR *)
      destruct (compose r last) as [|d rest] eqn:E; [reflexivity|].
      destruct (Ascii.eqb_spec d LF) as [->|N]; [|reflexivity].
      exfalso. destruct r as [|[l2 e2] r'].
      * simpl in E. subst last. discriminate.
      * inversion Hr as [|? ? Hl2 _]; subst. simpl in Hl2.
        destruct l2 as [|c2 l2'].
        -- destruct e2; simpl in E; try discriminate.
        -- simpl in E. injection E as -> _. discriminate.
    + reflexivity.
    + reflexivity.
Qed.

(** *** White-space-only bodies *)

Lemma replace_newlines_all_space s :
  forallb is_space s = true -> forallb is_space (replace_newlines s) = true.
Proof.
  induction s as [| c | c d t IHt IHd] using list_ind2; intros H.
  - reflexivity.
  - simpl. destruct (Ascii.eqb c CR); simpl; [reflexivity | assumption].
  - assert (Hd : forallb is_space (d :: t) = true)
      by (simpl in H; apply andb_prop in H; tauto).
    assert (Ht : forallb is_space t = true)
      by (simpl in Hd; apply andb_prop in Hd; tauto).
    assert (Hc : is_space c = true)
      by (simpl in H; apply andb_prop in H; tauto).
    change (replace_newlines (c :: d :: t)) with
      (if Ascii.eqb c CR
       then if Ascii.eqb d LF then LF :: replace_newlines t
            else LF :: replace_newlines (d :: t)
       else c :: replace_newlines (d :: t)).
    destruct (Ascii.eqb c CR); [destruct (Ascii.eqb d LF)|];
      cbn [forallb]; rewrite ?IHt, ?IHd, ?Hc by assumption; reflexivity.
Qed.

Lemma split_on_pieces_all (p : ascii -> bool) sep s :
  forallb p s = true -> Forall (fun x => forallb p x = true) (split_on sep s).
Proof.
  induction s as [|c t IH]; simpl; intros H.
  - repeat constructor.
  - apply andb_prop in H. destruct H as [Hc Ht]. specialize (IH Ht).
    destruct (Ascii.eqb c sep).
    + constructor; [reflexivity | assumption].
    + destruct (split_on sep t) as [|x r]; simpl.
      * repeat constructor. simpl. rewrite Hc. reflexivity.
      * inversion IH; subst. constructor; [|assumption].
        simpl. rewrite Hc. assumption.
Qed.

Lemma render_all_nil (ls : list str) :
  forallb is_nil ls = true -> render ls = CRLF.
Proof.
  intros H. unfold render. rewrite strip_trailing_all by assumption.
  reflexivity.
Qed.

Lemma relaxedBody_all_space body :
  forallb is_space body = true -> relaxedBody body = CRLF.
Proof.
  intros H. rewrite relaxedBody_render. apply render_all_nil.
  apply forallb_forall. intros x Hx. apply in_map_iff in Hx.
  destruct Hx as [l [<- Hl]].
  pose proof (split_on_pieces_all is_space LF _
                (replace_newlines_all_space _ H)) as F.
  rewrite Forall_forall in F. rewrite (canon_line_all_space _ (F l Hl)).
  reflexivity.
Qed.

(** *** Idempotence *)

Lemma strip_trailing_prefix {A} (p : A -> bool) (l : list A) :
  exists r, l = strip_trailing p l ++ r.
Proof.
  induction l as [|c t [r IH]]; simpl.
  - exists []. reflexivity.
  - destruct (p c && is_nil (strip_trailing p t)).
    + exists (c :: t). reflexivity.
    + exists r. simpl. congruence.
Qed.

Lemma Forall_strip_trailing {A} (P : A -> Prop) (p : A -> bool) (l : list A) :
  Forall P l -> Forall P (strip_trailing p l).
Proof.
  intros H. destruct (strip_trailing_prefix p l) as [r E].
  rewrite E in H. apply Forall_app in H. tauto.
Qed.

Lemma join_no_CR (ls : list str) :
  Forall (fun x => forallb (fun c => negb (Ascii.eqb c CR)) x = true) ls ->
  forallb (fun c => negb (Ascii.eqb c CR)) (join [LF] ls) = true.
Proof.
  induction ls as [|x r IH]; intros H; [reflexivity|].
  inversion H as [|? ? Hx Hr]; subst.
  destruct r as [|y r']; [assumption|].
  rewrite join_cons by discriminate.
  rewrite !forallb_app. rewrite Hx, (IH Hr). reflexivity.
Qed.

Lemma relaxedBody_idempotent b : relaxedBody (relaxedBody b) = relaxedBody b.
Proof.
  rewrite (relaxedBody_render b) at 1.
  set (ls := map canon_line (split_on LF (replace_newlines b))).
  assert (Hcanon : Forall (fun x => canon_line x = x) (strip_trailing is_nil ls)).
  { apply Forall_strip_trailing. apply Forall_forall. intros x Hx.
    apply in_map_iff in Hx. destruct Hx as [l [<- _]]. apply canon_line_idem. }
  assert (Hline : Forall (fun x => is_line x = true) (strip_trailing is_nil ls)).
  { apply Forall_strip_trailing. apply Forall_forall. intros x Hx.
    apply in_map_iff in Hx. destruct Hx as [l [<- _]].
    apply canon_line_is_line. }
  rewrite (relaxedBody_render b). fold ls.
  set (T := strip_trailing is_nil ls) in *.
  rewrite relaxedBody_render. unfold render at 2. fold T.
  rewrite replace_newlines_LF_to_CRLF.
  2:{ rewrite forallb_app. rewrite join_no_CR; [reflexivity|].
      eapply Forall_impl; [|exact Hline]. intros; apply is_line_no_CR; assumption. }
  rewrite split_on_app. simpl (split_on LF []).
  rewrite map_app. simpl (map canon_line [[]]).
  change [canon_line []] with (repeat (@nil ascii) 1).
  rewrite render_app_nils.
  destruct T as [|x r] eqn:ET; unfold T in ET.
  - unfold render. rewrite ET. reflexivity.
  - rewrite split_on_join.
    + replace (map canon_line (x :: r)) with (x :: r).
      * unfold render. rewrite <- ET.
        rewrite !strip_trailing_idem. reflexivity.
      * symmetry. clear - Hcanon. induction Hcanon; simpl; congruence.
    + discriminate.
    + eapply Forall_impl; [|exact Hline]. intros; apply is_line_no_LF; assumption.
Qed.

(** *** Trailing line breaks *)

Lemma relaxedBody_app_newlines b t :
  forallb newline_char t = true -> relaxedBody (b ++ t) = relaxedBody b.
Proof.
  intros H. rewrite !relaxedBody_render.
  destruct (replace_newlines_app_newlines b t H) as [k ->].
  rewrite split_on_app_seps, map_app.
  assert (N : map canon_line (repeat [] k) = repeat [] k).
  { clear. induction k as [|k IH]; [reflexivity|].
    change (canon_line [] :: map canon_line (repeat [] k) = [] :: repeat [] k).
    rewrite IH. reflexivity. }
  rewrite N. apply render_app_nils.
Qed.

(** *** The choice of line endings *)

Lemma relaxedBody_compose ls last :
  Forall (fun le => is_line (fst le) = true) ls -> is_line last = true ->
  unambiguous ls = true ->
  relaxedBody (compose ls last)
  = render (map canon_line (map fst ls ++ [last])).
Proof.
  intros Hls Hlast U. rewrite relaxedBody_render.
  rewrite replace_newlines_compose by assumption.
  rewrite split_on_join; [reflexivity | destruct (map fst ls); discriminate |].
  apply Forall_app. split.
  - apply Forall_forall. intros x Hx. apply in_map_iff in Hx.
    destruct Hx as [[l e] [<- Hin]]. rewrite Forall_forall in Hls.
    apply is_line_no_LF. apply (Hls _ Hin).
  - repeat constructor. apply is_line_no_LF; assumption.
Qed.

Lemma map_fst_combine {A B} (l : list A) (r : list B) :
  List.length r = List.length l -> map fst (combine l r) = l.
Proof.
  revert r. induction l as [|x l IH]; intros [|y r] H; simpl in *;
    try discriminate; [reflexivity|].
  rewrite IH by lia. reflexivity.
Qed.

Lemma relaxedBody_line_endings (ls : list str) last (e1 e2 : list eol) :
  Forall (fun l => is_line l = true) ls -> is_line last = true ->
  List.length e1 = List.length ls -> List.length e2 = List.length ls ->
  unambiguous (combine ls e1) = true -> unambiguous (combine ls e2) = true ->
  relaxedBody (compose (combine ls e1) last)
  = relaxedBody (compose (combine ls e2) last).
Proof.
  intros Hls Hlast L1 L2 U1 U2.
  assert (F : forall e : list eol, List.length e = List.length ls ->
                Forall (fun le : str * eol => is_line (fst le) = true)
                  (combine ls e)).
  { intros e Le. apply Forall_forall. intros [l x] Hin.
    apply in_combine_l in Hin. rewrite Forall_forall in Hls. apply Hls, Hin. }
  rewrite !relaxedBody_compose by auto.
  rewrite !map_fst_combine by assumption. reflexivity.
Qed.

(** *** White space inside lines *)

Lemma blank_is_space w : forallb blank w = true -> forallb is_space w = true.
Proof.
  intros H. apply forallb_forall. intros c Hc.
  rewrite forallb_forall in H. specialize (H c Hc).
  unfold blank in H. apply andb_prop in H. tauto.
Qed.

Lemma blank_is_line w : forallb blank w = true -> is_line w = true.
Proof.
  intros H. apply forallb_forall. intros c Hc.
  rewrite forallb_forall in H. specialize (H c Hc).
  unfold blank in H. apply andb_prop in H. tauto.
Qed.

Lemma same_words_lines s t :
  same_words s t -> is_line s = true /\ is_line t = true.
Proof.
  induction 1 as [w1 w2 H1 H2 | c s t Hc _ [IH1 IH2]
                 | w1 w2 s t _ _ H1 H2 _ [IH1 IH2]].
  - split; apply blank_is_line; assumption.
  - assert (N : negb (newline_char c) = true).
    { unfold newline_char.
      rewrite (not_space_not_CR _ Hc), (not_space_not_LF _ Hc). reflexivity. }
    unfold is_line in *. simpl. rewrite IH1, IH2, N. auto.
  - apply blank_is_line in H1, H2.
    unfold is_line in *. rewrite !forallb_app.
    rewrite H1, H2, IH1, IH2. auto.
Qed.

Lemma rtrim_spaces_app w s :
  forallb is_space w = true ->
  rtrim (w ++ s) = if is_nil (rtrim s) then [] else w ++ rtrim s.
Proof.
  intros Hw. unfold rtrim. destruct (strip_trailing is_space s) eqn:E.
  - simpl. apply strip_trailing_all. rewrite forallb_app, Hw.
    apply strip_trailing_nil_all. assumption.
  - simpl. rewrite <- E. apply strip_trailing_app_keep. congruence.
Qed.

Lemma collapse_from_true_spaces w x :
  forallb is_space w = true ->
  collapse_from true (w ++ x) = collapse_from true x.
Proof.
  induction w as [|c t IH]; simpl; [reflexivity|].
  intros H. apply andb_prop in H. destruct H as [Hc Ht].
  rewrite Hc. auto.
Qed.

Lemma collapse_from_run f w x :
  w <> [] -> forallb is_space w = true ->
  collapse_from f (w ++ x)
  = (if f then [] else [SP]) ++ collapse_from true x.
Proof.
  intros N H. destruct w as [|c t]; [congruence|].
  simpl in H. apply andb_prop in H. destruct H as [Hc Ht].
  simpl. rewrite Hc. destruct f; simpl;
    rewrite collapse_from_true_spaces by assumption; reflexivity.
Qed.

Lemma same_words_collapse s t :
  same_words s t ->
  (rtrim s = [] <-> rtrim t = [])
  /\ forall f, collapse_from f (rtrim s) = collapse_from f (rtrim t).
Proof.
  induction 1 as [w1 w2 H1 H2 | c s t Hc _ [IHn IHc]
                 | w1 w2 s t N1 N2 H1 H2 _ [IHn IHc]].
  - unfold rtrim.
    rewrite !strip_trailing_all by (apply blank_is_space; assumption).
    split; [tauto | reflexivity].
  - unfold rtrim in *. rewrite !strip_trailing_cons, Hc. simpl.
    split; [split; discriminate|]. intros f. rewrite Hc, IHc. reflexivity.
  - rewrite !rtrim_spaces_app by (apply blank_is_space; assumption).
    destruct (rtrim s) eqn:Es.
    + rewrite (proj1 IHn eq_refl). simpl. split; [tauto | reflexivity].
    + destruct (rtrim t) eqn:Et.
      * assert (C : a :: l = []) by (apply IHn; reflexivity). discriminate.
      * simpl is_nil. cbv iota. split.
        -- split; intros C; apply app_eq_nil in C; tauto.
        -- intros f.
           rewrite !collapse_from_run by
             (assumption || apply blank_is_space; assumption).
           rewrite IHc. reflexivity.
Qed.

Lemma same_words_canon s t : same_words s t -> canon_line s = canon_line t.
Proof.
  intros H. unfold canon_line, collapse_ws.
  apply (proj2 (same_words_collapse s t H)).
Qed.

Lemma unambiguous_uniform e (ls : list str) :
  unambiguous (map (fun l => (l, e)) ls) = true.
Proof.
  induction ls as [|x r IH]; [reflexivity|].
  simpl. rewrite IH. destruct e; [|reflexivity|reflexivity].
  destruct r as [|y r']; [reflexivity|]. simpl. destruct y; reflexivity.
Qed.

Lemma join_uniform e (ls : list str) last :
  join (eol_str e) (ls ++ [last]) = compose (map (fun l => (l, e)) ls) last.
Proof.
  induction ls as [|x r IH]; [reflexivity|].
  change ((x :: r) ++ [last]) with (x :: (r ++ [last])).
  rewrite join_cons by (destruct r; discriminate).
  simpl. rewrite IH. reflexivity.
Qed.

Lemma relaxedBody_join e (ls : list str) :
  ls <> [] -> Forall (fun l => is_line l = true) ls ->
  relaxedBody (join (eol_str e) ls) = render (map canon_line ls).
Proof.
  intros N H. destruct (exists_last N) as [init [last ->]].
  apply Forall_app in H. destruct H as [Hi Hl]. inversion Hl; subst.
  rewrite join_uniform, relaxedBody_compose.
  - rewrite map_map. simpl. rewrite map_id. reflexivity.
  - apply Forall_forall. intros [l x] Hin. apply in_map_iff in Hin.
    destruct Hin as [l' [E Hin]]. inversion E; subst.
    rewrite Forall_forall in Hi. simpl. auto.
  - assumption.
  - apply unambiguous_uniform.
Qed.

Lemma relaxedBody_same_words e (ls1 ls2 : list str) :
  Forall2 same_words ls1 ls2 ->
  relaxedBody (join (eol_str e) ls1) = relaxedBody (join (eol_str e) ls2).
Proof.
  intros H. destruct ls1 as [|x r].
  - inversion H; subst. reflexivity.
  - destruct ls2 as [|y r2]; [inversion H|].
    rewrite !relaxedBody_join.
    + f_equal. clear -H. induction H; simpl; [reflexivity|].
      rewrite (same_words_canon _ _ H), IHForall2. reflexivity.
    + discriminate.
    + clear -H. induction H; constructor; auto.
      apply (proj2 (same_words_lines _ _ H)).
    + discriminate.
    + clear -H. induction H; constructor; auto.
      apply (proj1 (same_words_lines _ _ H)).
Qed.

End BodyFacts.

(** ** The relaxed headers *)

Section HeaderFacts.

Import DKIMCanonicalizer HeaderText.

(** *** The first loop *)

Lemma nth_middle' {A} (pre : list A) x post d :
  nth (List.length pre) (pre ++ x :: post) d = x.
Proof. induction pre; simpl; auto. Qed.

Lemma remove_at_middle {A} (pre : list A) x post :
  remove_at (List.length pre) (pre ++ x :: post) = pre ++ post.
Proof. induction pre; simpl; congruence. Qed.

Lemma update_at_middle {A} (pre : list A) x v post :
  update_at (List.length pre) v (pre ++ x :: post) = pre ++ v :: post.
Proof. induction pre; simpl; congruence. Qed.

Lemma join_step_scan inc pre x finished F :
  for_down (S (List.length pre)) (join_step inc) (pre ++ x :: finished, F)
  = scan inc (rev pre) x finished F.
Proof.
  revert x finished F.
  induction pre as [|y pre' IH] using rev_ind; intros x finished F.
  - simpl. fold (name_of x) (value_of x).
    unfold record_line.
    destruct (includes inc (name_of x) && negb (has_property F (name_of x)));
      reflexivity.
  - rewrite rev_app_distr.
    change (rev [y] ++ rev pre') with (y :: rev pre').
    cbn [scan]. cbn [for_down].
    assert (L : List.length (pre' ++ [y]) = S (List.length pre'))
      by (rewrite length_app; simpl; lia).
    unfold join_step at 2.
    rewrite nth_middle'. rewrite L. cbn [Nat.eqb negb andb].
    destruct (starts_with_space x) eqn:E.
    + replace (S (List.length pre') - 1) with (List.length pre') by lia.
      rewrite <- app_assoc. simpl app.
      rewrite nth_middle', update_at_middle.
      replace (pre' ++ (y ++ x) :: x :: finished)
        with ((pre' ++ [y ++ x]) ++ x :: finished)
        by (rewrite <- app_assoc; reflexivity).
      replace (S (List.length pre')) with (List.length (pre' ++ [y ++ x]))
        by (rewrite length_app; simpl; lia).
      rewrite remove_at_middle. rewrite <- app_assoc. simpl app.
      rewrite length_app. simpl List.length.
      replace (List.length pre' + 1) with (S (List.length pre')) by lia.
      apply IH.
    + fold (name_of x) (value_of x).
      rewrite <- app_assoc. simpl app.
      rewrite <- IH. unfold record_line.
      destruct (includes inc (name_of x) && negb (has_property F (name_of x)));
        reflexivity.
Qed.

Lemma unfold_from_finished rp x finished :
  unfold_from rp x finished = unfold_from rp x [] ++ finished.
Proof.
  revert x finished. induction rp as [|y rp IH]; intros x finished; simpl.
  - reflexivity.
  - destruct (starts_with_space x); [apply IH|].
    rewrite (IH y (x :: finished)), (IH y [x]).
    rewrite <- app_assoc. reflexivity.
Qed.

Lemma scan_lines inc rp x finished F :
  fst (scan inc rp x finished F) = unfold_from rp x finished.
Proof.
  revert x finished F. induction rp as [|y rp IH]; intros; simpl.
  - reflexivity.
  - destruct (starts_with_space x); apply IH.
Qed.

Lemma scan_fields inc rp x finished F :
  snd (scan inc rp x finished F)
  = fold_right (fun l G => record_line inc G l) F (unfold_from rp x []).
Proof.
  revert x finished F. induction rp as [|y rp IH]; intros; simpl.
  - reflexivity.
  - destruct (starts_with_space x); [apply IH|].
    rewrite IH. rewrite (unfold_from_finished rp y [x]).
    rewrite fold_right_app. reflexivity.
Qed.

Lemma split_newlines_not_nil s : split_newlines s <> [].
Proof.
  destruct s as [|c t]; simpl; [discriminate|].
  destruct (Ascii.eqb c CR).
  - destruct t as [|d t']; [discriminate|].
    destruct (Ascii.eqb d LF); discriminate.
  - destruct (Ascii.eqb c LF); [discriminate|].
    destruct (split_newlines t); discriminate.
Qed.

Lemma join_lines_scan inc headers :
  exists init last,
    split_newlines headers = init ++ [last]
    /\ join_lines inc headers = scan inc (rev init) last [] [].
Proof.
  destruct (exists_last (split_newlines_not_nil headers)) as [init [last E]].
  exists init, last. split; [assumption|].
  unfold join_lines. rewrite E. rewrite length_app. simpl List.length.
  replace (List.length init + 1) with (S (List.length init)) by lia.
  apply join_step_scan.
Qed.

(** The unfolded lines do not depend on the requested names. *)
Lemma join_lines_unfolded inc headers :
  fst (join_lines inc headers) = unfolded headers.
Proof.
  unfold unfolded.
  destruct (join_lines_scan inc headers) as [init [last [E ->]]].
  destruct (join_lines_scan [] headers) as [init' [last' [E' ->]]].
  rewrite E in E'. apply app_inj_tail in E'. destruct E' as [-> ->].
  rewrite !scan_lines. reflexivity.
Qed.

(** The recorded fields are those of a bottom-up pass over the unfolded
    lines. *)
Lemma join_lines_fields inc headers :
  snd (join_lines inc headers)
  = fold_right (fun l G => record_line inc G l) [] (unfolded headers).
Proof.
  rewrite <- (join_lines_unfolded inc).
  destruct (join_lines_scan inc headers) as [init [last [E ->]]].
  rewrite scan_fields, scan_lines. reflexivity.
Qed.

(** *** The recorded fields *)

Lemma includes_In (a : list str) x : includes a x = true <-> In x a.
Proof.
  unfold includes. rewrite existsb_exists. split.
  - intros [y [Hy E]]. apply str_eqb_eq in E. subst. assumption.
  - intros H. exists x. split; [assumption | apply str_eqb_refl].
Qed.

Lemma own_fields inc (lines : list str) k :
  own (fold_right (fun l G => record_line inc G l) [] lines) k
  = if includes inc k && negb (inherited k) then bottom_value k lines
    else None.
Proof.
  induction lines as [|l r IH]; simpl.
  - destruct (includes inc k && negb (inherited k)); reflexivity.
  - set (F := fold_right (fun l G => record_line inc G l) [] r) in *.
    unfold record_line, has_property.
    destruct (str_eqb (name_of l) k) eqn:Ek.
    + apply str_eqb_eq in Ek. subst k.
      destruct (includes inc (name_of l)) eqn:I;
        destruct (inherited (name_of l)) eqn:H; simpl in *;
        try assumption.
      * rewrite IH. simpl. assumption.
      * rewrite IH. destruct (bottom_value (name_of l) r) eqn:B; simpl.
        -- rewrite IH. reflexivity.
        -- unfold set. simpl. rewrite str_eqb_refl. reflexivity.
    + assert (N : str_eqb k (name_of l) = false).
      { apply str_eqb_neq. apply str_eqb_neq in Ek. congruence. }
      destruct (includes inc (name_of l)
                && negb match own F (name_of l) with
                        | Some _ => true
                        | None => inherited (name_of l)
                        end).
      * unfold set. simpl. rewrite N, IH.
        destruct (includes inc k && negb (inherited k)); [|reflexivity].
        destruct (bottom_value k r); reflexivity.
      * rewrite IH.
        destruct (includes inc k && negb (inherited k)); [|reflexivity].
        destruct (bottom_value k r); reflexivity.
Qed.

Lemma lookup_fields inc headers k :
  In k inc -> inherited k = false ->
  lookup (snd (join_lines inc headers)) k
  = match bottom_value k (unfolded headers) with
    | Some v => Own v
    | None => Undefined
    end.
Proof.
  intros Hin Hk. unfold lookup. rewrite join_lines_fields, own_fields.
  rewrite (proj2 (includes_In inc k) Hin), Hk. simpl.
  destruct (bottom_value k (unfolded headers)); reflexivity.
Qed.

(** *** The second loop *)

Lemma select_filter_gen (proto_to_string : str -> str) F
    (pre kept hs : list str) :
  for_down (List.length pre) (select_step proto_to_string F) (pre ++ kept, hs)
  = (filter (fun k => truthy (lookup F k)) pre ++ kept,
     map (fun k => k ++ lit ":" ++ to_string proto_to_string (lookup F k))
       (filter (fun k => truthy (lookup F k)) pre) ++ hs).
Proof.
  revert kept hs. induction pre as [|x pre' IH] using rev_ind; intros.
  - reflexivity.
  - rewrite length_app. simpl List.length.
    replace (List.length pre' + 1) with (S (List.length pre')) by lia.
    cbn [for_down]. unfold select_step at 2.
    rewrite <- app_assoc. simpl app. rewrite nth_middle'.
    rewrite filter_app. simpl filter.
    destruct (truthy (lookup F x)); simpl negb; cbv iota.
    + rewrite IH. rewrite map_app, <- !app_assoc. reflexivity.
    + rewrite remove_at_middle, IH, app_nil_r. reflexivity.
Qed.

Lemma select_filter (proto_to_string : str -> str) inc F :
  select proto_to_string inc F
  = (filter (fun k => truthy (lookup F k)) inc,
     map (fun k => k ++ lit ":" ++ to_string proto_to_string (lookup F k))
       (filter (fun k => truthy (lookup F k)) inc)).
Proof.
  unfold select. rewrite <- (app_nil_r inc) at 2.
  rewrite select_filter_gen, !app_nil_r. reflexivity.
Qed.

(** *** [relaxedHeaders] as a filter of the requested names *)

Lemma relaxedHeaders_filter (proto_to_string : str -> str) headers names :
  Forall (fun k => inherited k = false) (includedFields_of names) ->
  let lines := unfolded headers in
  let kept := filter (kept_name lines) (includedFields_of names) in
  relaxedHeaders proto_to_string headers names
  = {| DKIMCanonicalizer.headers :=
         join CRLF (map (fun k => k ++ lit ":" ++ selected_value k lines) kept)
         ++ CRLF;
       fieldNames := join (lit ":") kept |}.
Proof.
  intros Hinc lines kept. unfold relaxedHeaders. rewrite select_filter.
  set (inc := includedFields_of names) in *.
  set (F := snd (join_lines inc headers)).
  assert (K : forall k, In k inc ->
            lookup F k = match bottom_value k lines with
                         | Some v => Own v
                         | None => Undefined
                         end).
  { intros k Hk. apply lookup_fields; [assumption|].
    rewrite Forall_forall in Hinc. auto. }
  assert (E : filter (fun k => truthy (lookup F k)) inc = kept).
  { unfold kept. apply filter_ext_in. intros k Hk. rewrite (K k Hk).
    unfold kept_name. destruct (bottom_value k lines); reflexivity. }
  rewrite E. f_equal. f_equal. f_equal.
  apply map_ext_in. intros k Hk. unfold kept in Hk.
  apply filter_In in Hk. destruct Hk as [Hk Hv]. rewrite (K k Hk).
  unfold selected_value, kept_name in *.
  destruct (bottom_value k lines); [reflexivity | discriminate].
Qed.

Lemma bottom_value_occurs k (lines : list str) :
  occurs k lines = true <-> bottom_value k lines <> None.
Proof.
  induction lines as [|l r IH]; simpl.
  - split; [discriminate | congruence].
  - destruct (bottom_value k r) eqn:B.
    + split; [discriminate|]. intros _. rewrite (proj2 IH) by discriminate.
      apply orb_true_r.
    + destruct (str_eqb (name_of l) k); simpl.
      * split; [discriminate | reflexivity].
      * rewrite IH. tauto.
Qed.

Lemma bottom_value_line k (lines : list str) v :
  bottom_value k lines = Some v ->
  exists pre l post,
    lines = pre ++ l :: post /\ name_of l = k /\ value_of l = v
    /\ Forall (fun m => name_of m <> k) post.
Proof.
  revert v. induction lines as [|l r IH]; simpl; intros v H; [discriminate|].
  destruct (bottom_value k r) eqn:B.
  - injection H as <-. destruct (IH _ eq_refl) as [pre [m [post [E R]]]].
    exists (l :: pre), m, post. rewrite E. tauto.
  - destruct (str_eqb (name_of l) k) eqn:E; [|discriminate].
    injection H as <-. apply str_eqb_eq in E.
    exists [], l, r. repeat split; try assumption.
    clear -B. induction r as [|m r IH]; [constructor|].
    simpl in B. destruct (bottom_value k r); [discriminate|].
    destruct (str_eqb (name_of m) k) eqn:E; [discriminate|].
    constructor; [apply str_eqb_neq; assumption | apply IH; reflexivity].
Qed.

Lemma bottom_value_split k (pre : list str) l post :
  name_of l = k -> Forall (fun m => name_of m <> k) post ->
  bottom_value k (pre ++ l :: post) = Some (value_of l).
Proof.
  intros Hl Hpost.
  assert (P : bottom_value k post = None).
  { induction Hpost as [|m r Hm _ IH]; [reflexivity|].
    simpl. rewrite IH. apply str_eqb_neq in Hm. rewrite Hm. reflexivity. }
  induction pre as [|x pre IH]; simpl.
  - rewrite P. subst k. rewrite str_eqb_refl. reflexivity.
  - rewrite IH. reflexivity.
Qed.

Lemma bottom_value_other k k' (pre pre' : list str) l post :
  name_of l = k -> k' <> k ->
  filter (fun m => negb (str_eqb (name_of m) k)) pre
  = filter (fun m => negb (str_eqb (name_of m) k)) pre' ->
  bottom_value k' (pre ++ l :: post) = bottom_value k' (pre' ++ l :: post).
Proof.
  intros Hl Hk E.
  assert (A : forall p, bottom_value k' (p ++ l :: post)
                       = match bottom_value k' (l :: post) with
                         | Some v => Some v
                         | None => bottom_value k' p
                         end).
  { induction p as [|x p IH]; simpl.
    - destruct (bottom_value k' post); [reflexivity|].
      destruct (str_eqb (name_of l) k'); reflexivity.
    - simpl in IH. rewrite IH.
      destruct (bottom_value k' post); [reflexivity|].
      destruct (str_eqb (name_of l) k'); [reflexivity|]. reflexivity. }
  assert (B : forall p, bottom_value k' p
                = bottom_value k'
                    (filter (fun m => negb (str_eqb (name_of m) k)) p)).
  { induction p as [|x p IH]; simpl; [reflexivity|].
    destruct (str_eqb (name_of x) k) eqn:Ex; simpl.
    - rewrite <- IH. destruct (bottom_value k' p); [reflexivity|].
      apply str_eqb_eq in Ex.
      assert (N : str_eqb (name_of x) k' = false)
        by (apply str_eqb_neq; congruence).
      rewrite N. reflexivity.
    - rewrite <- IH. reflexivity. }
  rewrite !A, (B pre), (B pre'), E. reflexivity.
Qed.

Lemma join_concat (sep : str) (l : list str) :
  l <> [] -> join sep l ++ sep = List.concat (map (fun x => x ++ sep) l).
Proof.
  induction l as [|x r IH]; [congruence|]. intros _.
  destruct r as [|y r'].
  - simpl. rewrite app_nil_r. reflexivity.
  - rewrite join_cons by discriminate.
    change (List.concat (map (fun x => x ++ sep) (x :: y :: r')))
      with ((x ++ sep) ++ List.concat (map (fun x => x ++ sep) (y :: r'))).
    rewrite <- IH by discriminate. rewrite <- !app_assoc. reflexivity.
Qed.

End HeaderFacts.

(** ** Line folding *)

Section FoldFacts.

Import Dkim.

(** The loop only ever appends to [result]. *)
Lemma foldLines_loop_result n a fuel rest result :
  foldLines_loop n a fuel rest result
  = result ++ foldLines_loop n a fuel rest [].
Proof.
  revert rest result. induction fuel as [|fuel IH]; intros rest result.
  - simpl. rewrite app_nil_r. reflexivity.
  - cbn [foldLines_loop].
    destruct (is_nil rest); [rewrite app_nil_r; reflexivity|].
    destruct (List.length (firstn n rest) <? n); [reflexivity|].
    destruct (up_to_newline (firstn n rest)) as [m|].
    + rewrite IH. rewrite (IH _ ([] ++ m)). rewrite app_assoc. reflexivity.
    + cbv zeta. generalize (fold_chunk a (firstn n rest) rest). intros ch.
      rewrite IH.
      rewrite (IH _ (if is_nil (skipn (List.length ch) rest)
                     then [] ++ ch else ([] ++ ch) ++ CRLF)).
      destruct (is_nil (skipn (List.length ch) rest));
        simpl; rewrite <- ?app_assoc; reflexivity.
Qed.

Lemma up_to_newline_prefix w t m :
  forallb not_space w = true -> up_to_newline (w ++ SP :: t) = Some m ->
  exists z, m = w ++ z.
Proof.
  revert m. induction w as [|c w IH]; intros m Hw H.
  - exists m. reflexivity.
  - simpl in Hw. apply andb_prop in Hw. destruct Hw as [Hc Hw].
    unfold not_space in Hc. apply negb_true_iff in Hc.
    simpl in H. rewrite (not_space_not_LF _ Hc), (not_space_not_CR _ Hc) in H.
    destruct (up_to_newline (w ++ SP :: t)) as [m'|] eqn:E; [|discriminate].
    injection H as <-. destruct (IH m' Hw eq_refl) as [z ->].
    exists z. reflexivity.
Qed.

Lemma rtrim_word_prefix w y :
  forallb not_space w = true -> exists z, rtrim (w ++ y) = w ++ z.
Proof.
  induction w as [|c w IH]; intros Hw.
  - exists (rtrim y). reflexivity.
  - simpl in Hw. apply andb_prop in Hw. destruct Hw as [Hc Hw].
    unfold not_space in Hc. apply negb_true_iff in Hc.
    destruct (IH Hw) as [z E]. exists z.
    unfold rtrim in *. simpl. rewrite Hc, E. reflexivity.
Qed.

Lemma firstn_strip_trailing {A} (p : A -> bool) (l : list A) :
  firstn (List.length (strip_trailing p l)) l = strip_trailing p l.
Proof.
  destruct (strip_trailing_prefix p l) as [r E].
  rewrite E at 2. rewrite firstn_app, Nat.sub_diag, firstn_all. simpl.
  apply app_nil_r.
Qed.

Lemma length_strip_trailing {A} (p : A -> bool) (l : list A) :
  List.length (strip_trailing p l) <= List.length l.
Proof.
  destruct (strip_trailing_prefix p l) as [r E].
  rewrite E at 2. rewrite length_app. lia.
Qed.

(** When the folder cuts before the last run of white space, what it keeps
    is the line without that run and the word after it. *)
Lemma last_space_run_cut line m0 m1 :
  last_space_run line = Some (m0, m1) ->
  firstn (List.length line - m0) line
  = rtrim (strip_trailing not_space line)
  /\ List.length line - m0
     = List.length (rtrim (strip_trailing not_space line)).
Proof.
  unfold last_space_run. intros H.
  destruct (is_nil (strip_trailing not_space line)); [discriminate|].
  injection H as <- <-.
  pose proof (length_strip_trailing not_space line) as L1.
  pose proof (length_strip_trailing is_space (strip_trailing not_space line)) as L2.
  fold (rtrim (strip_trailing not_space line)) in L2.
  assert (E : List.length line
              - (List.length (strip_trailing not_space line)
                 - List.length (rtrim (strip_trailing not_space line))
                 + (List.length line
                    - List.length (strip_trailing not_space line)))
              = List.length (rtrim (strip_trailing not_space line))) by lia.
  rewrite E. split; [|reflexivity].
  destruct (strip_trailing_prefix not_space line) as [r1 E1].
  destruct (strip_trailing_prefix is_space (strip_trailing not_space line))
    as [r2 E2].
  fold (rtrim (strip_trailing not_space line)) in E2.
  rewrite E1 at 2. rewrite E2 at 2. rewrite <- app_assoc.
  rewrite firstn_app, Nat.sub_diag, firstn_all. simpl. apply app_nil_r.
Qed.

(** The chunk emitted for a window that starts with a word and a space
    starts with that word. *)
Lemma fold_chunk_first_word w t' rest :
  forallb not_space w = true ->
  exists z, fold_chunk false (w ++ SP :: t') rest = w ++ z.
Proof.
  intros Hw. unfold fold_chunk.
  set (line := w ++ SP :: t').
  assert (Hsp : last_space_run line <> None).
  { unfold last_space_run, line.
    rewrite strip_trailing_app_keep by (simpl; discriminate).
    destruct w; simpl; discriminate. }
  destruct (last_space_run line) as [[m0 m1]|] eqn:El; [|congruence].
  destruct (last_space_run_cut _ _ _ El) as [Hcut _].
  rewrite Nat.sub_0_r.
  destruct (m0 <? List.length line).
  - rewrite Hcut. unfold line.
    rewrite strip_trailing_app_keep by (simpl; discriminate).
    apply rtrim_word_prefix. assumption.
  - destruct (word_then_spaces (skipn (List.length line) rest)) as [[k0 k1]|];
      unfold line; rewrite <- ?app_assoc; eexists; reflexivity.
Qed.

(** A first word shorter than the line length, followed by a space, is
    never broken by [foldLines]. *)
Lemma foldLines_first_word w t n :
  forallb not_space w = true -> List.length w < n ->
  exists z, foldLines (w ++ SP :: t) n false = w ++ z.
Proof.
  intros Hw Hn. unfold foldLines.
  replace (if n =? 0 then 76 else n) with n
    by (destruct n; [lia | reflexivity]).
  cbn [foldLines_loop].
  destruct (w ++ SP :: t) as [|c0 s0] eqn:Es; [destruct w; discriminate|].
  cbn [is_nil]. rewrite <- Es. clear c0 s0 Es.
  set (s := w ++ SP :: t).
  destruct (List.length (firstn n s) <? n) eqn:Elen.
  { exists (skipn (List.length w) (firstn n s)).
    simpl. rewrite <- (firstn_skipn (List.length w) (firstn n s)) at 1.
    f_equal. rewrite firstn_firstn.
    replace (Nat.min (List.length w) n) with (List.length w) by lia.
    unfold s. rewrite firstn_app, Nat.sub_diag, firstn_all. simpl.
    apply app_nil_r. }
  assert (Hline : exists t', firstn n s = w ++ SP :: t').
  { unfold s. rewrite firstn_app.
    rewrite (firstn_all2 w) by lia.
    destruct (n - List.length w) as [|k] eqn:Ek; [lia|].
    simpl. eexists. reflexivity. }
  destruct Hline as [t' Hline].
  destruct (up_to_newline (firstn n s)) as [m|] eqn:Em.
  { rewrite Hline in Em.
    destruct (up_to_newline_prefix _ _ _ Hw Em) as [z ->].
    rewrite foldLines_loop_result. simpl. rewrite <- app_assoc.
    eexists. reflexivity. }
  cbv zeta. rewrite Hline.
  destruct (fold_chunk_first_word w t' s Hw) as [z ->].
  rewrite foldLines_loop_result.
  destruct (is_nil (skipn (List.length (w ++ z)) s));
    simpl; rewrite <- ?app_assoc; eexists; reflexivity.
Qed.

End FoldFacts.

(** ** The signed data *)

Section SignFacts.

Import Dkim DKIMCanonicalizer HeaderText.

Lemma relaxedHeaderLine_colon w q :
  forallb (fun c => negb (Ascii.eqb c ":")) w = true ->
  relaxedHeaderLine (w ++ ":"%char :: q)
  = {| key := trim (toLowerCase w); value := trim (collapse_ws q) |}.
Proof.
  intros Hw. unfold relaxedHeaderLine.
  rewrite split_on_app, (split_on_free _ _ Hw). simpl.
  change (lit ":") with [":"%char]. rewrite join_split_on. reflexivity.
Qed.

Lemma collapse_from_mid f y c z :
  is_space c = false ->
  collapse_from f (y ++ c :: z) = collapse_from f y ++ c :: collapse_from false z.
Proof.
  intros Hc. revert f. induction y as [|d y IH]; intros f; simpl.
  - rewrite Hc. reflexivity.
  - destruct (is_space d); [destruct f|]; rewrite IH; reflexivity.
Qed.

Lemma strip_leading_suffix {A} (p : A -> bool) (x : list A) c z :
  p c = false -> exists v, strip_leading p (x ++ c :: z) = v ++ c :: z.
Proof.
  intros Hc. induction x as [|d x [v IH]]; simpl.
  - rewrite Hc. exists []. reflexivity.
  - destruct (p d); [exists v; assumption|].
    exists (d :: x). reflexivity.
Qed.

(** The canonical value of a header that ends with the folded, empty
    [b=] tag ends with "; b=". *)
Lemma value_ends_with_b q :
  exists v, trim (collapse_ws (q ++ lit ";" ++ CRLF ++ lit " b="))
            = v ++ lit "; b=".
Proof.
  unfold collapse_ws. change (q ++ lit ";" ++ CRLF ++ lit " b=")
    with (q ++ ";"%char :: CRLF ++ lit " b=").
  rewrite collapse_from_mid by reflexivity.
  change (collapse_from false (CRLF ++ lit " b=")) with (lit " b=").
  unfold trim, rtrim.
  replace (collapse_from false q ++ ";"%char :: lit " b=")
    with ((collapse_from false q ++ lit "; b") ++ ["="%char])
    by (rewrite <- app_assoc; reflexivity).
  rewrite strip_trailing_last by reflexivity.
  rewrite <- app_assoc.
  apply (strip_leading_suffix is_space (collapse_from false q) ";"%char (lit " b=")).
  reflexivity.
Qed.

Lemma trim_no_trailing_LF s x : trim s <> x ++ [LF].
Proof.
  unfold trim. intros E.
  destruct (rtrim_shape s) as [R | [t [c [R Hc]]]]; rewrite R in E.
  - simpl in E. destruct x; discriminate.
  - assert (P : exists r, t ++ [c] = r ++ strip_leading is_space (t ++ [c])).
    { generalize (t ++ [c]). intros l. induction l as [|d l [r IH]]; simpl.
      - exists []. reflexivity.
      - destruct (is_space d).
        + exists (d :: r). simpl. congruence.
        + exists []. reflexivity. }
    destruct P as [r P]. rewrite E in P.
    rewrite app_assoc in P. apply app_inj_tail in P. destruct P as [_ ->].
    discriminate.
Qed.

End SignFacts.

(** ** MX lookup *)

Section MxFacts.

Import Postman.

Lemma insert_by_priority_In r l x :
  In x (insert_by_priority r l) <-> x = r \/ In x l.
Proof.
  induction l as [|y t IH]; simpl.
  - intuition congruence.
  - destruct (priority r <=? priority y); simpl; [intuition congruence|].
    rewrite IH. intuition congruence.
Qed.

Lemma sort_by_priority_In l x : In x (sort_by_priority l) <-> In x l.
Proof.
  induction l as [|a l IH]; simpl; [tauto|].
  rewrite insert_by_priority_In, IH. intuition congruence.
Qed.

(** The first record of the sorted list has the least priority, and among
    the records of least priority it is the one that came first. *)
Lemma sort_by_priority_head a l :
  exists m rest,
    sort_by_priority (a :: l) = m :: rest
    /\ In m (a :: l)
    /\ (forall r, In r (a :: l) -> priority m <= priority r)
    /\ (exists before after,
          a :: l = before ++ m :: after
          /\ forall r, In r before -> priority m < priority r).
Proof.
  revert a. induction l as [|b l IH]; intros a.
  - exists a, []. simpl. repeat split; auto.
    + intros r [<-|[]]. lia.
    + exists [], []. split; [reflexivity | intros r []].
  - destruct (IH b) as [m [rest [E [Hin [Hmin [before [after [Hsplit Hbefore]]]]]]]].
    change (sort_by_priority (a :: b :: l))
      with (insert_by_priority a (sort_by_priority (b :: l))).
    rewrite E. simpl insert_by_priority.
    destruct (priority a <=? priority m) eqn:C.
    + apply Nat.leb_le in C. exists a, (m :: rest). repeat split.
      * left. reflexivity.
      * intros r [<-|Hr]; [lia|]. specialize (Hmin r Hr). lia.
      * exists [], (b :: l). split; [reflexivity | intros r []].
    + apply Nat.leb_gt in C. exists m, (insert_by_priority a rest).
      repeat split.
      * right. assumption.
      * intros r [<-|Hr]; [lia | auto].
      * exists (a :: before), after. rewrite Hsplit. split; [reflexivity|].
        intros r [<-|Hr]; [lia | auto].
Qed.

Lemma mx_step_settled domain timeout st ev :
  settled st <> Pending ->
  settled (mx_step domain timeout st ev) = settled st.
Proof.
  intros H. unfold mx_step.
  destruct ev as [| msg | [[|a l]|]]; simpl.
  - destruct (timer_armed st); simpl; [|reflexivity].
    destruct (settled st); simpl; congruence.
  - destruct (settled st); simpl; congruence.
  - destruct (settled st); simpl; congruence.
  - destruct (insert_by_priority a (sort_by_priority l)); [reflexivity|].
    destruct (settled st); simpl; congruence.
  - destruct (settled st); simpl; congruence.
Qed.

Lemma mx_settled_stays domain timeout evs st :
  settled st <> Pending ->
  settled (fold_left (mx_step domain timeout) evs st) = settled st.
Proof.
  revert st. induction evs as [|ev evs IH]; intros st H; [reflexivity|].
  simpl. rewrite IH; rewrite mx_step_settled; auto.
Qed.

(** The lookup is decided by the first event. *)
Lemma getMailExchange_first domain timeout ev evs :
  getMailExchange domain timeout (ev :: evs)
  = getMailExchange domain timeout [ev].
Proof.
  unfold getMailExchange. simpl. apply mx_settled_stays.
  destruct ev as [| msg | [[|a l]|]]; simpl; try discriminate.
  destruct (sort_by_priority_head a l) as [m [rest [E _]]].
  change (insert_by_priority a (sort_by_priority l))
    with (sort_by_priority (a :: l)).
  rewrite E. discriminate.
Qed.

End MxFacts.

(** ** Grouping recipients by domain *)

Section GroupFacts.

Import Postman GroupText.

Lemma own_list_None m d : own_list m d = None <-> ~ In d (map fst m).
Proof.
  induction m as [|[k v] t IH]; simpl; [tauto|].
  destruct (str_eqb d k) eqn:E.
  - apply str_eqb_eq in E. subst. split; [discriminate|].
    intros H. exfalso. apply H. left. reflexivity.
  - apply str_eqb_neq in E. rewrite IH. intuition congruence.
Qed.

Lemma own_list_In m d rs :
  NoDup (map fst m) -> In (d, rs) m -> own_list m d = Some rs.
Proof.
  induction m as [|[k v] t IH]; simpl; [tauto|].
  intros N [E|H].
  - injection E as -> ->. rewrite str_eqb_refl. reflexivity.
  - inversion N as [|? ? Hk Nt]; subst.
    destruct (str_eqb d k) eqn:E.
    + apply str_eqb_eq in E. subst. exfalso. apply Hk.
      apply (in_map fst) in H. assumption.
    + auto.
Qed.

Lemma push_to_keys m d x : map fst (push_to m d x) = map fst m.
Proof.
  induction m as [|[k v] t IH]; simpl; [reflexivity|].
  destruct (str_eqb d k); simpl; congruence.
Qed.

Lemma push_to_In m d x d' rs' :
  NoDup (map fst m) -> In (d', rs') (push_to m d x) ->
  (d' <> d /\ In (d', rs') m)
  \/ (d' = d /\ exists rs, In (d, rs) m /\ rs' = rs ++ [x]).
Proof.
  induction m as [|[k v] t IH]; simpl; [tauto|].
  intros N H. inversion N as [|? ? Hk Nt]; subst.
  destruct (str_eqb d k) eqn:E.
  - apply str_eqb_eq in E. subst k. destruct H as [H|H].
    + injection H as <- <-. right. split; [reflexivity|].
      exists v. auto.
    + left. split; [|auto]. intros ->. apply Hk.
      apply (in_map fst) in H. assumption.
  - apply str_eqb_neq in E. destruct H as [H|H].
    + injection H as <- <-. left. split; [congruence | auto].
    + destruct (IH Nt H) as [[A B]|[A [rs [B C]]]]; [left; auto|].
      right. split; [assumption|]. exists rs. auto.
Qed.

Lemma push_to_new m d v x :
  ~ In d (map fst m) -> push_to (m ++ [(d, v)]) d x = m ++ [(d, v ++ [x])].
Proof.
  induction m as [|[k w] t IH]; simpl; intros H.
  - rewrite str_eqb_refl. reflexivity.
  - destruct (str_eqb d k) eqn:E.
    + apply str_eqb_eq in E. exfalso. apply H. left. congruence.
    + rewrite IH by (intros C; apply H; right; assumption). reflexivity.
Qed.

Lemma filter_snoc {A} (p : A -> bool) l x :
  filter p (l ++ [x]) = filter p l ++ (if p x then [x] else []).
Proof. rewrite filter_app. reflexivity. Qed.

Lemma group_step_grouped m l r m' :
  grouped m l -> group_step m r = Some m' -> grouped m' (l ++ [r]).
Proof.
  intros [N [F C]] H. unfold group_step in H.
  destruct (own_list m (domain_of r)) as [rs0|] eqn:O.
  - injection H as <-. repeat split.
    + rewrite push_to_keys. assumption.
    + destruct (push_to_In _ _ _ _ _ N H) as [[A B]|[A [rs' [B ->]]]].
      * destruct (F _ _ B) as [-> _]. rewrite filter_snoc.
        assert (E : str_eqb (domain_of r) d = false)
          by (apply str_eqb_neq; congruence).
        rewrite E. symmetry. apply app_nil_r.
      * subst d. destruct (F _ _ B) as [-> _]. rewrite filter_snoc.
        rewrite str_eqb_refl. reflexivity.
    + destruct (push_to_In _ _ _ _ _ N H) as [[A B]|[A [rs' [B ->]]]].
      * apply (F _ _ B).
      * destruct rs'; discriminate.
    + intros r' Hr'. rewrite push_to_keys. apply in_app_or in Hr'.
      destruct Hr' as [Hr'|[<-|[]]]; [auto|].
      destruct (in_dec (list_eq_dec ascii_dec) (domain_of r) (map fst m))
        as [I|I]; [assumption|].
      apply own_list_None in I. congruence.
  - destruct (inherited (domain_of r)); [discriminate|]. injection H as <-.
    apply own_list_None in O. rewrite push_to_new by assumption.
    assert (E : filter (fun r' => str_eqb (domain_of r') (domain_of r)) l = []).
    { clear -C O. induction l as [|y l IH]; [reflexivity|]. simpl.
      destruct (str_eqb (domain_of y) (domain_of r)) eqn:E.
      - apply str_eqb_eq in E. exfalso. apply O. rewrite <- E.
        apply C. left. reflexivity.
      - apply IH. intros r' Hr'. apply C. right. assumption. }
    repeat split.
    + rewrite map_app. simpl. apply NoDup_app; [assumption | |].
      * repeat constructor. intros [].
      * intros a Ha [<-|[]]. tauto.
    + apply in_app_or in H. destruct H as [H|[H|[]]].
      * destruct (F _ _ H) as [-> _]. rewrite filter_snoc.
        assert (E' : str_eqb (domain_of r) d = false).
        { apply str_eqb_neq. intros <-. apply O.
          apply (in_map fst) in H. assumption. }
        rewrite E'. symmetry. apply app_nil_r.
      * injection H as <- <-. rewrite filter_snoc, E, str_eqb_refl.
        reflexivity.
    + apply in_app_or in H. destruct H as [H|[H|[]]].
      * apply (F _ _ H).
      * injection H as <- <-. discriminate.
    + intros r' Hr'. rewrite map_app. apply in_or_app.
      apply in_app_or in Hr'. destruct Hr' as [Hr'|[<-|[]]]; [left; auto|].
      right. left. reflexivity.
Qed.

Lemma group_all_grouped m l0 l m' :
  grouped m l0 -> group_all m l = Some m' -> grouped m' (l0 ++ l).
Proof.
  revert m l0. induction l as [|r l IH]; intros m l0 G H; simpl in H.
  - injection H as <-. rewrite app_nil_r. assumption.
  - destruct (group_step m r) as [m1|] eqn:S; [|discriminate].
    replace (l0 ++ r :: l) with ((l0 ++ [r]) ++ l)
      by (rewrite <- app_assoc; reflexivity).
    apply (IH m1); [|assumption].
    apply (group_step_grouped m l0 r); assumption.
Qed.

(** *** The order of [Object.keys] *)

Lemma filter_partition_perm {A} (p : A -> bool) (l : list A) :
  Permutation (filter p l ++ filter (fun x => negb (p x)) l) l.
Proof.
  induction l as [|x l IH]; simpl; [constructor|].
  destruct (p x); simpl.
  - constructor. assumption.
  - apply Permutation_sym. apply Permutation_cons_app.
    apply Permutation_sym. assumption.
Qed.

Lemma insert_index_perm x l : Permutation (insert_index x l) (x :: l).
Proof.
  induction l as [|y t IH]; simpl; [reflexivity|].
  destruct (fst x <=? fst y)%N; [reflexivity|].
  rewrite IH. constructor.
Qed.

Lemma object_keys_perm names : Permutation (object_keys names) names.
Proof.
  unfold object_keys.
  set (is_index := fun k : str => match array_index k with
                                  | Some _ => true
                                  | None => false
                                  end).
  assert (E1 : Permutation
                 (map snd (fold_right insert_index []
                    (flat_map (fun k => match array_index k with
                                        | Some n => [(n, k)]
                                        | None => []
                                        end) names)))
                 (filter is_index names)).
  { assert (S : forall l : list (N * str),
                Permutation (fold_right insert_index [] l) l).
    { induction l as [|x l IH]; simpl; [constructor|].
      rewrite insert_index_perm. constructor. assumption. }
    rewrite S. clear S. induction names as [|k t IH]; simpl; [constructor|].
    unfold is_index at 1. destruct (array_index k); simpl.
    - constructor. assumption.
    - assumption. }
  rewrite E1.
  replace (filter (fun k => match array_index k with
                            | Some _ => false
                            | None => true
                            end) names)
    with (filter (fun k => negb (is_index k)) names).
  - apply filter_partition_perm.
  - apply filter_ext. intros k. unfold is_index.
    destruct (array_index k); reflexivity.
Qed.

(** *** The groups partition the recipients *)




(** What [domain_groups] returns. *)
Lemma domain_groups_spec e byDomain :
  domain_groups e = Some byDomain ->
  NoDup (map fst byDomain)
  /\ Forall (fun dr =>
       snd dr = filter (fun r => str_eqb (domain_of r) (fst dr))
                  (allRecipients e)
       /\ snd dr <> []) byDomain
  /\ (forall r, In r (allRecipients e) -> In (domain_of r) (map fst byDomain)).
Proof.
  unfold domain_groups.
  destruct (group_all [] (allRecipients e)) as [m|] eqn:G; [|discriminate].
  intros H. injection H as <-.
  assert (I : grouped m (allRecipients e)).
  { apply (group_all_grouped [] [] _ _); [|assumption].
    split; [constructor|]. split; simpl; tauto. }
  destruct I as [N [F C]].
  pose proof (object_keys_perm (map fst m)) as P.
  rewrite map_map. simpl. rewrite map_id.
  split; [apply (Permutation_NoDup (Permutation_sym P)); assumption|].
  split.
  - apply Forall_forall. intros [d rs] Hin. apply in_map_iff in Hin.
    destruct Hin as [d' [E Hd']]. injection E as <- <-.
    apply (Permutation_in _ P) in Hd'. apply in_map_iff in Hd'.
    destruct Hd' as [[d0 rs0] [<- Hin]]. simpl.
    rewrite (own_list_In _ _ _ N Hin). apply (F _ _ Hin).
  - intros r Hr. apply (Permutation_in _ (Permutation_sym P)). auto.
Qed.

Lemma all_fulfilled_spec {A B} (f : A -> promise B) (l : list A) hosts :
  all_fulfilled (map f l) = Some hosts ->
  Forall2 (fun x h => f x = Fulfilled h) l hosts.
Proof.
  revert hosts. induction l as [|x l IH]; simpl; intros hosts H.
  - injection H as <-. constructor.
  - destruct (f x) as [|h|] eqn:E; try discriminate.
    destruct (all_fulfilled (map f l)) as [r|]; [|discriminate].
    injection H as <-. constructor; auto.
Qed.


Lemma Forall2_In_l {A B} (R : A -> B -> Prop) l1 l2 a :
  Forall2 R l1 l2 -> In a l1 -> exists b, In b l2 /\ R a b.
Proof.
  induction 1 as [|x y l1 l2 Hxy _ IH]; simpl; [tauto|].
  intros [<-|H]; [exists y; auto|].
  destruct (IH H) as [b [Hb Rb]]. exists b. auto.
Qed.


End GroupFacts.

(** ** The SMTP conversation *)

Section SessionFacts.

Import Postman WireText.

Variable proto_to_string : str -> str.
Variable sha256_base64 : str -> str.
Variable toASCIIDomain : str -> str.
Variable rsa_sha256_base64 : str -> str -> option str.
Variable sendOptions : SendEnvelope.
Variable dkim : option DKIMOptions.
Variable group : RecipientGroup.

Lemma written_rcpts (f : str -> str) (l : list str) (s : session) :
  written (fold_left (fun s r => write Tls (f r) s) l s)
  = written s ++ map (fun r => (Tls, f r)) l.
Proof.
  revert s. induction l as [|r l IH]; intros s; simpl.
  - symmetry. apply app_nil_r.
  - rewrite IH. simpl. rewrite <- app_assoc. reflexivity.
Qed.

(** What the TLS listener writes on the first 250. *)
Lemma on_tls_data_envelope data s :
  code_is (parseInt (substr data 0 3)) 250 = true ->
  written (on_tls_data sendOptions group false data s)
  = written s
    ++ [(Tls, lit "MAIL FROM:<" ++ from sendOptions ++ lit ">" ++ CRLF)]
    ++ map (fun r => (Tls, lit "RCPT TO:<" ++ r ++ lit ">" ++ CRLF))
         (recipients group)
    ++ [(Tls, lit "DATA" ++ CRLF)].
Proof.
  intros H. unfold on_tls_data. rewrite H. simpl.
  rewrite (written_rcpts (fun r => lit "RCPT TO:<" ++ r ++ lit ">" ++ CRLF)).
  simpl. rewrite <- !app_assoc. reflexivity.
Qed.

Lemma code_is_exclusive code a b :
  code_is code a = true -> a <> b -> code_is code b = false.
Proof.
  destruct code as [c|]; simpl; [|discriminate].
  intros H N. apply Z.eqb_eq in H. subst. apply Z.eqb_neq. assumption.
Qed.

(** What happens on a 354 and on the message that follows. *)
Lemma data_then_message g data amb message s :
  tlsGreeted s = Some g -> tls_live s = true -> tls_ended s = false ->
  code_is (parseInt (substr data 0 3)) 354 = true ->
  createEmailMessage proto_to_string sha256_base64 toASCIIDomain
    rsa_sha256_base64 amb sendOptions dkim = inl message ->
  written (step proto_to_string sha256_base64 toASCIIDomain rsa_sha256_base64
             sendOptions dkim group
             (step proto_to_string sha256_base64 toASCIIDomain
                rsa_sha256_base64 sendOptions dkim group s (TlsData data))
             (MessageBuilt amb))
  = written s ++ [(Tls, message); (Tls, lit "." ++ CRLF)].
Proof.
  intros G L E C M. unfold step at 2. rewrite G, L.
  unfold on_tls_data.
  rewrite (code_is_exclusive _ 354 250 C) by discriminate. simpl.
  rewrite C. unfold step. cbn [building set_building].
  unfold on_message. rewrite M.
  unfold tls_live in *. cbn [tlsGreeted set_building client_destroyed
                             tls_destroyed tls_ended].
  rewrite G in *. rewrite L, E. simpl. rewrite <- app_assoc. reflexivity.
Qed.

End SessionFacts.

(** ** The message *)

Section MessageFacts.

Import Postman WireText.

Variable proto_to_string : str -> str.
Variable sha256_base64 : str -> str.
Variable toASCIIDomain : str -> str.
Variable rsa_sha256_base64 : str -> str -> option str.

Lemma add_attachments_prefix amb boundary l message out :
  add_attachments amb boundary l message = inl out ->
  exists parts, out = message ++ parts.
Proof.
  revert message. induction l as [|a l IH]; intros message H; simpl in H.
  - injection H as <-. exists []. symmetry. apply app_nil_r.
  - destruct (encodeAttachment amb a boundary) as [part|]; [|discriminate].
    destruct (IH _ H) as [parts ->]. exists (part ++ parts).
    rewrite <- app_assoc. reflexivity.
Qed.

(** A message is the signature header, if any, then the head built from
    the envelope, the attachments, and the closing boundary. *)
Lemma createEmailMessage_shape amb sendOptions dkim message :
  createEmailMessage proto_to_string sha256_base64 toASCIIDomain
    rsa_sha256_base64 amb sendOptions dkim = inl message ->
  exists signature parts,
    message = signature ++ message_head amb sendOptions ++ parts
              ++ lit "--" ++ (lit "--boundary_" ++ mixedHex amb) ++ lit "--"
              ++ CRLF
    /\ (dkim = None -> signature = []).
Proof.
  unfold createEmailMessage.
  generalize (message_head amb sendOptions) as head. intros head H.
  destruct (add_attachments amb _ _ _) as [m|] eqn:A; [|discriminate].
  destruct (add_attachments_prefix _ _ _ _ _ A) as [parts ->].
  destruct dkim as [o|].
  - unfold dkimSigned in H.
    destruct (Dkim.DKIMSign _ _ _ _ _ _) as [sig|]; [|discriminate].
    exists (sig ++ CRLF), parts. split; [|discriminate].
    assert (E : forall a b : str, @inl str error a = inl b -> b = a)
      by (intros a b X; congruence).
    rewrite (E _ _ H). rewrite <- !app_assoc. reflexivity.
  - exists [], parts. split; [|reflexivity].
    assert (E : forall a b : str, @inl str error a = inl b -> b = a)
      by (intros a b X; congruence).
    rewrite (E _ _ H). rewrite <- !app_assoc. reflexivity.
Qed.

End MessageFacts.

Lemma join_In_middle (sep : str) (l : list str) b :
  In b l -> exists x y, join sep l = x ++ b ++ y.
Proof.
  induction l as [|a l IH]; simpl; [tauto|]. intros [->|H].
  - destruct l as [|c l'].
    + exists [], []. rewrite app_nil_r. reflexivity.
    + exists [], (sep ++ join sep (c :: l')). reflexivity.
  - destruct (IH H) as [x [y E]]. destruct l as [|c l']; [destruct H|].
    exists (a ++ sep ++ x), y. rewrite E. rewrite <- !app_assoc. reflexivity.
Qed.


(** Every recipient of the envelope is in one of the groups returned. *)
Lemma getRecipientsByMx_groups_cover dns e timeout groups :
  Postman.getRecipientsByMx dns e timeout = Postman.Groups groups ->
  forall r, In r (Postman.allRecipients e) ->
  exists g, In g groups /\ In r (Postman.recipients g).
Proof.
  intros H r Hr. unfold Postman.getRecipientsByMx in H.
  destruct (Postman.domain_groups e) as [byDomain|] eqn:D; [|discriminate].
  destruct (Postman.rejections _); [|discriminate].
  destruct (Postman.all_fulfilled _) as [hosts|] eqn:A; [|discriminate].
  injection H as <-.
  destruct (domain_groups_spec _ _ D) as [N [F C]].
  apply all_fulfilled_spec in A.
  specialize (C r Hr). apply in_map_iff in C.
  destruct C as [[d rs] [Ed Hin]]. simpl in Ed.
  rewrite Forall_forall in F. destruct (F _ Hin) as [Ers _]. simpl in Ers.
  destruct (Forall2_In_l _ _ _ _ A Hin) as [h [Hh _]].
  assert (K : forall (byD : list (str * list str)) hs,
            Forall2 (fun (x : str * list str) (h : str) =>
                       Postman.getMailExchange (fst x) timeout (dns (fst x))
                       = Postman.Fulfilled h) byD hs ->
            In (d, rs) byD ->
            exists h', In (h', (d, rs)) (combine hs byD)).
  { clear. intros byD hs F2. induction F2 as [|x h' l hs' _ _ IH]; simpl; [tauto|].
    intros [->|H]; [exists h'; left; reflexivity|].
    destruct (IH H) as [h2 H2]. exists h2. right. assumption. }
  destruct (K _ _ A Hin) as [h' Hc].
  exists {| Postman.mxHost := h'; Postman.recipients := rs |}. split.
  - apply in_map_iff. exists (h', (d, rs)). split; [reflexivity | assumption].
  - simpl. rewrite Ers. apply filter_In. split; [assumption|].
    apply str_eqb_eq. symmetry. assumption.
Qed.

(** ** Line folding, continued *)

Section FoldMore.

Import Dkim Text.

Lemma folded_refl s : folded s s.
Proof. induction s; constructor; assumption. Qed.

Lemma folded_app c s out : folded s out -> folded (c ++ s) (c ++ out).
Proof. intros H. induction c; simpl; [assumption | constructor; assumption]. Qed.

Lemma up_to_newline_split line m :
  up_to_newline line = Some m -> m <> [] /\ exists r, line = m ++ r.
Proof.
  revert m. induction line as [|c t IH]; intros m H; simpl in H; [discriminate|].
  destruct (Ascii.eqb c LF).
  - injection H as <-. split; [discriminate | exists t; reflexivity].
  - destruct (Ascii.eqb c CR).
    + destruct t as [|d t'].
      * injection H as <-. split; [discriminate | exists []; reflexivity].
      * destruct (Ascii.eqb d LF); injection H as <-;
          (split; [discriminate | eexists; reflexivity]).
    + destruct (up_to_newline t) as [m'|]; [|discriminate].
      injection H as <-. destruct (IH m' eq_refl) as [_ [r ->]].
      split; [discriminate | exists r; reflexivity].
Qed.

Lemma skipn_length_app {A} (a b : list A) : skipn (List.length a) (a ++ b) = b.
Proof. induction a; simpl; auto. Qed.

Lemma firstn_prefix {A} k (l : list A) : exists r, l = firstn k l ++ r.
Proof. exists (skipn k l). symmetry. apply firstn_skipn. Qed.

(** The chunk of one turn is a non-empty prefix of what is left. *)
Lemma fold_chunk_split a n rest :
  0 < n -> List.length (firstn n rest) = n ->
  fold_chunk a (firstn n rest) rest <> []
  /\ exists r, rest = fold_chunk a (firstn n rest) rest ++ r.
Proof.
  intros Hn Hlen. unfold fold_chunk. rewrite Hlen.
  assert (Hline : firstn n rest <> [])
    by (intros C; rewrite C in Hlen; simpl in Hlen; lia).
  assert (Ext : forall j,
            firstn n rest ++ firstn j (skipn n rest) <> []
            /\ exists r, rest = (firstn n rest ++ firstn j (skipn n rest)) ++ r).
  { intros j. split.
    - intros C. apply app_eq_nil in C. tauto.
    - exists (skipn j (skipn n rest)). rewrite <- app_assoc.
      rewrite firstn_skipn, firstn_skipn. reflexivity. }
  assert (Whole : firstn n rest <> [] /\ exists r, rest = firstn n rest ++ r)
    by (split; [assumption | apply firstn_prefix]).
  assert (Tail : match word_then_spaces (skipn n rest) with
                 | Some (m0, m1) =>
                     firstn n rest
                     ++ firstn (m0 - (if a then 0 else m1)) (skipn n rest)
                 | None => firstn n rest
                 end <> []
                 /\ exists r,
                     rest = match word_then_spaces (skipn n rest) with
                            | Some (m0, m1) =>
                                firstn n rest
                                ++ firstn (m0 - (if a then 0 else m1))
                                     (skipn n rest)
                            | None => firstn n rest
                            end ++ r).
  { destruct (word_then_spaces (skipn n rest)) as [[m0 m1]|]; auto. }
  destruct (last_space_run (firstn n rest)) as [[m0 m1]|]; [|exact Tail].
  destruct (m0 - (if a then m1 else 0) <? n) eqn:C; [|exact Tail].
  apply Nat.ltb_lt in C. split.
  - intros E. apply (f_equal (@List.length ascii)) in E.
    rewrite length_firstn, Hlen in E. simpl in E. lia.
  - rewrite firstn_firstn. apply firstn_prefix.
Qed.

Lemma foldLines_loop_folded n a fuel rest :
  0 < n -> List.length rest < fuel ->
  folded rest (foldLines_loop n a fuel rest []).
Proof.
  intros Hn. revert rest. induction fuel as [|fuel IH]; intros rest Hf; [lia|].
  cbn [foldLines_loop].
  destruct rest as [|c0 r0] eqn:Er; [constructor|].
  cbn [is_nil]. rewrite <- Er in *. clear Er c0 r0.
  destruct (List.length (firstn n rest) <? n) eqn:Elen.
  { apply Nat.ltb_lt in Elen. rewrite length_firstn in Elen.
    rewrite firstn_all2 by lia. apply folded_refl. }
  apply Nat.ltb_ge in Elen.
  assert (Hlen : List.length (firstn n rest) = n)
    by (rewrite length_firstn in *; lia).
  destruct (up_to_newline (firstn n rest)) as [m|] eqn:Em.
  - destruct (up_to_newline_split _ _ Em) as [Hm [r Hr]].
    destruct (firstn_prefix n rest) as [r' Hr'].
    rewrite Hr in Hr'. rewrite <- app_assoc in Hr'.
    rewrite foldLines_loop_result. simpl app.
    assert (S : skipn (List.length m) rest = r ++ r').
    { rewrite Hr' at 1. apply skipn_length_app. }
    rewrite S. rewrite Hr' at 1. apply folded_app. apply IH.
    apply (f_equal (@List.length ascii)) in Hr'.
    rewrite !length_app in Hr'. rewrite length_app.
    destruct m; [congruence|]. simpl in Hr'. lia.
  - cbv zeta. destruct (fold_chunk_split a n rest Hn Hlen) as [Hc [r Hr]].
    set (ch := fold_chunk a (firstn n rest) rest) in *.
    assert (S : skipn (List.length ch) rest = r).
    { rewrite Hr at 1. apply skipn_length_app. }
    rewrite S. rewrite foldLines_loop_result. rewrite Hr at 1.
    assert (L : List.length r < fuel).
    { apply (f_equal (@List.length ascii)) in Hr. rewrite length_app in Hr.
      destruct ch; [congruence|]. simpl in Hr. lia. }
    destruct (is_nil r); simpl app.
    + apply folded_app. apply IH. assumption.
    + rewrite <- app_assoc. apply folded_app. simpl.
      apply folded_break. apply IH. assumption.
Qed.

End FoldMore.

(** ** Canonical forms *)

Section CanonFacts.

Import DKIMCanonicalizer HeaderText.

Lemma lower_idem c : lower (lower c) = lower c.
Proof. destruct c as [[] [] [] [] [] [] [] []]; reflexivity. Qed.

Lemma lower_space c : is_space (lower c) = is_space c.
Proof. destruct c as [[] [] [] [] [] [] [] []]; reflexivity. Qed.

Lemma lower_colon c : Ascii.eqb (lower c) ":" = Ascii.eqb c ":".
Proof. destruct c as [[] [] [] [] [] [] [] []]; reflexivity. Qed.

Lemma toLowerCase_idem s : toLowerCase (toLowerCase s) = toLowerCase s.
Proof.
  unfold toLowerCase. rewrite map_map. apply map_ext. apply lower_idem.
Qed.

Lemma strip_trailing_map {A} (p : A -> bool) (f : A -> A) (l : list A) :
  (forall x, p (f x) = p x) ->
  strip_trailing p (map f l) = map f (strip_trailing p l).
Proof.
  intros H. induction l as [|x l IH]; simpl; [reflexivity|].
  rewrite IH, H. destruct (strip_trailing p l); simpl;
    destruct (p x); reflexivity.
Qed.

Lemma strip_leading_map {A} (p : A -> bool) (f : A -> A) (l : list A) :
  (forall x, p (f x) = p x) ->
  strip_leading p (map f l) = map f (strip_leading p l).
Proof.
  intros H. induction l as [|x l IH]; simpl; [reflexivity|].
  rewrite H. destruct (p x); [assumption | reflexivity].
Qed.

Lemma trim_toLowerCase s : trim (toLowerCase s) = toLowerCase (trim s).
Proof.
  unfold trim, rtrim, toLowerCase.
  rewrite strip_trailing_map by apply lower_space.
  apply strip_leading_map. apply lower_space.
Qed.

Lemma strip_leading_idem {A} (p : A -> bool) (l : list A) :
  strip_leading p (strip_leading p l) = strip_leading p l.
Proof.
  induction l as [|x l IH]; simpl; [reflexivity|].
  destruct (p x) eqn:E; [assumption|]. simpl. rewrite E. reflexivity.
Qed.

Lemma strip_leading_split {A} (p : A -> bool) (l : list A) :
  exists w, l = w ++ strip_leading p l
            /\ match strip_leading p l with
               | [] => True
               | c :: _ => p c = false
               end.
Proof.
  induction l as [|x l [w [E H]]]; simpl.
  - exists []. auto.
  - destruct (p x) eqn:Px.
    + exists (x :: w). simpl. rewrite <- E. auto.
    + exists []. auto.
Qed.

Lemma trim_idem s : trim (trim s) = trim s.
Proof.
  unfold trim at 1 3. unfold trim.
  assert (R : rtrim (strip_leading is_space (rtrim s))
              = strip_leading is_space (rtrim s)).
  { destruct (rtrim_shape s) as [-> | [t [c [-> Hc]]]]; [reflexivity|].
    destruct (strip_leading_suffix is_space t c [] Hc) as [v ->].
    apply strip_trailing_last. assumption. }
  rewrite R. apply strip_leading_idem.
Qed.

Lemma collapse_from_length f s :
  List.length (collapse_from f s) <= List.length s.
Proof.
  revert f. induction s as [|c t IH]; intros f; simpl; [lia|].
  pose proof (IH true) as Ht. pose proof (IH false) as Hf.
  destruct (is_space c); [destruct f|]; simpl; lia.
Qed.

(** A prefix of a string without runs is without runs. *)
Lemma collapse_fixed_prefix f a b :
  collapse_from f (a ++ b) = a ++ b -> collapse_from f a = a.
Proof.
  revert f. induction a as [|c a IH]; intros f H; [reflexivity|].
  simpl in *. destruct (is_space c).
  - destruct f.
    + exfalso. pose proof (collapse_from_length true (a ++ b)) as L.
      rewrite H in L. simpl in L. lia.
    + injection H as -> H. rewrite (IH true H). reflexivity.
  - injection H as H. rewrite (IH false H). reflexivity.
Qed.

(** So is a suffix that does not start with white space. *)
Lemma collapse_fixed_suffix f a b :
  collapse_from f (a ++ b) = a ++ b ->
  match b with [] => True | c :: _ => is_space c = false end ->
  collapse_from false b = b.
Proof.
  revert f. induction a as [|c a IH]; intros f H Hb.
  - simpl in H. destruct b as [|d b]; [reflexivity|].
    simpl in *. rewrite Hb in *. assumption.
  - simpl in H. destruct (is_space c).
    + destruct f.
      * exfalso. pose proof (collapse_from_length true (a ++ b)) as L.
        rewrite H in L. simpl in L. lia.
      * injection H as _ H. apply (IH true H Hb).
    + injection H as H. apply (IH false H Hb).
Qed.

Lemma collapse_trim_fixed x :
  collapse_ws x = x -> collapse_ws (trim x) = trim x.
Proof.
  unfold collapse_ws, trim. intros H.
  destruct (strip_trailing_prefix is_space x) as [r E].
  fold (rtrim x) in E.
  assert (P : collapse_from false (rtrim x) = rtrim x).
  { apply (collapse_fixed_prefix false (rtrim x) r). rewrite <- E. assumption. }
  destruct (strip_leading_split is_space (rtrim x)) as [w [Ew Hw]].
  apply (collapse_fixed_suffix false w); [rewrite <- Ew; assumption | assumption].
Qed.

(** A canonical value is its own canonical form. *)
Lemma canonical_value_fixed q :
  trim (collapse_ws (trim (collapse_ws q))) = trim (collapse_ws q).
Proof.
  rewrite collapse_trim_fixed by apply collapse_from_idem.
  apply trim_idem.
Qed.

Lemma canonical_key_fixed k :
  trim (toLowerCase (trim (toLowerCase k))) = trim (toLowerCase k).
Proof.
  rewrite (trim_toLowerCase (trim (toLowerCase k))).
  rewrite trim_idem, <- trim_toLowerCase, toLowerCase_idem. reflexivity.
Qed.

Lemma strip_leading_free {A} (p q : A -> bool) (l : list A) :
  forallb q l = true -> forallb q (strip_leading p l) = true.
Proof.
  induction l as [|x l IH]; simpl; [reflexivity|]. intros H.
  apply andb_prop in H. destruct (p x); [tauto|]. simpl.
  destruct H as [-> ->]. reflexivity.
Qed.

Lemma strip_trailing_free {A} (p q : A -> bool) (l : list A) :
  forallb q l = true -> forallb q (strip_trailing p l) = true.
Proof.
  intros H. destruct (strip_trailing_prefix p l) as [r E].
  rewrite E in H. rewrite forallb_app in H. apply andb_prop in H. tauto.
Qed.

Lemma canonical_key_no_colon k :
  forallb (fun c => negb (Ascii.eqb c ":")) k = true ->
  forallb (fun c => negb (Ascii.eqb c ":")) (trim (toLowerCase k)) = true.
Proof.
  intros H. unfold trim, rtrim.
  apply strip_leading_free, strip_trailing_free.
  unfold toLowerCase. rewrite forallb_forall in *. intros c Hc.
  apply in_map_iff in Hc. destruct Hc as [d [<- Hd]].
  rewrite lower_colon. auto.
Qed.

(** *** Unfolding *)

Lemma unfold_from_concat rp x fin :
  List.concat (unfold_from rp x fin)
  = List.concat (rev rp) ++ x ++ List.concat fin.
Proof.
  revert x fin. induction rp as [|y rp IH]; intros x fin; simpl.
  - reflexivity.
  - rewrite concat_app. simpl. rewrite app_nil_r.
    destruct (starts_with_space x); rewrite IH; simpl;
      rewrite <- !app_assoc; reflexivity.
Qed.

Lemma unfold_from_tail rp x fin :
  Forall (fun l => starts_with_space l = false) fin ->
  Forall (fun l => starts_with_space l = false) (tl (unfold_from rp x fin)).
Proof.
  revert x fin. induction rp as [|y rp IH]; intros x fin H; simpl.
  - assumption.
  - destruct (starts_with_space x) eqn:E; apply IH; [assumption|].
    constructor; assumption.
Qed.

Lemma unfolded_unfold_from headers :
  exists init last,
    split_newlines headers = init ++ [last]
    /\ unfolded headers = unfold_from (rev init) last [].
Proof.
  destruct (join_lines_scan [] headers) as [init [last [E J]]].
  exists init, last. split; [assumption|].
  unfold unfolded. rewrite J. apply scan_lines.
Qed.

End CanonFacts.

(** ** Bodies, continued *)

Section BodyMore.

Import Text DKIMCanonicalizer.

Lemma strip_trailing_removed {A} (p : A -> bool) (l : list A) :
  exists r, l = strip_trailing p l ++ r /\ forallb p r = true.
Proof.
  induction l as [|c t [r [E H]]]; simpl.
  - exists []. auto.
  - destruct (p c && is_nil (strip_trailing p t)) eqn:C.
    + exists (c :: t). split; [reflexivity|].
      apply andb_prop in C. destruct C as [Pc N]. apply is_nil_true in N.
      simpl. rewrite Pc. apply strip_trailing_nil_all. assumption.
    + exists r. simpl. split; [congruence | assumption].
Qed.

Lemma LF_to_CRLF_app a b : LF_to_CRLF (a ++ b) = LF_to_CRLF a ++ LF_to_CRLF b.
Proof.
  induction a as [|c a IH]; simpl; [reflexivity|].
  destruct (Ascii.eqb c LF); simpl; rewrite IH; reflexivity.
Qed.

Lemma LF_to_CRLF_free l :
  forallb (fun c => negb (Ascii.eqb c LF)) l = true -> LF_to_CRLF l = l.
Proof.
  induction l as [|c l IH]; simpl; [reflexivity|]. intros H.
  apply andb_prop in H. destruct H as [Hc Hl]. apply negb_true_iff in Hc.
  rewrite Hc, (IH Hl). reflexivity.
Qed.

Lemma LF_to_CRLF_lines (ls : list str) :
  ls <> [] ->
  Forall (fun x => forallb (fun c => negb (Ascii.eqb c LF)) x = true) ls ->
  LF_to_CRLF (join [LF] ls ++ [LF])
  = List.concat (map (fun l => l ++ CRLF) ls).
Proof.
  induction ls as [|x r IH]; [congruence|]. intros _ H.
  inversion H as [|? ? Hx Hr]; subst. destruct r as [|y r'].
  - simpl. rewrite LF_to_CRLF_app, (LF_to_CRLF_free _ Hx), app_nil_r.
    reflexivity.
  - rewrite join_cons by discriminate. rewrite <- !app_assoc.
    rewrite LF_to_CRLF_app, (LF_to_CRLF_free _ Hx).
    change ([LF] ++ join [LF] (y :: r') ++ [LF])
      with (LF :: (join [LF] (y :: r') ++ [LF])).
    change (LF_to_CRLF (LF :: (join [LF] (y :: r') ++ [LF])))
      with (CR :: LF :: LF_to_CRLF (join [LF] (y :: r') ++ [LF])).
    rewrite IH by (discriminate || assumption).
    change (map (fun l => l ++ CRLF) (x :: y :: r'))
      with ((x ++ CRLF) :: map (fun l => l ++ CRLF) (y :: r')).
    cbn [List.concat]. rewrite <- app_assoc. reflexivity.
Qed.

End BodyMore.

(** ** Grouping, continued *)

Section GroupMore.

Import Postman.

Lemma group_all_fails (m : domain_map) (l : list str) :
  Forall (fun k => inherited k = false) (map fst m) ->
  group_all m l = None
  <-> exists r, In r l /\ inherited (domain_of r) = true.
Proof.
  revert m. induction l as [|r l IH]; intros m Hm; simpl.
  - split; [discriminate | intros [r [[] _]]].
  - unfold group_step.
    destruct (own_list m (domain_of r)) as [rs|] eqn:O.
    + assert (Hr : inherited (domain_of r) = false).
      { rewrite Forall_forall in Hm. apply Hm.
        destruct (in_dec (list_eq_dec ascii_dec) (domain_of r) (map fst m))
          as [I|I]; [assumption|].
        apply own_list_None in I. congruence. }
      rewrite IH by (rewrite push_to_keys; assumption). split.
      * intros [x [Hx Ix]]. exists x. auto.
      * intros [x [[<-|Hx] Ix]]; [congruence|]. exists x. auto.
    + destruct (inherited (domain_of r)) eqn:Hr.
      * split; [|reflexivity]. intros _. exists r. auto.
      * apply own_list_None in O. rewrite push_to_new by assumption.
        rewrite IH.
        -- split.
           ++ intros [x [Hx Ix]]. exists x. auto.
           ++ intros [x [[<-|Hx] Ix]]; [congruence|]. exists x. auto.
        -- rewrite map_app. apply Forall_app. split; [assumption|].
           repeat constructor. assumption.
Qed.

Lemma insert_by_priority_perm r l :
  Permutation (insert_by_priority r l) (r :: l).
Proof.
  induction l as [|x t IH]; simpl; [reflexivity|].
  destruct (priority r <=? priority x); [reflexivity|].
  rewrite IH. constructor.
Qed.

Lemma insert_by_priority_sorted r l :
  StronglySorted (fun a b => priority a <= priority b) l ->
  StronglySorted (fun a b => priority a <= priority b)
    (insert_by_priority r l).
Proof.
  induction 1 as [|x t St IH Hx]; simpl.
  - repeat constructor.
  - destruct (priority r <=? priority x) eqn:C.
    + apply Nat.leb_le in C. constructor; [constructor; assumption|].
      constructor; [assumption|].
      eapply Forall_impl; [|exact Hx]. simpl. intros; lia.
    + apply Nat.leb_gt in C. constructor; [assumption|].
      apply (Permutation_Forall (Permutation_sym (insert_by_priority_perm r t))).
      constructor; [lia | assumption].
Qed.

Lemma rejections_In {A B} (f : A -> promise B) (l : list A) x e :
  In x l -> f x = Rejected e -> In e (rejections (map f l)).
Proof.
  intros H E. unfold rejections. apply in_flat_map.
  exists (f x). split; [apply in_map; assumption|]. rewrite E. left.
  reflexivity.
Qed.


End GroupMore.

(** ** The SMTP conversation, continued *)

Section SessionMore.

Import Postman WireText.

Variable proto_to_string : str -> str.
Variable sha256_base64 : str -> str.
Variable toASCIIDomain : str -> str.
Variable rsa_sha256_base64 : str -> str -> option str.
Variable sendOptions : SendEnvelope.
Variable dkim : option DKIMOptions.
Variable group : RecipientGroup.

Local Abbreviation step' :=
  (step proto_to_string sha256_base64 toASCIIDomain rsa_sha256_base64
     sendOptions dkim group).
Local Abbreviation run' :=
  (run proto_to_string sha256_base64 toASCIIDomain rsa_sha256_base64
     sendOptions dkim group).

Lemma fold_writes (f : str -> str) (l : list str) (s : session) :
  fold_left (fun s r => write Tls (f r) s) l s
  = writes (map (fun r => (Tls, f r)) l) s.
Proof.
  revert s. induction l as [|r l IH]; intros s; simpl.
  - destruct s. unfold writes. simpl. rewrite app_nil_r. reflexivity.
  - rewrite IH. unfold writes, write. simpl. rewrite <- app_assoc.
    reflexivity.
Qed.

(** The listener of the TLS socket, with the loop over the recipients
    summed up. *)
Lemma on_tls_data_unfold g data s :
  on_tls_data sendOptions group g data s
  = let code := parseInt (substr data 0 3) in
    if code_is code 250 && negb g then
      set_tlsGreeted true
        (write Tls (lit "DATA" ++ CRLF)
           (writes (map (fun r => (Tls, lit "RCPT TO:<" ++ r ++ lit ">" ++ CRLF))
                      (recipients group))
              (write Tls (lit "MAIL FROM:<" ++ from sendOptions ++ lit ">"
                          ++ CRLF) s)))
    else if code_is code 354 then set_building (S (building s)) s
    else if code_is code 250 && str_includes (lit "2.0.0") data then
      end_tls (settle (resolve sent) (write Tls (lit "QUIT" ++ CRLF) s))
    else if code_at_least code 500 then
      settle (reject (TlsError data)) (destroy_tls s)
    else s.
Proof.
  unfold on_tls_data. cbv zeta.
  rewrite (fold_writes (fun r => lit "RCPT TO:<" ++ r ++ lit ">" ++ CRLF)).
  reflexivity.
Qed.

Ltac step_cases :=
  unfold step, on_client_data, on_message, tls_live; cbv zeta;
  repeat first
    [ rewrite on_tls_data_unfold; cbv zeta
    | match goal with
      | |- context [match ?x with _ => _ end] =>
          destruct x eqn:?; simpl in *; try congruence
      end ].

(** Once settled, the promise of a session does not change. *)
Lemma step_settled s ev :
  outcome s <> Pending -> outcome (step' s ev) = outcome s.
Proof.
  intros H. destruct (outcome s) eqn:O; [congruence| |];
    destruct ev; step_cases; simpl; rewrite ?O; reflexivity.
Qed.

Lemma run_settled evs s :
  outcome s <> Pending -> outcome (fold_left step' evs s) = outcome s.
Proof.
  revert s. induction evs as [|ev evs IH]; intros s H; [reflexivity|].
  simpl. rewrite IH; rewrite step_settled; auto.
Qed.

(** Nothing written is ever taken back. *)
Lemma step_written s ev :
  exists ws, written (step' s ev) = written s ++ ws.
Proof.
  destruct ev; step_cases; simpl;
    try (exists []; rewrite app_nil_r; reflexivity);
    rewrite <- ?app_assoc; eexists; reflexivity.
Qed.

Lemma run_written evs s :
  exists ws, written (fold_left step' evs s) = written s ++ ws.
Proof.
  revert s. induction evs as [|ev evs IH]; intros s; simpl.
  - exists []. rewrite app_nil_r. reflexivity.
  - destruct (IH (step' s ev)) as [ws E]. destruct (step_written s ev) as [ws' E'].
    exists (ws' ++ ws). rewrite E, E', app_assoc. reflexivity.
Qed.

Lemma step_quit_sent s ev : quit_sent s -> quit_sent (step' s ev).
Proof.
  intros Q m H. destruct (outcome s) eqn:O.
  - (* pending before *)
    revert H. destruct ev; step_cases; simpl; rewrite ?O; simpl;
      try discriminate.
    intros E. injection E as <-. split; [reflexivity|].
    apply in_or_app. right. left. reflexivity.
  - rewrite step_settled in H by congruence. rewrite O in H.
    destruct (Q a O) as [-> I]. injection H as <-. split; [reflexivity|].
    destruct (step_written s ev) as [ws ->]. apply in_or_app. auto.
  - rewrite step_settled in H by congruence. congruence.
Qed.

Lemma run_quit_sent evs : quit_sent (run' evs).
Proof.
  unfold run. assert (Q : quit_sent start) by (intros m H; discriminate).
  revert Q. generalize start. induction evs as [|ev evs IH]; intros s Q.
  - assumption.
  - simpl. apply IH. apply step_quit_sent. assumption.
Qed.

Lemma In_snoc {A} (x y : A) l : In x (l ++ [y]) <-> In x l \/ x = y.
Proof.
  rewrite in_app_iff. simpl. intuition congruence.
Qed.

Ltac in_cases :=
  unfold clear_text_safe, plain_command in *; simpl in *;
  repeat split; intros;
  repeat match goal with
         | H : In _ (_ ++ _) |- _ => apply in_app_or in H; destruct H
         | H : In _ (map _ _) |- _ =>
             apply in_map_iff in H; destruct H as [? [? ?]]
         | H : In _ (_ :: _) |- _ => destruct H
         | H : In _ [] |- _ => destruct H
         | H : (_, _) = (_, _) |- _ => inversion H; clear H; subst
         | H : _ && _ = true |- _ => apply andb_prop in H; destruct H
         | H : context [match ?x with _ => _ end] |- _ =>
             destruct x eqn:?; simpl in H; try discriminate
         end;
  rewrite ?in_app_iff; simpl;
  try congruence; try discriminate;
  try solve [intuition (try congruence; eauto)].

Lemma step_clear_text_safe s ev :
  clear_text_safe (mxHost group) s ->
  clear_text_safe (mxHost group) (step' s ev).
Proof.
  intros [A [B [C D]]].
  destruct ev; step_cases; in_cases.
Qed.

Lemma run_clear_text_safe evs : clear_text_safe (mxHost group) (run' evs).
Proof.
  unfold run.
  assert (Q : clear_text_safe (mxHost group) start).
  { unfold clear_text_safe. simpl. repeat split; try tauto; try discriminate. }
  revert Q. generalize start. induction evs as [|ev evs IH]; intros s Q.
  - assumption.
  - simpl. apply IH. apply step_clear_text_safe. assumption.
Qed.

(** A session whose plain socket was destroyed before TLS began is dead:
    it writes nothing more. *)
Lemma dead_step s ev :
  client_destroyed s = true -> tlsGreeted s = None ->
  client_destroyed (step' s ev) = true /\ tlsGreeted (step' s ev) = None
  /\ written (step' s ev) = written s.
Proof.
  intros Hd Ht.
  destruct ev; unfold step, on_message, tls_live; simpl;
    rewrite ?Hd, ?Ht; simpl; auto.
  destruct (building s); simpl; rewrite ?Hd, ?Ht; auto.
  destruct (createEmailMessage _ _ _ _ _ _ _); simpl; rewrite ?Hd, ?Ht; auto.
Qed.

Lemma dead_run evs s :
  client_destroyed s = true -> tlsGreeted s = None ->
  written (fold_left step' evs s) = written s.
Proof.
  revert s. induction evs as [|ev evs IH]; intros s Hd Ht; [reflexivity|].
  simpl. destruct (dead_step s ev Hd Ht) as [A [B C]].
  rewrite IH by assumption. assumption.
Qed.

(** Nothing arms the timeout again. *)
Lemma step_disarmed s ev :
  timeout_armed s = false -> timeout_armed (step' s ev) = false.
Proof.
  intros H. destruct ev; step_cases; simpl; rewrite ?H; reflexivity.
Qed.

Lemma run_disarmed evs s :
  timeout_armed s = false -> timeout_armed (fold_left step' evs s) = false.
Proof.
  revert s. induction evs as [|ev evs IH]; intros s H; [assumption|].
  simpl. apply IH, step_disarmed, H.
Qed.

Lemma first_data_disarms data :
  timeout_armed (step' start (ClientData data)) = false.
Proof.
  step_cases; reflexivity.
Qed.

(** A session whose TLS socket was destroyed writes nothing more. *)
Lemma tls_dead_step s ev :
  tls_destroyed s = true -> tlsGreeted s <> None ->
  tls_destroyed (step' s ev) = true /\ tlsGreeted (step' s ev) <> None
  /\ written (step' s ev) = written s.
Proof.
  intros Hd Ht. destruct (tlsGreeted s) as [g|] eqn:G; [|congruence].
  destruct ev; unfold step, on_message, tls_live; simpl;
    rewrite ?G, ?Hd, ?andb_false_r; simpl; rewrite ?G; auto.
  - destruct (client_destroyed s); simpl; rewrite ?G; auto.
  - destruct (client_destroyed s || negb (timeout_armed s)); simpl;
      rewrite ?G; auto.
  - destruct (client_destroyed s); simpl; rewrite ?G; auto.
  - destruct (building s); simpl; rewrite ?G; auto.
    destruct (createEmailMessage _ _ _ _ _ _ _); simpl;
      rewrite ?G, ?Hd, ?andb_false_r; simpl; rewrite ?G; auto.
Qed.

Lemma tls_dead_run evs s :
  tls_destroyed s = true -> tlsGreeted s <> None ->
  written (fold_left step' evs s) = written s.
Proof.
  revert s. induction evs as [|ev evs IH]; intros s Hd Ht; [reflexivity|].
  simpl. destruct (tls_dead_step s ev Hd Ht) as [A [B C]].
  rewrite IH by assumption. assumption.
Qed.

Lemma code_at_least_exclusive code a b :
  code_at_least code a = true -> (b < a)%Z -> code_is code b = false.
Proof.
  destruct code as [c|]; simpl; [|discriminate].
  intros H L. apply Z.leb_le in H. apply Z.eqb_neq. lia.
Qed.

(** The conversation with a server that accepts, reply by reply. *)
Lemma handshake_to_envelope greeting offer ready hello :
  code_is (code_of greeting) 220 = true ->
  code_is (code_of offer) 250 = true ->
  str_includes (lit "250-STARTTLS") offer = true ->
  code_is (code_of ready) 220 = true ->
  str_includes (lit "TLS") ready = true ->
  code_is (code_of hello) 250 = true ->
  fold_left step'
    [ClientData greeting; ClientData offer; ClientData ready; TlsSecure;
     TlsData hello] start
  = envelope_sent sendOptions group 0.
Proof.
  unfold code_of. intros G O1 O2 R1 R2 H. cbn [fold_left].
  set (s1 := {| greeted := false; timeout_armed := false; tlsGreeted := None;
                written := [(Plain, lit "EHLO " ++ mxHost group ++ CRLF)];
                client_destroyed := false; tls_destroyed := false;
                tls_ended := false; building := 0; outcome := Pending |}).
  set (s2 := {| greeted := true; timeout_armed := false; tlsGreeted := None;
                written := [(Plain, lit "EHLO " ++ mxHost group ++ CRLF);
                            (Plain, lit "STARTTLS" ++ CRLF)];
                client_destroyed := false; tls_destroyed := false;
                tls_ended := false; building := 0; outcome := Pending |}).
  set (s3 := {| greeted := true; timeout_armed := false;
                tlsGreeted := Some false;
                written := [(Plain, lit "EHLO " ++ mxHost group ++ CRLF);
                            (Plain, lit "STARTTLS" ++ CRLF)];
                client_destroyed := false; tls_destroyed := false;
                tls_ended := false; building := 0; outcome := Pending |}).
  set (s4 := {| greeted := true; timeout_armed := false;
                tlsGreeted := Some false;
                written := [(Plain, lit "EHLO " ++ mxHost group ++ CRLF);
                            (Plain, lit "STARTTLS" ++ CRLF);
                            (Tls, lit "EHLO " ++ mxHost group ++ CRLF)];
                client_destroyed := false; tls_destroyed := false;
                tls_ended := false; building := 0; outcome := Pending |}).
  assert (E1 : step' start (ClientData greeting) = s1).
  { unfold step. cbn [client_destroyed tlsGreeted start].
    unfold on_client_data. cbv zeta. rewrite G. reflexivity. }
  assert (E2 : step' s1 (ClientData offer) = s2).
  { unfold step, s1. cbn [client_destroyed tlsGreeted].
    unfold on_client_data. cbv zeta.
    rewrite (code_is_exclusive _ 250 220 O1) by discriminate.
    rewrite O1, O2. reflexivity. }
  assert (E3 : step' s2 (ClientData ready) = s3).
  { unfold step, s2. cbn [client_destroyed tlsGreeted].
    unfold on_client_data. cbv zeta.
    rewrite (code_is_exclusive _ 220 250 R1) by discriminate.
    rewrite R1, R2. reflexivity. }
  assert (E4 : step' s3 TlsSecure = s4) by reflexivity.
  assert (E5 : step' s4 (TlsData hello) = envelope_sent sendOptions group 0).
  { unfold step, tls_live, s4.
    cbn [client_destroyed tls_destroyed tlsGreeted negb andb].
    rewrite on_tls_data_unfold. cbv zeta. rewrite H. reflexivity. }
  rewrite E1, E2, E3, E4, E5. reflexivity.
Qed.

Lemma passive_replies acks n :
  forallb passive acks = true ->
  fold_left step' (map TlsData acks) (envelope_sent sendOptions group n)
  = envelope_sent sendOptions group n.
Proof.
  induction acks as [|a acks IH]; intros F; [reflexivity|].
  cbn [forallb] in F. apply andb_prop in F. destruct F as [Pa F].
  unfold passive, code_of in Pa.
  apply andb_prop in Pa. destruct Pa as [Pa P3].
  apply andb_prop in Pa. destruct Pa as [P1 P2].
  apply negb_true_iff in P1, P2, P3.
  cbn [map fold_left].
  replace (step' (envelope_sent sendOptions group n) (TlsData a))
    with (envelope_sent sendOptions group n); [apply IH; assumption|].
  unfold step, tls_live, envelope_sent.
  cbn [client_destroyed tls_destroyed tlsGreeted negb andb].
  rewrite on_tls_data_unfold. cbv zeta.
  rewrite andb_false_r, P1, P2, P3. reflexivity.
Qed.

Lemma conversation_delivers greeting offer ready hello acks go amb queued
    message :
  code_is (code_of greeting) 220 = true ->
  code_is (code_of offer) 250 = true ->
  str_includes (lit "250-STARTTLS") offer = true ->
  code_is (code_of ready) 220 = true ->
  str_includes (lit "TLS") ready = true ->
  code_is (code_of hello) 250 = true ->
  forallb passive acks = true ->
  code_is (code_of go) 354 = true ->
  code_is (code_of queued) 250 = true ->
  str_includes (lit "2.0.0") queued = true ->
  createEmailMessage proto_to_string sha256_base64 toASCIIDomain
    rsa_sha256_base64 amb sendOptions dkim = inl message ->
  run' (conversation greeting offer ready hello acks go amb queued)
  = delivered sendOptions group message.
Proof.
  intros G O1 O2 R1 R2 H A Go Q1 Q2 M. unfold run, conversation.
  rewrite !fold_left_app.
  rewrite (handshake_to_envelope _ _ _ _ G O1 O2 R1 R2 H).
  rewrite (passive_replies _ _ A).
  unfold code_of in Go, Q1. cbn [fold_left].
  assert (E1 : step' (envelope_sent sendOptions group 0) (TlsData go)
               = envelope_sent sendOptions group 1).
  { unfold step, tls_live, envelope_sent.
    cbn [client_destroyed tls_destroyed tlsGreeted negb andb].
    rewrite on_tls_data_unfold. cbv zeta.
    rewrite andb_false_r, Go. reflexivity. }
  rewrite E1.
  set (sM := {| greeted := true; timeout_armed := false;
                tlsGreeted := Some true;
                written := envelope_commands sendOptions group
                           ++ [(Tls, message); (Tls, lit "." ++ CRLF)];
                client_destroyed := false; tls_destroyed := false;
                tls_ended := false; building := 0; outcome := Pending |}).
  assert (E2 : step' (envelope_sent sendOptions group 1) (MessageBuilt amb)
               = sM).
  { unfold step. cbv [envelope_sent building]. unfold on_message.
    rewrite M. unfold tls_live, write, set_building, sM.
    cbn [client_destroyed tls_destroyed tlsGreeted tls_ended negb andb
         written greeted timeout_armed building outcome].
    rewrite <- app_assoc. reflexivity. }
  rewrite E2.
  unfold step, tls_live, sM.
  cbn [client_destroyed tls_destroyed tlsGreeted negb andb].
  rewrite on_tls_data_unfold. cbv zeta.
  rewrite andb_false_r.
  rewrite (code_is_exclusive _ 250 354 Q1) by discriminate.
  rewrite Q1, Q2. unfold delivered, end_tls, settle, write.
  cbn [client_destroyed tls_destroyed tlsGreeted tls_ended andb
       written greeted timeout_armed building outcome resolve].
  rewrite <- app_assoc. reflexivity.
Qed.

(** A 354 and then a build that fails. *)
Lemma build_fails s g go amb e :
  tlsGreeted s = Some g ->
  client_destroyed s = false ->
  tls_destroyed s = false ->
  code_is (code_of go) 354 = true ->
  createEmailMessage proto_to_string sha256_base64 toASCIIDomain
    rsa_sha256_base64 amb sendOptions dkim = inr e ->
  step' (step' s (TlsData go)) (MessageBuilt amb)
  = settle (reject e) (set_building (building s)
                         (set_building (S (building s)) s)).
Proof.
  unfold code_of. intros G C T Go M.
  assert (E1 : step' s (TlsData go) = set_building (S (building s)) s).
  { unfold step, tls_live. rewrite G, C, T. cbn [negb andb].
    rewrite on_tls_data_unfold. cbv zeta.
    rewrite (code_is_exclusive _ 354 250 Go) by discriminate.
    rewrite Go. reflexivity. }
  rewrite E1. unfold step. cbn [building set_building].
  unfold on_message. rewrite M. reflexivity.
Qed.

End SessionMore.

(** ** Sending to every group *)

Section SendFacts.

Import Postman WireText.

Variable proto_to_string : str -> str.
Variable sha256_base64 : str -> str.
Variable toASCIIDomain : str -> str.
Variable rsa_sha256_base64 : str -> str -> option str.

Local Abbreviation run' :=
  (run proto_to_string sha256_base64 toASCIIDomain rsa_sha256_base64).
Local Abbreviation send_groups' :=
  (send_groups proto_to_string sha256_base64 toASCIIDomain rsa_sha256_base64).

(** The loop ends well only when every remaining session is fulfilled. *)
Lemma send_groups_delivered options e w groups i m :
  send_groups' options e w i groups = Delivered m ->
  m = sent
  /\ forall j g, nth_error groups j = Some g ->
       outcome (run' e (dkim options) g (net w (i + j))) = Fulfilled sent.
Proof.
  revert i. induction groups as [|g0 groups IH]; intros i H; simpl in H.
  - split; [congruence|]. intros [|j] g; discriminate.
  - destruct (outcome (run' e (dkim options) g0 (net w i))) as [|a|err] eqn:O;
      try discriminate.
    destruct (IH _ H) as [-> F]. split; [reflexivity|].
    intros [|j] g Hg; simpl in Hg.
    + injection Hg as <-. rewrite Nat.add_0_r.
      destruct (run_quit_sent proto_to_string sha256_base64 toASCIIDomain
                  rsa_sha256_base64 e (dkim options) g0 (net w i) a O)
        as [-> _].
      assumption.
    + rewrite Nat.add_succ_r. apply (F j g Hg).
Qed.

(** The loop stops at the first session that is not fulfilled. *)
Lemma send_groups_stops options e w pre g post i :
  (forall j g', nth_error pre j = Some g' ->
     outcome (run' e (dkim options) g' (net w (i + j))) = Fulfilled sent) ->
  send_groups' options e w i (pre ++ g :: post)
  = match outcome (run' e (dkim options) g (net w (i + List.length pre))) with
    | Fulfilled _ => send_groups' options e w (S (i + List.length pre)) post
    | Rejected err => Refused [err]
    | Pending => Hanging
    end.
Proof.
  revert i. induction pre as [|g0 pre IH]; intros i F; simpl.
  - rewrite Nat.add_0_r. reflexivity.
  - pose proof (F 0 g0 eq_refl) as F0. rewrite Nat.add_0_r in F0.
    rewrite F0, IH.
    + rewrite Nat.add_succ_r. reflexivity.
    + intros j g' Hj. specialize (F (S j) g' Hj).
      rewrite Nat.add_succ_r in F. assumption.
Qed.

End SendFacts.

(** ** Attachments and signing *)

Section MessageMore.

Import Postman WireText.

Lemma add_attachments_all amb boundary l parts message :
  Forall2 (fun a p => encodeAttachment amb a boundary = Some p) l parts ->
  add_attachments amb boundary l message = inl (message ++ List.concat parts).
Proof.
  intros F. revert message. induction F as [|a p l parts E F IH];
    intros message; simpl.
  - rewrite app_nil_r. reflexivity.
  - rewrite E, IH, <- app_assoc. reflexivity.
Qed.

Lemma add_attachments_fails amb boundary pre a post message :
  Forall (fun x => readFile amb (path x) <> None) pre ->
  readFile amb (path a) = None ->
  add_attachments amb boundary (pre ++ a :: post) message
  = inr (ReadFailed (path a)).
Proof.
  intros F N. revert message. induction F as [|x pre Hx F IH];
    intros message; simpl.
  - unfold encodeAttachment. rewrite N. reflexivity.
  - unfold encodeAttachment at 1.
    destruct (readFile amb (path x)); [|congruence]. apply IH.
Qed.

End MessageMore.

(** ** Headers and body of an e-mail *)

Section SplitFacts.

Import Dkim.

Lemma newline_token_cases s n :
  newline_token s = Some n ->
  (firstn n s = [LF] \/ firstn n s = CRLF) /\ n <= List.length s.
Proof.
  destruct s as [|c t]; simpl; [discriminate|].
  destruct (Ascii.eqb c LF) eqn:E1.
  - apply Ascii.eqb_eq in E1. subst. intros [= <-]. simpl.
    split; [left; reflexivity | lia].
  - destruct (Ascii.eqb c CR) eqn:E2; [|discriminate].
    apply Ascii.eqb_eq in E2. subst.
    destruct t as [|d t']; [discriminate|].
    destruct (Ascii.eqb d LF) eqn:E3; [|discriminate].
    apply Ascii.eqb_eq in E3. subst. intros [= <-]. simpl.
    split; [right; reflexivity | lia].
Qed.

Lemma blank_line_token_cases s n :
  blank_line_token s = Some n ->
  In (firstn n s) [[LF; LF]; [LF; CR; LF]; [CR; LF; LF]; [CR; LF; CR; LF]]
  /\ n <= List.length s.
Proof.
  unfold blank_line_token.
  destruct (newline_token s) as [a|] eqn:A; [|discriminate].
  destruct (newline_token (skipn a s)) as [b|] eqn:B; [|discriminate].
  intros [= <-].
  destruct (newline_token_cases _ _ A) as [Ha La].
  destruct (newline_token_cases _ _ B) as [Hb Lb].
  rewrite length_skipn in Lb. split; [|lia].
  rewrite <- (firstn_skipn a s) at 1.
  assert (La' : List.length (firstn a s) = a)
    by (rewrite length_firstn; lia).
  rewrite firstn_app, La'.
  replace (a + b - a) with b by lia.
  rewrite firstn_all2 by (rewrite La'; lia).
  destruct Ha as [-> | ->], Hb as [-> | ->]; simpl; tauto.
Qed.

Lemma find_blank_line_at s i n :
  find_blank_line s = Some (i, n) ->
  blank_line_token (skipn i s) = Some n /\ i <= List.length s.
Proof.
  revert i. induction s as [|c t IH]; intros i.
  - discriminate.
  - cbn [find_blank_line]. destruct (blank_line_token (c :: t)) eqn:E.
    + intros [= <- <-]. cbn [skipn]. rewrite E. split; [reflexivity | lia].
    + destruct (find_blank_line t) as [[i' n']|]; [|discriminate].
      intros [= <- <-]. cbn [skipn List.length].
      destruct (IH i' eq_refl) as [A B].
      split; [assumption | lia].
Qed.

Lemma newline_token_none s :
  newline_token s = None ->
  forall t, s <> LF :: t /\ s <> CR :: LF :: t.
Proof.
  intros N t. split; intros ->; simpl in N; discriminate.
Qed.

Lemma blank_line_token_sep sep rest :
  In sep WireText.blank_lines ->
  blank_line_token (sep ++ rest) = Some (List.length sep).
Proof.
  unfold WireText.blank_lines. simpl.
  intros [<-|[<-|[<-|[<-|[]]]]]; reflexivity.
Qed.

Lemma find_blank_line_first s i n :
  find_blank_line s = Some (i, n) ->
  forall j, j < i -> blank_line_token (skipn j s) = None.
Proof.
  revert i. induction s as [|c t IH]; intros i; [discriminate|].
  cbn [find_blank_line]. destruct (blank_line_token (c :: t)) eqn:E.
  - intros [= <- <-] j Hj. lia.
  - destruct (find_blank_line t) as [[i' n']|]; [|discriminate].
    intros [= <- <-] [|j] Hj; [assumption|].
    cbn [skipn]. apply (IH i' eq_refl). lia.
Qed.

Lemma find_blank_line_none s :
  find_blank_line s = None ->
  forall j, blank_line_token (skipn j s) = None.
Proof.
  induction s as [|c t IH]; intros H j.
  - destruct j; reflexivity.
  - cbn [find_blank_line] in H.
    destruct (blank_line_token (c :: t)) eqn:E; [discriminate|].
    destruct (find_blank_line t) as [[i' n']|] eqn:F; [discriminate|].
    destruct j as [|j]; [assumption|]. cbn [skipn]. apply IH. reflexivity.
Qed.

Lemma skipn_prefix {A} (h x : list A) : skipn (List.length h) (h ++ x) = x.
Proof. induction h; simpl; auto. Qed.

End SplitFacts.

(** ** Folding of the signature *)

Section WrapFacts.

Import Dkim Text.

Lemma wrapped_refl s : wrapped s s.
Proof. induction s; constructor; assumption. Qed.

Lemma wrapped_app c s out : wrapped s out -> wrapped (c ++ s) (c ++ out).
Proof. intros H. induction c; simpl; [assumption | constructor; assumption]. Qed.

Lemma fold_signature_wrapped fuel at_start s :
  wrapped s (fold_signature fuel at_start s).
Proof.
  revert at_start s. induction fuel as [|fuel IH]; intros at_start s.
  - apply wrapped_refl.
  - cbn [fold_signature]. destruct s as [|c t]; [constructor|].
    destruct (at_start && dots 73 (c :: t)).
    + rewrite <- (firstn_skipn 73 (c :: t)) at 1. apply wrapped_app.
      apply wrapped_break. apply IH.
    + destruct (dots 75 (c :: t) && no_newline_ahead (skipn 75 (c :: t))).
      * rewrite <- (firstn_skipn 75 (c :: t)) at 1. apply wrapped_app.
        apply wrapped_break. apply IH.
      * constructor. apply IH.
Qed.

Lemma fold_signature_fuel fuel1 fuel2 at_start s :
  List.length s <= fuel1 -> List.length s <= fuel2 ->
  fold_signature fuel1 at_start s = fold_signature fuel2 at_start s.
Proof.
  revert fuel2 at_start s. induction fuel1 as [|fuel1 IH];
    intros fuel2 at_start s H1 H2.
  - destruct s; [|simpl in H1; lia]. destruct fuel2; reflexivity.
  - destruct fuel2 as [|fuel2].
    + destruct s; [reflexivity | simpl in H2; lia].
    + cbn [fold_signature]. destruct s as [|c t]; [reflexivity|].
      assert (L : forall k, List.length (skipn (S k) (c :: t)) <= List.length t)
        by (intros k; cbn [skipn]; rewrite length_skipn; lia).
      simpl in H1, H2.
      rewrite (IH fuel2 false (skipn 73 (c :: t)))
        by (specialize (L 72); lia).
      rewrite (IH fuel2 false (skipn 75 (c :: t)))
        by (specialize (L 74); lia).
      rewrite (IH fuel2 false t) by lia.
      reflexivity.
Qed.

End WrapFacts.

(** ** The signed string *)

Section SignMore.

Import DKIMCanonicalizer HeaderText.

(** [signed_data] is the canonical header block followed by the canonical
    DKIM-Signature line, whose value ends with "; b=". *)
Lemma signed_data_parts (proto_to_string sha256_base64 toASCIIDomain : str -> str)
    (email : str) (o : Dkim.dkim_options) :
  let block :=
    DKIMCanonicalizer.headers
      (relaxedHeaders proto_to_string (fst (Dkim.split_email email))
         (Dkim.effective_field_names o)) in
  let dkim :=
    Dkim.dkim_header proto_to_string sha256_base64 toASCIIDomain email o in
  let signed :=
    Dkim.signed_data proto_to_string sha256_base64 toASCIIDomain email o in
  (exists tags,
      dkim = Dkim.foldLines (lit "DKIM-Signature: " ++ tags) 76 false
             ++ lit ";" ++ CRLF ++ lit " b=")
  /\ name_of dkim = lit "dkim-signature"
  /\ (exists v, value_of dkim = v ++ lit "; b=")
  /\ signed = block ++ lit "dkim-signature" ++ lit ":" ++ value_of dkim
  /\ (forall x, signed <> x ++ CRLF)
  /\ (forall o',
        Dkim.domainName o' = Dkim.domainName o ->
        Dkim.keySelector o' = Dkim.keySelector o ->
        Dkim.headerFieldNames o' = Dkim.headerFieldNames o ->
        Dkim.signed_data proto_to_string sha256_base64 toASCIIDomain email o'
        = signed).
Proof.
  intros block dkim signed.
  assert (D : exists tags,
             dkim = Dkim.foldLines (lit "DKIM-Signature: " ++ tags) 76 false
                    ++ lit ";" ++ CRLF ++ lit " b=").
  { unfold dkim, Dkim.dkim_header. destruct (Dkim.split_email email) as [h b].
    unfold Dkim.generateDKIMHeader. eexists. reflexivity. }
  destruct D as [tags D].
  destruct (foldLines_first_word (lit "DKIM-Signature:") tags 76)
    as [z Hz]; [reflexivity | simpl; lia |].
  change (lit "DKIM-Signature:" ++ SP :: tags)
    with (lit "DKIM-Signature: " ++ tags) in Hz.
  assert (L : relaxedHeaderLine dkim
              = {| key := lit "dkim-signature";
                   value := trim (collapse_ws
                                    (z ++ lit ";" ++ CRLF ++ lit " b=")) |}).
  { rewrite D, Hz.
    change ((lit "DKIM-Signature:" ++ z) ++ lit ";" ++ CRLF ++ lit " b=")
      with (lit "DKIM-Signature" ++ ":"%char
            :: ((z ++ lit ";" ++ CRLF ++ lit " b="))).
    - rewrite relaxedHeaderLine_colon by reflexivity. reflexivity.
  }
  assert (N : name_of dkim = lit "dkim-signature")
    by (unfold name_of; rewrite L; reflexivity).
  assert (V : exists v, value_of dkim = v ++ lit "; b=")
    by (unfold value_of; rewrite L; apply value_ends_with_b).
  assert (S : signed = block ++ lit "dkim-signature" ++ lit ":" ++ value_of dkim).
  { unfold signed, Dkim.signed_data, block.
    fold dkim. destruct (Dkim.split_email email) as [h b]. cbv zeta.
    fold (name_of dkim) (value_of dkim). rewrite N. reflexivity. }
  split; [exists tags; assumption|]. split; [assumption|].
  split; [assumption|]. split; [assumption|]. split.
  - intros x E. rewrite S in E. destruct V as [v V]. rewrite V in E.
    change (lit "; b=") with (lit "; b" ++ ["="%char]) in E.
    change CRLF with ([CR] ++ [LF]) in E.
    rewrite !app_assoc in E. apply app_inj_tail in E.
    destruct E as [_ E]. discriminate.
  - intros o' E1 E2 E3. unfold signed, Dkim.signed_data, Dkim.dkim_header,
      Dkim.effective_field_names.
    rewrite E1, E2, E3. reflexivity.
Qed.

End SignMore.

(** ** The groups *)

Section GroupsMore.

Import Postman.


End GroupsMore.

(* ================================================================== *)
(** * Part III: the claims of the specification                        *)
(* ================================================================== *)

Module Claims.

Import Text DKIMCanonicalizer.

(** Claim C2.  [relaxedBody] is idempotent, and it gives equal results on
    bodies that differ only in (a) the line breaks at their end, (b) the
    choice of CR, LF or CR LF for each line ending (as long as no lone CR is
    followed by an empty line ended by a lone LF, which would read as one
    CR LF), (c) the white space at the end of lines and (d) the length of the
    runs of white space inside lines. *)
Theorem relaxedBody_canonical :
  (forall b, relaxedBody (relaxedBody b) = relaxedBody b)
  /\ (forall b t1 t2,
        forallb newline_char t1 = true -> forallb newline_char t2 = true ->
        relaxedBody (b ++ t1) = relaxedBody (b ++ t2))
  /\ (forall (ls : list str) last (e1 e2 : list eol),
        Forall (fun l => is_line l = true) ls -> is_line last = true ->
        List.length e1 = List.length ls -> List.length e2 = List.length ls ->
        unambiguous (combine ls e1) = true ->
        unambiguous (combine ls e2) = true ->
        relaxedBody (compose (combine ls e1) last)
        = relaxedBody (compose (combine ls e2) last))
  /\ (forall e (ls1 ls2 : list str),
        Forall2 same_words ls1 ls2 ->
        relaxedBody (join (eol_str e) ls1) = relaxedBody (join (eol_str e) ls2)).
Proof.
  split; [exact relaxedBody_idempotent|].
  split.
  { intros b t1 t2 H1 H2.
    rewrite !relaxedBody_app_newlines by assumption. reflexivity. }
  split; [exact relaxedBody_line_endings | exact relaxedBody_same_words].
Qed.

Lemma relaxedBody_canonical_witness :
  relaxedBody (relaxedBody (lit "a  b " ++ CRLF ++ CRLF))
  = relaxedBody (lit "a  b " ++ CRLF ++ CRLF)
  /\ relaxedBody (lit "a" ++ [CR; LF; LF; CR]) = relaxedBody (lit "a" ++ [LF])
  /\ relaxedBody (compose (combine [lit "a"; lit "b"] [Cr; CrLf]) (lit "c"))
     = relaxedBody (compose (combine [lit "a"; lit "b"] [Lf; Lf]) (lit "c"))
  /\ relaxedBody (join (eol_str CrLf) [lit "a   b  "; lit " c"])
     = relaxedBody (join (eol_str CrLf) [lit "a b"; lit "   c "]).
Proof.
  split; [apply (proj1 relaxedBody_canonical)|].
  split; [apply (proj1 (proj2 relaxedBody_canonical)); reflexivity|].
  split.
  - apply (proj1 (proj2 (proj2 relaxedBody_canonical)));
      try reflexivity; repeat constructor.
  - apply (proj2 (proj2 (proj2 relaxedBody_canonical))).
    constructor; [|constructor; [|constructor]].
    + apply sw_char; [reflexivity|].
      apply (sw_run (lit "   ") (lit " ") (lit "b  ") (lit "b"));
        try reflexivity; try discriminate.
      apply sw_char; [reflexivity|].
      apply (sw_end (lit "  ") []); reflexivity.
    + apply (sw_run (lit " ") (lit "   ") (lit "c") (lit "c "));
        try reflexivity; try discriminate.
      apply sw_char; [reflexivity|].
      apply (sw_end [] (lit " ")); reflexivity.
Defined.

(** Claim C6.  [relaxedBody] maps every body that is empty or made of white
    space only to the two characters CR LF, and it maps the body of scenario
    S1 to "Hello world" followed by CR LF. *)
Theorem relaxedBody_blank_body :
  (forall body, forallb is_space body = true -> relaxedBody body = CRLF)
  /\ relaxedBody (lit "Hello  world  " ++ CRLF ++ CRLF ++ CRLF)
     = lit "Hello world" ++ CRLF.
Proof.
  split; [exact relaxedBody_all_space | reflexivity].
Qed.

Lemma relaxedBody_blank_body_witness :
  relaxedBody [] = CRLF
  /\ relaxedBody (lit "  " ++ CRLF ++ [SP; LF; CR]) = CRLF.
Proof.
  split; apply (proj1 relaxedBody_blank_body); reflexivity.
Defined.

Import HeaderText.

(** Claim C1 (corrected).  The code scans the header block from the bottom
    and records a name only once, so of several headers with a requested
    name it is the LAST (bottom-most) one, not the first, whose value is
    signed.  For a requested name [k] whose bottom-most line [l] in the
    unfolded block has a non-empty canonical value: the canonical block is a
    sequence of lines ended by CR LF, one of which is [k], a colon and the
    value of [l]; and the lines named [k] above [l] are ignored: any other
    header block that differs from this one only in such lines has the same
    result. *)
Theorem relaxedHeaders_bottom_occurrence (proto_to_string : str -> str)
    (headers names : str) (pre : list str) (l : str) (post : list str) :
  let k := name_of l in
  unfolded headers = pre ++ l :: post ->
  Forall (fun m => name_of m <> k) post ->
  In k (includedFields_of names) ->
  Forall (fun n => inherited n = false) (includedFields_of names) ->
  value_of l <> [] ->
  (exists above below : list str,
      DKIMCanonicalizer.headers (relaxedHeaders proto_to_string headers names)
      = List.concat
          (map (fun x => x ++ CRLF)
             (above ++ [k ++ lit ":" ++ value_of l] ++ below)))
  /\ (forall (headers' : str) (pre' : list str),
        unfolded headers' = pre' ++ l :: post ->
        filter (fun m => negb (str_eqb (name_of m) k)) pre'
        = filter (fun m => negb (str_eqb (name_of m) k)) pre ->
        relaxedHeaders proto_to_string headers' names
        = relaxedHeaders proto_to_string headers names).
Proof.
  intros k Hlines Hpost Hin Hinc Hval.
  assert (B : bottom_value k (unfolded headers) = Some (value_of l)).
  { rewrite Hlines. apply bottom_value_split; [reflexivity | assumption]. }
  split.
  - rewrite relaxedHeaders_filter by assumption. cbv zeta. cbn [DKIMCanonicalizer.headers].
    set (kept := filter (kept_name (unfolded headers)) (includedFields_of names)).
    assert (Hk : In k kept).
    { apply filter_In. split; [assumption|]. unfold kept_name. rewrite B.
      apply negb_true_iff. apply is_nil_false. assumption. }
    destruct (in_split _ _ Hk) as [a [b E]].
    exists (map (fun x => x ++ lit ":" ++ selected_value x (unfolded headers)) a),
           (map (fun x => x ++ lit ":" ++ selected_value x (unfolded headers)) b).
    rewrite join_concat.
    + f_equal. f_equal. rewrite E, map_app. simpl. f_equal. f_equal.
      unfold selected_value. rewrite B. reflexivity.
    + rewrite E. destruct a; discriminate.
  - intros headers' pre' Hlines' Hfilter.
    rewrite !relaxedHeaders_filter by assumption. cbv zeta.
    assert (S : forall n, In n (includedFields_of names) ->
                bottom_value n (unfolded headers')
                = bottom_value n (unfolded headers)).
    { intros n _. rewrite Hlines, Hlines'.
      destruct (list_eq_dec ascii_dec n k) as [->|N].
      - rewrite !bottom_value_split by (reflexivity || assumption). reflexivity.
      - apply (bottom_value_other k n pre' pre l post);
          [reflexivity | assumption | assumption]. }
    assert (K : filter (kept_name (unfolded headers')) (includedFields_of names)
                = filter (kept_name (unfolded headers)) (includedFields_of names)).
    { apply filter_ext_in. intros n Hn. unfold kept_name. rewrite (S n Hn).
      reflexivity. }
    rewrite K. f_equal. f_equal. f_equal.
    apply map_ext_in. intros n Hn. apply filter_In in Hn.
    unfold selected_value. rewrite (S n (proj1 Hn)). reflexivity.
Qed.

Lemma relaxedHeaders_bottom_occurrence_witness :
  (exists above below : list str,
      DKIMCanonicalizer.headers
        (relaxedHeaders node_proto_to_string
           (lit "Subject: first" ++ CRLF ++ lit "To: b@y" ++ CRLF
            ++ lit "Subject: second")
           (lit "To:Subject"))
      = List.concat
          (map (fun x => x ++ CRLF)
             (above ++ [lit "subject:second"] ++ below)))
  /\ (forall (headers' : str) (pre' : list str),
        unfolded headers' = pre' ++ [lit "Subject: second"] ->
        filter (fun m => negb (str_eqb (name_of m) (lit "subject"))) pre'
        = [lit "To: b@y"] ->
        relaxedHeaders node_proto_to_string headers' (lit "To:Subject")
        = relaxedHeaders node_proto_to_string
            (lit "Subject: first" ++ CRLF ++ lit "To: b@y" ++ CRLF
             ++ lit "Subject: second")
            (lit "To:Subject")).
Proof.
  apply (relaxedHeaders_bottom_occurrence node_proto_to_string
           (lit "Subject: first" ++ CRLF ++ lit "To: b@y" ++ CRLF
            ++ lit "Subject: second")
           (lit "To:Subject")
           [lit "Subject: first"; lit "To: b@y"] (lit "Subject: second") []).
  - reflexivity.
  - constructor.
  - right. left. reflexivity.
  - repeat constructor.
  - discriminate.
Defined.

(** Counterexample to claim C1 as stated: of two [Subject] headers the
    canonical block carries the value of the second, and the value of the
    first (top-most) one is nowhere in it. *)
Lemma first_occurrence_is_not_signed :
  top_value (lit "subject")
    (unfolded (lit "Subject: first" ++ CRLF ++ lit "Subject: second" ++ CRLF))
  = Some (lit "first")
  /\ DKIMCanonicalizer.headers
       (relaxedHeaders node_proto_to_string
          (lit "Subject: first" ++ CRLF ++ lit "Subject: second" ++ CRLF)
          (lit "subject"))
     = lit "subject:second" ++ CRLF
  /\ Postman.str_includes (lit "first")
       (DKIMCanonicalizer.headers
          (relaxedHeaders node_proto_to_string
             (lit "Subject: first" ++ CRLF ++ lit "Subject: second" ++ CRLF)
             (lit "subject")))
     = false.
Proof. repeat split; reflexivity. Qed.

(** Claim C3 (corrected).  When no requested name is a member name of
    [Object.prototype] and no requested header has an empty value,
    [relaxedHeaders] keeps exactly the requested names (lower-cased and
    trimmed) that occur in the unfolded block, in the order of the request;
    the canonical block is, in that order, name, colon and canonical value
    of each kept name, joined by CR LF and followed by one more CR LF.  So
    every header of a non-empty selection is followed by CR LF, and an empty
    selection gives the lone CR LF rather than the empty string.  Each value
    is that of a line of the block with that name.  Scenario S2 holds. *)
Theorem relaxedHeaders_requested_order (proto_to_string : str -> str)
    (headers names : str) :
  let inc := includedFields_of names in
  let lines := unfolded headers in
  let kept := filter (fun k => occurs k lines) inc in
  let result := relaxedHeaders proto_to_string headers names in
  Forall (fun k => inherited k = false) inc ->
  (forall k, In k inc -> bottom_value k lines <> Some []) ->
  fieldNames result = join (lit ":") kept
  /\ DKIMCanonicalizer.headers result
     = join CRLF (map (fun k => k ++ lit ":" ++ selected_value k lines) kept)
       ++ CRLF
  /\ (kept <> [] ->
      DKIMCanonicalizer.headers result
      = List.concat
          (map (fun k => k ++ lit ":" ++ selected_value k lines ++ CRLF) kept))
  /\ (kept = [] -> DKIMCanonicalizer.headers result = CRLF)
  /\ (forall k, In k kept ->
      exists l, In l lines /\ name_of l = k
                /\ value_of l = selected_value k lines)
  /\ (let s2 := relaxedHeaders proto_to_string
                  (lit "From: a@x" ++ CRLF ++ lit "Subject: Hi" ++ CRLF
                   ++ lit " there" ++ CRLF)
                  (lit "from:subject") in
      fieldNames s2 = lit "from:subject"
      /\ DKIMCanonicalizer.headers s2
         = lit "from:a@x" ++ CRLF ++ lit "subject:Hi there" ++ CRLF).
Proof.
  intros inc lines kept result Hinc Hval.
  assert (K : kept = filter (kept_name lines) inc).
  { unfold kept. apply filter_ext_in. intros k Hk. unfold kept_name.
    specialize (Hval k Hk). destruct (bottom_value k lines) as [v|] eqn:B.
    - rewrite (proj2 (bottom_value_occurs k lines)) by congruence.
      destruct v; [congruence | reflexivity].
    - destruct (occurs k lines) eqn:O; [|reflexivity].
      apply bottom_value_occurs in O. congruence. }
  assert (R : result
              = {| DKIMCanonicalizer.headers :=
                     join CRLF
                       (map (fun k => k ++ lit ":" ++ selected_value k lines) kept)
                     ++ CRLF;
                   fieldNames := join (lit ":") kept |}).
  { unfold result. rewrite K. apply relaxedHeaders_filter. assumption. }
  rewrite R. cbn [fieldNames DKIMCanonicalizer.headers].
  split; [reflexivity|]. split; [reflexivity|]. split.
  { intros N. rewrite join_concat by (destruct kept; [congruence | discriminate]).
    rewrite map_map. f_equal. apply map_ext. intros k.
    rewrite <- !app_assoc. reflexivity. }
  split; [intros ->; reflexivity|]. split; [|split; reflexivity].
  intros k Hk. rewrite K in Hk. apply filter_In in Hk. destruct Hk as [_ Hk].
  unfold kept_name, selected_value in *.
  destruct (bottom_value k lines) as [v|] eqn:B; [|discriminate].
  destruct (bottom_value_line _ _ _ B) as [pre [l [post [E [Hn [Hv _]]]]]].
  exists l. rewrite E. split; [apply in_elt | tauto].
Qed.

Lemma relaxedHeaders_requested_order_witness :
  fieldNames
    (relaxedHeaders node_proto_to_string
       (lit "Received: x" ++ CRLF ++ lit "Subject: Hi" ++ CRLF ++ lit "From: a@x")
       (lit "From : To:SUBJECT"))
  = join (lit ":")
      (filter
         (fun k => occurs k
                     (unfolded (lit "Received: x" ++ CRLF ++ lit "Subject: Hi"
                                ++ CRLF ++ lit "From: a@x")))
         (includedFields_of (lit "From : To:SUBJECT"))).
Proof.
  refine (proj1 (relaxedHeaders_requested_order node_proto_to_string
                   (lit "Received: x" ++ CRLF ++ lit "Subject: Hi" ++ CRLF
                    ++ lit "From: a@x")
                   (lit "From : To:SUBJECT") _ _)).
  - repeat constructor.
  - intros k [<-|[<-|[<-|[]]]]; discriminate.
Defined.

(** Counterexample to claim C3 as stated: when none of the requested
    headers occurs, nothing is kept, and yet the canonical block is not
    empty: it is the lone CR LF. *)
Lemma empty_selection_is_CRLF :
  fieldNames
    (relaxedHeaders node_proto_to_string (lit "To: b@y" ++ CRLF) (lit "from"))
  = []
  /\ DKIMCanonicalizer.headers
       (relaxedHeaders node_proto_to_string (lit "To: b@y" ++ CRLF) (lit "from"))
     = CRLF
  /\ DKIMCanonicalizer.headers
       (relaxedHeaders node_proto_to_string (lit "To: b@y" ++ CRLF) (lit "from"))
     <> List.concat
          (map (fun k => k ++ lit ":"
                         ++ selected_value k (unfolded (lit "To: b@y" ++ CRLF))
                         ++ CRLF)
             (filter (fun k => occurs k (unfolded (lit "To: b@y" ++ CRLF)))
                (includedFields_of (lit "from")))).
Proof. repeat split; try reflexivity. discriminate. Qed.

(** Claim C7 (the code departs from it).  A requested header with an empty
    value is not kept: [Subject:] is dropped from the kept names and from
    the canonical block. *)
Theorem relaxedHeaders_drops_empty_value :
  fieldNames
    (relaxedHeaders node_proto_to_string
       (lit "Subject:" ++ CRLF ++ lit "To: b@y" ++ CRLF) (lit "subject:to"))
  = lit "to"
  /\ DKIMCanonicalizer.headers
       (relaxedHeaders node_proto_to_string
          (lit "Subject:" ++ CRLF ++ lit "To: b@y" ++ CRLF) (lit "subject:to"))
     = lit "to:b@y" ++ CRLF.
Proof. split; reflexivity. Qed.

(** Claim C8 (corrected).  [DKIMSign] hands to the signer, with the private
    key, the canonical header block followed by the canonical DKIM-Signature
    line: the name "dkim-signature", a colon, and the canonical value of the
    header built with an empty [b=]; that value ends with "; b=", so the
    signed string does not end with CR LF.  The block is the selected
    headers joined by CR LF, and one more CR LF: each selected header is
    followed by CR LF, but when no header is selected the block is a lone
    CR LF, with which the signed string then starts.  The signed string
    depends on the message, the domain, the selector and the requested
    names only: not on the private key, and not on the signer. *)
Theorem DKIMSign_signed_string
    (proto_to_string sha256_base64 toASCIIDomain : str -> str)
    (rsa_sha256_base64 : str -> str -> option str)
    (email : str) (o : Dkim.dkim_options) :
  let canonical :=
    relaxedHeaders proto_to_string (fst (Dkim.split_email email))
      (Dkim.effective_field_names o) in
  let block := DKIMCanonicalizer.headers canonical in
  let dkim :=
    Dkim.dkim_header proto_to_string sha256_base64 toASCIIDomain email o in
  let signed := block ++ lit "dkim-signature" ++ lit ":" ++ value_of dkim in
  Dkim.DKIMSign proto_to_string sha256_base64 toASCIIDomain
    rsa_sha256_base64 email o
  = match rsa_sha256_base64 signed (Dkim.privateKey o) with
    | Some signature =>
        Some (dkim ++ trim (Dkim.fold_signature (List.length signature) true
                              signature))
    | None => None
    end
  /\ (exists (kept : list str) (val : str -> str),
        fieldNames canonical = join (lit ":") kept
        /\ block = join CRLF (map (fun k => k ++ lit ":" ++ val k) kept)
                   ++ CRLF
        /\ (kept <> [] ->
            block = List.concat
                      (map (fun k => (k ++ lit ":" ++ val k) ++ CRLF) kept))
        /\ (kept = [] -> block = CRLF))
  /\ (exists tags,
        dkim = Dkim.foldLines (lit "DKIM-Signature: " ++ tags) 76 false
               ++ lit ";" ++ CRLF ++ lit " b=")
  /\ name_of dkim = lit "dkim-signature"
  /\ (exists v, value_of dkim = v ++ lit "; b=")
  /\ (forall x, signed <> x ++ CRLF)
  /\ (forall (signer : str -> str -> option str) o',
        Dkim.domainName o' = Dkim.domainName o ->
        Dkim.keySelector o' = Dkim.keySelector o ->
        Dkim.headerFieldNames o' = Dkim.headerFieldNames o ->
        Dkim.DKIMSign proto_to_string sha256_base64 toASCIIDomain signer
          email o'
        = match signer signed (Dkim.privateKey o') with
          | Some signature =>
              Some (dkim ++ trim (Dkim.fold_signature (List.length signature)
                                    true signature))
          | None => None
          end).
Proof.
  intros canonical block dkim signed.
  pose proof (signed_data_parts proto_to_string sha256_base64 toASCIIDomain
                email o) as P.
  cbv zeta in P. fold dkim in P. fold canonical in P. fold block in P.
  destruct P as [T [N [V [S [E D]]]]]. fold signed in S.
  assert (G : forall (signer : str -> str -> option str) o',
        Dkim.domainName o' = Dkim.domainName o ->
        Dkim.keySelector o' = Dkim.keySelector o ->
        Dkim.headerFieldNames o' = Dkim.headerFieldNames o ->
        Dkim.DKIMSign proto_to_string sha256_base64 toASCIIDomain signer
          email o'
        = match signer signed (Dkim.privateKey o') with
          | Some signature =>
              Some (dkim ++ trim (Dkim.fold_signature (List.length signature)
                                    true signature))
          | None => None
          end).
  { intros signer o' E1 E2 E3. unfold Dkim.DKIMSign.
    rewrite (D o' E1 E2 E3), S.
    replace (Dkim.dkim_header proto_to_string sha256_base64 toASCIIDomain
               email o') with dkim; [reflexivity|].
    unfold dkim, Dkim.dkim_header, Dkim.effective_field_names.
    rewrite E1, E2, E3. reflexivity. }
  split; [apply G; reflexivity|].
  split.
  { unfold block, canonical, relaxedHeaders. rewrite select_filter.
    set (inc := includedFields_of (Dkim.effective_field_names o)).
    set (F := snd (join_lines inc (fst (Dkim.split_email email)))).
    exists (filter (fun k => truthy (lookup F k)) inc),
           (fun k => to_string proto_to_string (lookup F k)).
    cbn [DKIMCanonicalizer.headers fieldNames].
    split; [reflexivity|]. split; [reflexivity|]. split.
    - intros K. rewrite join_concat.
      + rewrite map_map. reflexivity.
      + destruct (filter _ inc); [congruence | discriminate].
    - intros ->. reflexivity. }
  split; [assumption|]. split; [assumption|]. split; [assumption|].
  split; [rewrite <- S; assumption | exact G].
Qed.

(** The counterexample to claim C8 as it was stated: an e-mail none of
    whose headers is among the names to sign.  No header is selected, and
    the string handed to the signer starts with a CR LF that follows no
    header. *)
Lemma signed_string_starts_with_CRLF :
  fieldNames
    (relaxedHeaders node_proto_to_string
       (fst (Dkim.split_email Scenario.unlisted))
       (Dkim.effective_field_names Scenario.home_options)) = []
  /\ Dkim.signed_data node_proto_to_string Scenario.hash
       Scenario.ascii_domain Scenario.unlisted Scenario.home_options
     = CRLF
       ++ lit ("dkim-signature:v=1; a=rsa-sha256; c=relaxed/relaxed; " ++
               "d=home.org; q=dns/txt; s=default; " ++
               "bh=47DEQpj8HBSa+/TImW+5JCeuQeRkm5NMpJWZG3hSuFU=; h=; b=")%string
  /\ Dkim.DKIMSign node_proto_to_string Scenario.hash Scenario.ascii_domain
       (Scenario.sign_only
          (CRLF
           ++ lit ("dkim-signature:v=1; a=rsa-sha256; c=relaxed/relaxed; " ++
                   "d=home.org; q=dns/txt; s=default; " ++
                   "bh=47DEQpj8HBSa+/TImW+5JCeuQeRkm5NMpJWZG3hSuFU=; h=; b=")%string))
       Scenario.unlisted Scenario.home_options
     <> None.
Proof.
  split; [vm_compute; reflexivity|]. split; [vm_compute; reflexivity|].
  vm_compute. discriminate.
Qed.

Import Postman.

(** Claim C9.  A lookup is decided by whichever comes first, the timer or
    the answer of the resolver.  When the answer comes first and lists at
    least one record, [getMailExchange] is fulfilled with the exchange of a
    record of least priority (of the first such record).  It is rejected
    exactly when the first event is the timer, an error of the resolver, or
    an answer with no record; with no event it stays pending. *)
Theorem getMailExchange_outcome (domain : str) (timeout : N) :
  (forall a l rest,
      exists m before after,
        getMailExchange domain timeout (DnsAnswer (Some (a :: l)) :: rest)
        = Fulfilled (exchange m)
        /\ a :: l = before ++ m :: after
        /\ (forall r, In r (a :: l) -> priority m <= priority r)
        /\ (forall r, In r before -> priority m < priority r))
  /\ (forall evs e,
        getMailExchange domain timeout evs = Rejected e <->
        exists rest,
          (evs = TimerFired :: rest /\ e = DnsTimedOut timeout)
          \/ (exists msg, evs = DnsError msg :: rest /\ e = DnsFailed domain msg)
          \/ ((evs = DnsAnswer None :: rest \/ evs = DnsAnswer (Some []) :: rest)
              /\ e = NoMxRecords domain))
  /\ getMailExchange domain timeout [] = Pending.
Proof.
  assert (A : forall a l rest,
      exists m before after,
        getMailExchange domain timeout (DnsAnswer (Some (a :: l)) :: rest)
        = Fulfilled (exchange m)
        /\ a :: l = before ++ m :: after
        /\ (forall r, In r (a :: l) -> priority m <= priority r)
        /\ (forall r, In r before -> priority m < priority r)).
  { intros a l rest. rewrite getMailExchange_first.
    destruct (sort_by_priority_head a l)
      as [m [tl [E [_ [Hmin [before [after [Hs Hb]]]]]]]].
    exists m, before, after. repeat split; try assumption.
    unfold getMailExchange. simpl.
    change (insert_by_priority a (sort_by_priority l))
      with (sort_by_priority (a :: l)).
    rewrite E. reflexivity. }
  split; [exact A|]. split; [|reflexivity].
  intros evs e. split.
  - destruct evs as [|ev rest]; [discriminate|].
    rewrite getMailExchange_first. intros H. exists rest.
    destruct ev as [| msg | [[|a l]|]].
    + left. injection H as <-. auto.
    + right. left. exists msg. injection H as <-. auto.
    + right. right. injection H as <-. auto.
    + exfalso. destruct (A a l []) as [m [b [c [E _]]]].
      rewrite E in H. discriminate.
    + right. right. injection H as <-. auto.
  - intros [rest [[-> ->] | [[msg [-> ->]] | [[->| ->] ->]]]];
      rewrite getMailExchange_first; reflexivity.
Qed.




Import WireText.

(** Claim C4 (corrected).  Every bcc recipient is in one of the groups, and
    the session of that group sends [RCPT TO] for it when the server answers
    250 to the EHLO sent over TLS.  But the bcc recipients are NOT hidden:
    [createEmailMessage] writes a [BCC:] header line, listing every bcc
    recipient, between the To (or CC) line and the Subject line of the
    payload. *)
Theorem bcc_in_RCPT_and_in_header
    (proto_to_string sha256_base64 toASCIIDomain : str -> str)
    (rsa_sha256_base64 : str -> str -> option str)
    (dns : str -> list mx_event) (e : SendEnvelope) (timeout : N)
    (groups : list RecipientGroup) (b : str) :
  getRecipientsByMx dns e timeout = Groups groups ->
  In b (bcc_list e) ->
  (exists g,
      In g groups /\ In b (recipients g)
      /\ forall dkim s data,
           tlsGreeted s = Some false -> tls_live s = true ->
           code_is (parseInt (substr data 0 3)) 250 = true ->
           In (Tls, lit "RCPT TO:<" ++ b ++ lit ">" ++ CRLF)
             (written
                (step proto_to_string sha256_base64 toASCIIDomain
                   rsa_sha256_base64 e dkim g s (TlsData data))))
  /\ (forall amb dkim message,
        createEmailMessage proto_to_string sha256_base64 toASCIIDomain
          rsa_sha256_base64 amb e dkim = inl message ->
        exists a signature cc_line rest x y,
          bcc e = Some a
          /\ message
             = signature
               ++ (lit "Message-ID: "
                   ++ generateMessageId amb (domain_of (from e)) ++ CRLF
                   ++ lit "From: " ++ from e ++ CRLF
                   ++ lit "To: " ++ formatAddresses (to e) ++ CRLF
                   ++ cc_line)
               ++ (lit "BCC: " ++ formatAddresses a ++ CRLF)
               ++ (lit "Subject: " ++ subject e ++ CRLF)
               ++ rest
          /\ (cc_line = []
              \/ exists c, cc_line = lit "CC: " ++ formatAddresses c ++ CRLF)
          /\ formatAddresses a = x ++ b ++ y).
Proof.
  intros G Hb.
  assert (Hall : In b (allRecipients e)).
  { unfold allRecipients. apply in_or_app. right. apply in_or_app. right.
    exact Hb. }
  destruct (getRecipientsByMx_groups_cover _ _ _ _ G b Hall) as [g [Hg Hin]].
  split.
  - exists g. split; [assumption|]. split; [assumption|].
    intros dkim s data T L C. unfold step. rewrite T, L.
    rewrite on_tls_data_envelope by assumption.
    apply in_or_app. right. apply in_or_app. right. apply in_or_app. left.
    apply (in_map (fun r => (Tls, lit "RCPT TO:<" ++ r ++ lit ">" ++ CRLF))).
    assumption.
  - intros amb dkim message M.
    destruct (createEmailMessage_shape _ _ _ _ _ _ _ _ M)
      as [signature [parts [-> _]]].
    assert (B : exists a, bcc e = Some a /\ given (Some a) = true
                          /\ exists x y, formatAddresses a = x ++ b ++ y).
    { unfold bcc_list in Hb. destruct (bcc e) as [[a|l]|]; [| |destruct Hb].
      - destruct a as [|c a']; [destruct Hb|]. destruct Hb as [<-|[]].
        exists (One (c :: a')). split; [reflexivity|]. split; [reflexivity|].
        exists [], []. simpl. rewrite app_nil_r. reflexivity.
      - exists (Many l). split; [reflexivity|]. split; [reflexivity|].
        apply join_In_middle. assumption. }
    destruct B as [a [Ba [Bg [x [y Bf]]]]].
    exists a, signature.
    exists (match cc e with
            | Some c => if given (Some c)
                        then lit "CC: " ++ formatAddresses c ++ CRLF else []
            | None => []
            end).
    eexists. exists x, y. split; [assumption|]. split; [|split; [|assumption]].
    + unfold message_head. rewrite Ba, Bg. rewrite <- !app_assoc.
      reflexivity.
    + destruct (cc e) as [c|]; [|left; reflexivity].
      destruct (given (Some c)); [right; exists c|left]; reflexivity.
Qed.

Lemma bcc_in_RCPT_and_in_header_witness :
  exists g,
    In g [Scenario.ex1; Scenario.ex2]
    /\ In (lit "c@ex2.com") (recipients g)
    /\ In (Tls, lit "RCPT TO:<c@ex2.com>" ++ CRLF)
         (written
            (step node_proto_to_string Scenario.hash Scenario.ascii_domain
               Scenario.sign Scenario.s4 None g
               (run node_proto_to_string Scenario.hash Scenario.ascii_domain
                  Scenario.sign Scenario.s4 None g
                  [ClientData (lit "220 mx"); ClientData (lit "250-STARTTLS");
                   ClientData (lit "220 TLS"); TlsSecure])
               (TlsData (lit "250 OK")))).
Proof.
  destruct (proj1 (bcc_in_RCPT_and_in_header node_proto_to_string
                     Scenario.hash Scenario.ascii_domain Scenario.sign
                     Scenario.dns Scenario.s4 10000
                     [Scenario.ex1; Scenario.ex2] (lit "c@ex2.com")
                     eq_refl (or_introl eq_refl)))
    as [g [H1 [H2 H3]]].
  exists g. split; [assumption|]. split; [assumption|].
  apply H3; reflexivity.
Defined.

(** Counterexample to claim C4 as stated: in scenario S4 the address of the
    bcc recipient is in the header section of the payload (the text before
    its first empty line). *)
Lemma bcc_address_in_payload_header :
  exists message,
    createEmailMessage node_proto_to_string Scenario.hash
      Scenario.ascii_domain Scenario.sign Scenario.ambient Scenario.s4 None
    = inl message
    /\ str_includes (lit "BCC: c@ex2.com")
         (fst (Dkim.split_email message)) = true.
Proof. eexists. split; vm_compute; reflexivity. Qed.

(** Claim C5 (corrected).  The code does no dot-stuffing.  After a 354 the
    payload is written to the socket exactly as [createEmailMessage] built
    it, followed by a separate write of "." CR LF; the payload ends with
    CR LF, so what is written ends with CR LF "." CR LF. *)
Theorem payload_written_verbatim
    (proto_to_string sha256_base64 toASCIIDomain : str -> str)
    (rsa_sha256_base64 : str -> str -> option str)
    (sendOptions : SendEnvelope) (dkim : option DKIMOptions)
    (group : RecipientGroup) (s : session) (g : bool) (data : str)
    (amb : Ambient) (message : str) :
  tlsGreeted s = Some g -> tls_live s = true -> tls_ended s = false ->
  code_is (parseInt (substr data 0 3)) 354 = true ->
  createEmailMessage proto_to_string sha256_base64 toASCIIDomain
    rsa_sha256_base64 amb sendOptions dkim = inl message ->
  written
    (step proto_to_string sha256_base64 toASCIIDomain rsa_sha256_base64
       sendOptions dkim group
       (step proto_to_string sha256_base64 toASCIIDomain rsa_sha256_base64
          sendOptions dkim group s (TlsData data))
       (MessageBuilt amb))
  = written s ++ [(Tls, message); (Tls, lit "." ++ CRLF)]
  /\ (exists x, message ++ lit "." ++ CRLF = x ++ CRLF ++ lit "." ++ CRLF).
Proof.
  intros G L E C M. split.
  - apply data_then_message with (g := g); assumption.
  - destruct (createEmailMessage_shape _ _ _ _ _ _ _ _ M)
      as [signature [parts [-> _]]].
    generalize (message_head amb sendOptions) as head. intros head.
    exists (signature ++ head ++ parts ++ lit "--"
            ++ (lit "--boundary_" ++ mixedHex amb) ++ lit "--").
    repeat rewrite <- app_assoc. reflexivity.
Qed.

Lemma payload_written_verbatim_witness :
  exists message,
    written
      (step node_proto_to_string Scenario.hash Scenario.ascii_domain
         Scenario.sign Scenario.dot_body None Scenario.ex1_only
         (step node_proto_to_string Scenario.hash Scenario.ascii_domain
            Scenario.sign Scenario.dot_body None Scenario.ex1_only
            (run node_proto_to_string Scenario.hash Scenario.ascii_domain
               Scenario.sign Scenario.dot_body None Scenario.ex1_only
               Scenario.handshake)
            (TlsData (lit "354 Go ahead")))
         (MessageBuilt Scenario.ambient))
    = written
        (run node_proto_to_string Scenario.hash Scenario.ascii_domain
           Scenario.sign Scenario.dot_body None Scenario.ex1_only
           Scenario.handshake)
      ++ [(Tls, message); (Tls, lit "." ++ CRLF)].
Proof.
  eexists.
  refine (proj1 (payload_written_verbatim node_proto_to_string
                   Scenario.hash Scenario.ascii_domain Scenario.sign
                   Scenario.dot_body None Scenario.ex1_only
                   (run node_proto_to_string Scenario.hash
                      Scenario.ascii_domain Scenario.sign Scenario.dot_body
                      None Scenario.ex1_only Scenario.handshake)
                   true (lit "354 Go ahead") Scenario.ambient _
                   _ _ _ _ _)); vm_compute; reflexivity.
Defined.

(** Counterexample to claim C5 as stated: the body line "." goes to the
    wire as it is.  What the session writes after DATA is the payload
    itself, which holds the line "." between two CR LF and differs from its
    dot-stuffed form. *)
Lemma dot_line_is_not_doubled :
  exists message,
    createEmailMessage node_proto_to_string Scenario.hash
      Scenario.ascii_domain Scenario.sign Scenario.ambient Scenario.dot_body
      None
    = inl message
    /\ tls_written
         (run node_proto_to_string Scenario.hash Scenario.ascii_domain
            Scenario.sign Scenario.dot_body None Scenario.ex1_only
            (Scenario.handshake
             ++ [TlsData (lit "354 Go ahead"); MessageBuilt Scenario.ambient]))
       = [lit "EHLO mx.ex1.com" ++ CRLF;
          lit "MAIL FROM:<me@home.org>" ++ CRLF;
          lit "RCPT TO:<a@ex1.com>" ++ CRLF;
          lit "DATA" ++ CRLF;
          message;
          lit "." ++ CRLF]
    /\ str_includes (CRLF ++ lit "." ++ CRLF) message = true
    /\ dot_stuffed message <> message.
Proof.
  eexists. split; [vm_compute; reflexivity|].
  split; [vm_compute; reflexivity|].
  split; [vm_compute; reflexivity|]. apply str_eqb_neq. vm_compute. reflexivity.
Qed.

End Claims.

(* ================================================================== *)
(** * Part IV: further properties of the code                          *)
(* ================================================================== *)

Module Extras.

Import Text HeaderText GroupText WireText DKIMCanonicalizer.

(** Extra X1.  [foldLines] only inserts line breaks: its result is the
    input with CR LF inserted at some places, no character lost, changed or
    moved, whatever the line length and the [afterSpace] flag. *)
Theorem foldLines_only_inserts_CRLF (s : str) (lineLength : nat)
    (afterSpace : bool) :
  folded s (Dkim.foldLines s lineLength afterSpace).
Proof.
  unfold Dkim.foldLines. apply foldLines_loop_folded.
  - destruct (lineLength =? 0) eqn:E; [lia|]. apply Nat.eqb_neq in E. lia.
  - lia.
Qed.

(** Extra X2.  A string shorter than the line length (76 when the length
    given is 0) is returned unchanged. *)
Theorem foldLines_short_unchanged (s : str) (lineLength : nat)
    (afterSpace : bool) :
  List.length s < (if lineLength =? 0 then 76 else lineLength) ->
  Dkim.foldLines s lineLength afterSpace = s.
Proof.
  intros H. unfold Dkim.foldLines. cbn [Dkim.foldLines_loop].
  destruct s as [|c t] eqn:E; [reflexivity|]. cbn [is_nil]. rewrite <- E in *.
  rewrite firstn_all2 by lia.
  replace (List.length s <? (if lineLength =? 0 then 76 else lineLength))
    with true by (symmetry; apply Nat.ltb_lt; assumption).
  reflexivity.
Qed.

Lemma foldLines_short_unchanged_witness :
  Dkim.foldLines (lit "DKIM-Signature: v=1") 0 false
  = lit "DKIM-Signature: v=1".
Proof.
  apply (foldLines_short_unchanged (lit "DKIM-Signature: v=1") 0 false).
  simpl. lia.
Defined.

(** Extra X3.  The canonical form of a header line is a fixed point: when
    the canonical name, a colon and the canonical value are put together
    and canonicalised again, the same name and value come out. *)
Theorem relaxedHeaderLine_fixed_point (line : str) :
  relaxedHeaderLine
    (key (relaxedHeaderLine line) ++ lit ":" ++ value (relaxedHeaderLine line))
  = relaxedHeaderLine line.
Proof.
  unfold relaxedHeaderLine at 2 3 4.
  pose proof (split_on_pieces_free ":" line) as F.
  destruct (split_on ":" line) as [|k rest] eqn:E;
    [destruct (split_on_not_nil _ _ E)|].
  inversion F as [|? ? Hk _]; subst. cbn [key value].
  change (lit ":" ++ trim (collapse_ws (join (lit ":") rest)))
    with (":"%char :: trim (collapse_ws (join (lit ":") rest))).
  rewrite relaxedHeaderLine_colon by (apply canonical_key_no_colon; assumption).
  rewrite canonical_key_fixed, canonical_value_fixed. reflexivity.
Qed.

(** Extra X4.  Unfolding the header block only removes line breaks: the
    unfolded lines put together are the raw lines put together; and after
    unfolding no line but possibly the first starts with white space. *)
Theorem unfolded_keeps_text (headers : str) :
  List.concat (unfolded headers) = List.concat (split_newlines headers)
  /\ Forall (fun l => starts_with_space l = false) (tl (unfolded headers)).
Proof.
  destruct (unfolded_unfold_from headers) as [init [last [E ->]]]. split.
  - rewrite unfold_from_concat, E, rev_involutive, concat_app. simpl.
    rewrite !app_nil_r. reflexivity.
  - apply unfold_from_tail. constructor.
Qed.

(** Extra X5.  Whatever the header block and the requested names, the kept
    names are requested names, in the order of the request, and the
    canonical block has one line per kept name, which starts with that name
    and a colon. *)
Theorem relaxedHeaders_keeps_requested_order (proto_to_string : str -> str)
    (headers names : str) :
  exists (keep : str -> bool) (val : str -> str),
    fieldNames (relaxedHeaders proto_to_string headers names)
    = join (lit ":") (filter keep (includedFields_of names))
    /\ DKIMCanonicalizer.headers (relaxedHeaders proto_to_string headers names)
       = join CRLF
           (map (fun k => k ++ lit ":" ++ val k)
              (filter keep (includedFields_of names)))
         ++ CRLF.
Proof.
  unfold relaxedHeaders. rewrite select_filter.
  set (F := snd (join_lines (includedFields_of names) headers)).
  exists (fun k => truthy (lookup F k)),
         (fun k => to_string proto_to_string (lookup F k)).
  split; reflexivity.
Qed.

(** Extra X6.  A requested name whose bottom-most header has an empty
    canonical value is left out, even when a header of that name higher up
    has a value. *)
Theorem relaxedHeaders_empty_bottom_value (proto_to_string : str -> str)
    (headers names : str) (pre : list str) (l : str) (post : list str) :
  unfolded headers = pre ++ l :: post ->
  Forall (fun m => name_of m <> name_of l) post ->
  Forall (fun n => inherited n = false) (includedFields_of names) ->
  value_of l = [] ->
  exists kept : list str,
    fieldNames (relaxedHeaders proto_to_string headers names)
    = join (lit ":") kept
    /\ DKIMCanonicalizer.headers (relaxedHeaders proto_to_string headers names)
       = join CRLF
           (map (fun k => k ++ lit ":" ++ selected_value k (unfolded headers))
              kept)
         ++ CRLF
    /\ ~ In (name_of l) kept.
Proof.
  intros Hlines Hpost Hinc Hval.
  rewrite relaxedHeaders_filter by assumption. cbv zeta.
  exists (filter (kept_name (unfolded headers)) (includedFields_of names)).
  split; [reflexivity|]. split; [reflexivity|].
  intros C. apply filter_In in C. destruct C as [_ C].
  unfold kept_name in C. rewrite Hlines in C.
  rewrite bottom_value_split in C by (reflexivity || assumption).
  rewrite Hval in C. discriminate.
Qed.

Lemma relaxedHeaders_empty_bottom_value_witness :
  exists kept : list str,
    fieldNames
      (relaxedHeaders node_proto_to_string
         (lit "Subject: Hi" ++ CRLF ++ lit "To: b@y" ++ CRLF ++ lit "Subject:")
         (lit "subject:to"))
    = join (lit ":") kept
    /\ ~ In (lit "subject") kept.
Proof.
  assert (I : Forall (fun n => inherited n = false)
                (includedFields_of (lit "subject:to")))
    by (repeat constructor).
  destruct (relaxedHeaders_empty_bottom_value node_proto_to_string
              (lit "Subject: Hi" ++ CRLF ++ lit "To: b@y" ++ CRLF
               ++ lit "Subject:")
              (lit "subject:to")
              [lit "Subject: Hi"; lit "To: b@y"] (lit "Subject:") []
              eq_refl (Forall_nil _) I eq_refl) as [kept [H1 [_ H2]]].
  exists kept. split; assumption.
Defined.

(** Extra X7.  [simpleBody] replaces the line breaks at the end of the body,
    whatever their number and kind, by one CR LF and changes nothing else;
    it is idempotent. *)
Theorem simpleBody_one_CRLF (body : str) :
  simpleBody (simpleBody body) = simpleBody body
  /\ exists x t,
       body = x ++ t /\ forallb newline_char t = true
       /\ simpleBody body = x ++ CRLF
       /\ (x = [] \/ exists y c, x = y ++ [c] /\ newline_char c = false).
Proof.
  unfold simpleBody. fold newline_char.
  change (fun c => Ascii.eqb c CR || Ascii.eqb c LF) with newline_char.
  split.
  - rewrite strip_trailing_app_all by reflexivity.
    rewrite strip_trailing_idem. reflexivity.
  - destruct (strip_trailing_removed newline_char body) as [t [E H]].
    exists (strip_trailing newline_char body), t.
    split; [assumption|]. split; [assumption|]. split; [reflexivity|].
    apply (proj1 (strip_trailing_fixed newline_char _)).
    apply strip_trailing_idem.
Qed.

(** Extra X8.  The relaxed body is a sequence of lines, each followed by
    CR LF; every line is in canonical form (no white space at its end, runs
    of white space collapsed to one space, no CR or LF inside); and the last
    line is not empty, unless the whole result is the lone CR LF. *)
Theorem relaxedBody_shape (body : str) :
  exists ls : list str,
    relaxedBody body = List.concat (map (fun l => l ++ CRLF) ls)
    /\ Forall (fun l => canon_line l = l /\ is_line l = true) ls
    /\ (ls = [[]] \/ exists init last, ls = init ++ [last] /\ last <> []).
Proof.
  rewrite relaxedBody_render. unfold render.
  set (L := map canon_line (split_on LF (replace_newlines body))).
  assert (HL : Forall (fun l => canon_line l = l /\ is_line l = true)
                 (strip_trailing is_nil L)).
  { apply Forall_strip_trailing. apply Forall_forall. intros x Hx.
    apply in_map_iff in Hx. destruct Hx as [l [<- _]].
    split; [apply canon_line_idem | apply canon_line_is_line]. }
  destruct (proj1 (strip_trailing_fixed is_nil (strip_trailing is_nil L))
              (strip_trailing_idem is_nil L)) as [E | [init [last [E N]]]].
  - exists [[]]. rewrite E. split; [reflexivity|].
    split; [|left; reflexivity]. repeat constructor.
  - exists (strip_trailing is_nil L). split; [|split; [assumption|]].
    + apply LF_to_CRLF_lines.
      * rewrite E. destruct init; discriminate.
      * eapply Forall_impl; [|exact HL]. intros l [_ Hl].
        apply is_line_no_LF. assumption.
    + right. exists init, last. split; [assumption|].
      apply is_nil_false. assumption.
Qed.

Import Postman.

(** Extra X9.  The sort of the MX records is a sort: the result is a
    rearrangement of the records, in ascending order of priority. *)
Theorem sort_by_priority_sorted (l : list MxRecord) :
  Permutation (sort_by_priority l) l
  /\ StronglySorted (fun a b => priority a <= priority b) (sort_by_priority l).
Proof.
  induction l as [|r l [P S]]; simpl.
  - split; constructor.
  - split.
    + rewrite insert_by_priority_perm. constructor. assumption.
    + apply insert_by_priority_sorted. assumption.
Qed.

(** Extra X10.  Grouping the recipients by domain throws exactly when the
    domain of some recipient is the name of a member of [Object.prototype]
    (such as "constructor" or "toString"): [getRecipientsByMx] is then
    rejected before any lookup. *)
Theorem grouping_throws_on_prototype_names (dns : str -> list mx_event)
    (e : SendEnvelope) (timeout : N) :
  (domain_groups e = None
   <-> exists r, In r (allRecipients e) /\ inherited (domain_of r) = true)
  /\ (domain_groups e = None ->
      getRecipientsByMx dns e timeout = Failed [NotAFunction]).
Proof.
  split.
  - unfold domain_groups.
    rewrite <- (group_all_fails [] (allRecipients e)) by constructor.
    destruct (group_all [] (allRecipients e)); split; congruence.
  - intros H. unfold getRecipientsByMx. rewrite H. reflexivity.
Qed.

Section Sessions.

Variable proto_to_string : str -> str.
Variable sha256_base64 : str -> str.
Variable toASCIIDomain : str -> str.
Variable rsa_sha256_base64 : str -> str -> option str.
Variable sendOptions : SendEnvelope.
Variable dkimOptions : option DKIMOptions.
Variable group : RecipientGroup.

Local Abbreviation step' :=
  (step proto_to_string sha256_base64 toASCIIDomain rsa_sha256_base64
     sendOptions dkimOptions group).
Local Abbreviation run' :=
  (run proto_to_string sha256_base64 toASCIIDomain rsa_sha256_base64
     sendOptions dkimOptions group).

(** Extra X11.  The promise of a session settles once: whatever the sockets
    deliver after it has been resolved or rejected, its outcome stays. *)
Theorem session_settles_once (evs more : list event) :
  outcome (run' evs) <> Pending ->
  outcome (run' (evs ++ more)) = outcome (run' evs).
Proof.
  intros H. unfold run. rewrite fold_left_app. apply run_settled. exact H.
Qed.

(** Extra X12.  Whatever the server sends, the plain socket only ever
    carries EHLO and STARTTLS, and nothing is written to the TLS socket
    unless STARTTLS was written before. *)
Theorem plain_socket_carries_no_mail (evs : list event) :
  (forall d, In (Plain, d) (written (run' evs)) ->
     plain_command (mxHost group) d)
  /\ (forall d, In (Tls, d) (written (run' evs)) ->
        In (Plain, lit "STARTTLS" ++ CRLF) (written (run' evs))).
Proof.
  destruct (run_clear_text_safe proto_to_string sha256_base64 toASCIIDomain
              rsa_sha256_base64 sendOptions dkimOptions group evs)
    as [A [_ [C D]]].
  split; [exact A|]. intros d H. apply C. apply (D d H).
Qed.

(** Extra X13.  Scenario S5: when the answer to EHLO does not offer
    STARTTLS, the session is rejected with 'Must accept TLS', and only the
    EHLO was ever written, whatever comes next. *)
Theorem refused_without_STARTTLS (greeting reply : str) (evs : list event) :
  code_is (parseInt (substr greeting 0 3)) 220 = true ->
  code_is (parseInt (substr reply 0 3)) 250 = true ->
  str_includes (lit "250-STARTTLS") reply = false ->
  outcome (run' (ClientData greeting :: ClientData reply :: evs))
  = Rejected MustAcceptTls
  /\ written (run' (ClientData greeting :: ClientData reply :: evs))
     = [(Plain, lit "EHLO " ++ mxHost group ++ CRLF)].
Proof.
  intros G R N. unfold run. cbn [fold_left].
  assert (S1 : step' start (ClientData greeting)
               = write Plain (lit "EHLO " ++ mxHost group ++ CRLF)
                   (disarm start)).
  { unfold step. cbn [client_destroyed tlsGreeted start].
    unfold on_client_data. cbv zeta. rewrite G. reflexivity. }
  rewrite S1.
  assert (S2 : step' (write Plain (lit "EHLO " ++ mxHost group ++ CRLF)
                        (disarm start)) (ClientData reply)
               = settle (reject MustAcceptTls)
                   (destroy_client
                      (set_greeted
                         (disarm
                            (write Plain (lit "EHLO " ++ mxHost group ++ CRLF)
                               (disarm start)))))).
  { unfold step. cbn [client_destroyed tlsGreeted start write disarm].
    unfold on_client_data. cbv zeta.
    rewrite (code_is_exclusive _ 250 220 R) by discriminate.
    rewrite R, N. reflexivity. }
  rewrite S2. split.
  - rewrite run_settled; [reflexivity | discriminate].
  - rewrite dead_run; reflexivity.
Qed.

(** Extra X14.  A conversation that goes through.  The server greets with
    a 220, answers EHLO with a 250 that holds "250-STARTTLS" and STARTTLS
    with a 220 that holds "TLS"; over TLS it answers EHLO with a 250, sends
    any number of replies that are neither a 354, nor a 250 that holds
    "2.0.0", nor 500 or more, then a 354, and, after the message, a 250
    that holds "2.0.0".  Then the session writes EHLO and STARTTLS in
    clear, and over TLS: EHLO, MAIL FROM, one RCPT TO per recipient of the
    group, DATA, the message, the line with the dot and QUIT; and it is
    fulfilled with 'Email sent successfully'. *)
Theorem accepting_server_transcript (greeting offer ready hello : str)
    (acks : list str) (go : str) (amb : Ambient) (queued message : str) :
  code_is (code_of greeting) 220 = true ->
  code_is (code_of offer) 250 = true ->
  str_includes (lit "250-STARTTLS") offer = true ->
  code_is (code_of ready) 220 = true ->
  str_includes (lit "TLS") ready = true ->
  code_is (code_of hello) 250 = true ->
  forallb passive acks = true ->
  code_is (code_of go) 354 = true ->
  code_is (code_of queued) 250 = true ->
  str_includes (lit "2.0.0") queued = true ->
  createEmailMessage proto_to_string sha256_base64 toASCIIDomain
    rsa_sha256_base64 amb sendOptions dkimOptions = inl message ->
  written
    (run' ([ClientData greeting; ClientData offer; ClientData ready;
            TlsSecure; TlsData hello]
           ++ map TlsData acks
           ++ [TlsData go; MessageBuilt amb; TlsData queued]))
  = [(Plain, lit "EHLO " ++ mxHost group ++ CRLF);
     (Plain, lit "STARTTLS" ++ CRLF);
     (Tls, lit "EHLO " ++ mxHost group ++ CRLF);
     (Tls, lit "MAIL FROM:<" ++ from sendOptions ++ lit ">" ++ CRLF)]
    ++ map (fun r => (Tls, lit "RCPT TO:<" ++ r ++ lit ">" ++ CRLF))
         (recipients group)
    ++ [(Tls, lit "DATA" ++ CRLF); (Tls, message); (Tls, lit "." ++ CRLF);
        (Tls, lit "QUIT" ++ CRLF)]
  /\ outcome
       (run' ([ClientData greeting; ClientData offer; ClientData ready;
               TlsSecure; TlsData hello]
              ++ map TlsData acks
              ++ [TlsData go; MessageBuilt amb; TlsData queued]))
     = Fulfilled sent.
Proof.
  intros G O1 O2 R1 R2 H A Go Q1 Q2 M.
  change ([ClientData greeting; ClientData offer; ClientData ready;
           TlsSecure; TlsData hello]
          ++ map TlsData acks
          ++ [TlsData go; MessageBuilt amb; TlsData queued])
    with (conversation greeting offer ready hello acks go amb queued).
  rewrite (conversation_delivers proto_to_string sha256_base64
             toASCIIDomain rsa_sha256_base64 sendOptions dkimOptions group
             greeting offer ready hello acks go amb queued message
             G O1 O2 R1 R2 H A Go Q1 Q2 M).
  split; [|reflexivity].
  unfold delivered, envelope_commands. cbn [written].
  rewrite <- !app_assoc. reflexivity.
Qed.

(** Extra X15.  The connection timeout only guards the wait for the first
    data: a timeout before anything arrived rejects the session with
    'Operation timed out' and nothing is written; once data has arrived, a
    timeout changes nothing. *)
Theorem timeout_only_before_first_data (data : str) (evs : list event) :
  (outcome (run' (ClientTimeout :: evs)) = Rejected OperationTimedOut
   /\ written (run' (ClientTimeout :: evs)) = [])
  /\ step' (run' (ClientData data :: evs)) ClientTimeout
     = run' (ClientData data :: evs).
Proof.
  split.
  - unfold run. cbn [fold_left].
    change (step' start ClientTimeout)
      with (settle (reject OperationTimedOut) (destroy_client start)).
    split.
    + rewrite run_settled; [reflexivity | discriminate].
    + rewrite dead_run; reflexivity.
  - unfold run. cbn [fold_left].
    pose proof (run_disarmed proto_to_string sha256_base64 toASCIIDomain
                  rsa_sha256_base64 sendOptions dkimOptions group evs _
                  (first_data_disarms proto_to_string sha256_base64
                     toASCIIDomain rsa_sha256_base64 sendOptions dkimOptions
                     group data)) as D.
    unfold step at 1. rewrite D. rewrite orb_true_r. reflexivity.
Qed.

End Sessions.

Lemma session_settles_once_witness :
  outcome (run node_proto_to_string Scenario.hash Scenario.ascii_domain
             Scenario.sign Scenario.s4 None Scenario.ex1
             ([ClientTimeout] ++ Scenario.accepting))
  = outcome (run node_proto_to_string Scenario.hash Scenario.ascii_domain
               Scenario.sign Scenario.s4 None Scenario.ex1 [ClientTimeout]).
Proof.
  apply (session_settles_once node_proto_to_string Scenario.hash
           Scenario.ascii_domain Scenario.sign Scenario.s4 None Scenario.ex1
           [ClientTimeout] Scenario.accepting).
  vm_compute. discriminate.
Defined.

Lemma refused_without_STARTTLS_witness :
  outcome (run node_proto_to_string Scenario.hash Scenario.ascii_domain
             Scenario.sign Scenario.s4 None Scenario.ex1
             [ClientData (lit "220 mx ESMTP" ++ CRLF);
              ClientData (lit "250 mx" ++ CRLF)])
  = Rejected MustAcceptTls
  /\ written (run node_proto_to_string Scenario.hash Scenario.ascii_domain
                Scenario.sign Scenario.s4 None Scenario.ex1
                [ClientData (lit "220 mx ESMTP" ++ CRLF);
                 ClientData (lit "250 mx" ++ CRLF)])
     = [(Plain, lit "EHLO " ++ mxHost Scenario.ex1 ++ CRLF)].
Proof.
  apply (refused_without_STARTTLS node_proto_to_string Scenario.hash
           Scenario.ascii_domain Scenario.sign Scenario.s4 None Scenario.ex1
           (lit "220 mx ESMTP" ++ CRLF) (lit "250 mx" ++ CRLF) []);
    vm_compute; reflexivity.
Defined.

Lemma accepting_server_transcript_witness :
  exists message,
    written (run node_proto_to_string Scenario.hash Scenario.ascii_domain
               Scenario.sign Scenario.s4 None Scenario.ex1
               (accepting_script Scenario.ambient))
    = [(Plain, lit "EHLO " ++ mxHost Scenario.ex1 ++ CRLF);
       (Plain, lit "STARTTLS" ++ CRLF);
       (Tls, lit "EHLO " ++ mxHost Scenario.ex1 ++ CRLF);
       (Tls, lit "MAIL FROM:<" ++ from Scenario.s4 ++ lit ">" ++ CRLF)]
      ++ map (fun r => (Tls, lit "RCPT TO:<" ++ r ++ lit ">" ++ CRLF))
           (recipients Scenario.ex1)
      ++ [(Tls, lit "DATA" ++ CRLF); (Tls, message); (Tls, lit "." ++ CRLF);
          (Tls, lit "QUIT" ++ CRLF)]
    /\ outcome (run node_proto_to_string Scenario.hash Scenario.ascii_domain
                  Scenario.sign Scenario.s4 None Scenario.ex1
                  (accepting_script Scenario.ambient))
       = Fulfilled sent.
Proof.
  eexists.
  refine (accepting_server_transcript node_proto_to_string Scenario.hash
            Scenario.ascii_domain Scenario.sign Scenario.s4 None Scenario.ex1
            (lit "220 mx ESMTP" ++ CRLF)
            (lit "250-mx" ++ CRLF ++ lit "250-STARTTLS" ++ CRLF
             ++ lit "250 OK" ++ CRLF)
            (lit "220 2.0.0 Ready to start TLS" ++ CRLF)
            (lit "250-mx" ++ CRLF ++ lit "250 OK" ++ CRLF)
            [lit "250 2.1.0 OK" ++ CRLF; lit "250 2.1.5 OK" ++ CRLF]
            (lit "354 Go ahead" ++ CRLF) Scenario.ambient
            (lit "250 2.0.0 OK queued" ++ CRLF) _
            _ _ _ _ _ _ _ _ _ _ _); vm_compute; reflexivity.
Defined.

(** Extra X16.  [send] is fulfilled only with 'Email sent successfully', and
    only when the lookups gave the groups and the session of every group,
    in its turn, was fulfilled, which it is only after writing QUIT. *)
Theorem delivered_after_every_QUIT (proto_to_string : str -> str)
    (sha256_base64 toASCIIDomain : str -> str)
    (rsa_sha256_base64 : str -> str -> option str)
    (options : PostmanOptions) (w : World) (e : SendEnvelope) (m : str) :
  send proto_to_string sha256_base64 toASCIIDomain rsa_sha256_base64
    options w e = Delivered m ->
  m = sent
  /\ exists groups,
       getRecipientsByMx (dns w) e
         (match mxLookupTimeout options with
          | Some t => t
          | None => DEFAULT_MX_LOOKUP_TIMEOUT
          end) = Groups groups
       /\ forall i g, nth_error groups i = Some g ->
            outcome (run proto_to_string sha256_base64 toASCIIDomain
                       rsa_sha256_base64 e (dkim options) g (net w i))
            = Fulfilled sent
            /\ In (Tls, lit "QUIT" ++ CRLF)
                 (written (run proto_to_string sha256_base64 toASCIIDomain
                             rsa_sha256_base64 e (dkim options) g (net w i))).
Proof.
  unfold send. intros H.
  destruct (getRecipientsByMx _ _ _) as [groups| |]; try discriminate.
  destruct (send_groups_delivered _ _ _ _ _ _ _ _ _ _ H) as [-> F].
  split; [reflexivity|]. exists groups. split; [reflexivity|].
  intros i g Hg. pose proof (F i g Hg) as O. simpl in O.
  split; [assumption|].
  apply (run_quit_sent _ _ _ _ _ _ _ _ _ O).
Qed.

Lemma delivered_after_every_QUIT_witness :
  sent = sent
  /\ exists groups,
       getRecipientsByMx (dns Scenario.world) Scenario.s4
         (match mxLookupTimeout Scenario.defaults with
          | Some t => t
          | None => DEFAULT_MX_LOOKUP_TIMEOUT
          end) = Groups groups
       /\ forall i g, nth_error groups i = Some g ->
            outcome (run node_proto_to_string Scenario.hash
                       Scenario.ascii_domain Scenario.sign Scenario.s4
                       (dkim Scenario.defaults) g (net Scenario.world i))
            = Fulfilled sent
            /\ In (Tls, lit "QUIT" ++ CRLF)
                 (written (run node_proto_to_string Scenario.hash
                             Scenario.ascii_domain Scenario.sign Scenario.s4
                             (dkim Scenario.defaults) g
                             (net Scenario.world i))).
Proof.
  apply (delivered_after_every_QUIT node_proto_to_string Scenario.hash
           Scenario.ascii_domain Scenario.sign Scenario.defaults
           Scenario.world Scenario.s4 sent).
  vm_compute. reflexivity.
Defined.

(** Extra X17.  [send] stops at the first group whose session is rejected:
    it is rejected with that reason, and the later groups get no session. *)
Theorem send_stops_at_first_failure (proto_to_string : str -> str)
    (sha256_base64 toASCIIDomain : str -> str)
    (rsa_sha256_base64 : str -> str -> option str)
    (options : PostmanOptions) (w : World) (e : SendEnvelope)
    (pre : list RecipientGroup) (g : RecipientGroup)
    (post : list RecipientGroup) (reason : error) :
  getRecipientsByMx (dns w) e
    (match mxLookupTimeout options with
     | Some t => t
     | None => DEFAULT_MX_LOOKUP_TIMEOUT
     end) = Groups (pre ++ g :: post) ->
  (forall j g', nth_error pre j = Some g' ->
     outcome (run proto_to_string sha256_base64 toASCIIDomain
                rsa_sha256_base64 e (dkim options) g' (net w j))
     = Fulfilled sent) ->
  outcome (run proto_to_string sha256_base64 toASCIIDomain
             rsa_sha256_base64 e (dkim options) g (net w (List.length pre)))
  = Rejected reason ->
  send proto_to_string sha256_base64 toASCIIDomain rsa_sha256_base64
    options w e = Refused [reason].
Proof.
  intros G F R. unfold send. rewrite G.
  rewrite send_groups_stops by exact F.
  simpl. rewrite R. reflexivity.
Qed.

Lemma send_stops_at_first_failure_witness :
  send node_proto_to_string Scenario.hash Scenario.ascii_domain Scenario.sign
    Scenario.defaults Scenario.hostile_world Scenario.s4
  = Refused [TlsError (lit "550 no" ++ CRLF)].
Proof.
  apply (send_stops_at_first_failure node_proto_to_string Scenario.hash
           Scenario.ascii_domain Scenario.sign Scenario.defaults
           Scenario.hostile_world Scenario.s4 [] Scenario.ex1 [Scenario.ex2]).
  - vm_compute. reflexivity.
  - intros [|j] g' H; discriminate H.
  - vm_compute. reflexivity.
Defined.

(** Extra X18.  [DKIMSign] cuts the e-mail into headers, a separator and
    the rest; the body is the rest, except that an empty rest makes the
    whole e-mail the body.  When the e-mail starts with a line break (LF or
    CR LF), the headers are empty and the separator is that line break.
    Otherwise the separator is the first blank line of the e-mail (two line
    breaks in a row, each LF or CR LF): no blank line starts before it.
    When the e-mail neither starts with a line break nor holds a blank line,
    there are no headers and the whole e-mail is the body. *)
Theorem split_email_parts (email : str) :
  exists sep rest,
    email = fst (Dkim.split_email email) ++ sep ++ rest
    /\ snd (Dkim.split_email email) = (if is_nil rest then email else rest)
    /\ ((fst (Dkim.split_email email) = [] /\ (sep = [LF] \/ sep = CRLF))
        \/ ((forall t, email <> LF :: t /\ email <> CR :: LF :: t)
            /\ In sep blank_lines
            /\ forall h' sep' rest',
                 In sep' blank_lines -> email = h' ++ sep' ++ rest' ->
                 List.length (fst (Dkim.split_email email))
                 <= List.length h')
        \/ ((forall t, email <> LF :: t /\ email <> CR :: LF :: t)
            /\ (forall h' sep' rest',
                  In sep' blank_lines -> email <> h' ++ sep' ++ rest')
            /\ sep = [] /\ fst (Dkim.split_email email) = []
            /\ rest = email)).
Proof.
  unfold Dkim.split_email, Dkim.header_body_match.
  destruct (Dkim.newline_token email) as [n|] eqn:N.
  - destruct (newline_token_cases _ _ N) as [C L].
    exists (firstn n email), (skipn n email). cbn [fst snd].
    unfold substr, substr_from. cbn [skipn firstn Nat.add app].
    split; [symmetry; apply firstn_skipn|]. split; [reflexivity|].
    left. split; [reflexivity | exact C].
  - pose proof (newline_token_none _ N) as S0.
    destruct (Dkim.find_blank_line email) as [[i n]|] eqn:F.
    + destruct (find_blank_line_at _ _ _ F) as [B Li].
      destruct (blank_line_token_cases _ _ B) as [C L].
      exists (firstn n (skipn i email)), (skipn (i + n) email).
      cbn [fst snd]. unfold substr, substr_from. cbn [skipn].
      split.
      * rewrite (Nat.add_comm i n), <- skipn_skipn.
        rewrite firstn_skipn, firstn_skipn. reflexivity.
      * split; [reflexivity|]. right. left.
        split; [exact S0|]. split; [exact C|].
        intros h' sep' rest' Hs E.
        rewrite length_firstn.
        destruct (Nat.le_gt_cases i (List.length h')) as [Le|Gt]; [lia|].
        pose proof (find_blank_line_first _ _ _ F _ Gt) as X.
        rewrite E, skipn_prefix in X.
        rewrite (blank_line_token_sep _ _ Hs) in X. discriminate.
    + exists [], email. cbn [fst snd app].
      split; [reflexivity|]. split; [destruct email; reflexivity|].
      right. right. split; [exact S0|]. split; [|auto].
      intros h' sep' rest' Hs E.
      pose proof (find_blank_line_none _ F (List.length h')) as X.
      rewrite E, skipn_prefix in X.
      rewrite (blank_line_token_sep _ _ Hs) in X. discriminate.
Qed.

(** Extra X19.  [createEmailMessage] is rejected with the error of the first
    attachment that cannot be read, signed or not. *)
Theorem createEmailMessage_unreadable_attachment (proto_to_string : str -> str)
    (sha256_base64 toASCIIDomain : str -> str)
    (rsa_sha256_base64 : str -> str -> option str)
    (amb : Ambient) (e : SendEnvelope) (dkimOptions : option DKIMOptions)
    (pre : list EnvelopeAttachment) (a : EnvelopeAttachment)
    (post : list EnvelopeAttachment) :
  attachments e = Some (pre ++ a :: post) ->
  Forall (fun x => readFile amb (path x) <> None) pre ->
  readFile amb (path a) = None ->
  createEmailMessage proto_to_string sha256_base64 toASCIIDomain
    rsa_sha256_base64 amb e dkimOptions = inr (ReadFailed (path a)).
Proof.
  intros A F N. unfold createEmailMessage. cbv zeta. rewrite A.
  rewrite add_attachments_fails by assumption. reflexivity.
Qed.

Lemma createEmailMessage_unreadable_attachment_witness :
  createEmailMessage node_proto_to_string Scenario.hash Scenario.ascii_domain
    Scenario.sign Scenario.ambient Scenario.attached None
  = inr (ReadFailed (lit "/tmp/a.txt")).
Proof.
  apply (createEmailMessage_unreadable_attachment node_proto_to_string
           Scenario.hash Scenario.ascii_domain Scenario.sign Scenario.ambient
           Scenario.attached None []
           {| filename := lit "a.txt"; path := lit "/tmp/a.txt";
              contentType := lit "text/plain" |} []).
  - reflexivity.
  - constructor.
  - reflexivity.
Defined.

(** Extra X20.  Without DKIM options, the message is the head built from
    the envelope, one part per attachment in the order given, and the
    closing line of the mixed boundary. *)
Theorem createEmailMessage_unsigned_layout (proto_to_string : str -> str)
    (sha256_base64 toASCIIDomain : str -> str)
    (rsa_sha256_base64 : str -> str -> option str)
    (amb : Ambient) (e : SendEnvelope) (parts : list str) :
  Forall2 (fun a part =>
             encodeAttachment amb a (lit "--boundary_" ++ mixedHex amb)
             = Some part)
    (match attachments e with Some l => l | None => [] end) parts ->
  createEmailMessage proto_to_string sha256_base64 toASCIIDomain
    rsa_sha256_base64 amb e None
  = inl (message_head amb e ++ List.concat parts
         ++ lit "--" ++ (lit "--boundary_" ++ mixedHex amb) ++ lit "--"
         ++ CRLF).
Proof.
  intros F. unfold createEmailMessage. cbv zeta.
  generalize (message_head amb e) as head. intros head.
  rewrite (add_attachments_all _ _ _ _ head F).
  rewrite <- !app_assoc. reflexivity.
Qed.

Lemma createEmailMessage_unsigned_layout_witness :
  exists part,
    createEmailMessage node_proto_to_string Scenario.hash
      Scenario.ascii_domain Scenario.sign Scenario.disk Scenario.attached None
    = inl (message_head Scenario.disk Scenario.attached ++ List.concat [part]
           ++ lit "--" ++ (lit "--boundary_" ++ mixedHex Scenario.disk)
           ++ lit "--" ++ CRLF).
Proof.
  eexists.
  refine (createEmailMessage_unsigned_layout node_proto_to_string
            Scenario.hash Scenario.ascii_domain Scenario.sign Scenario.disk
            Scenario.attached [_] _).
  constructor; [vm_compute; reflexivity | constructor].
Defined.

(** Extra X21.  With DKIM options, the message is the unsigned message with
    its DKIM-Signature header and CR LF put in front, the header being the
    signature of the unsigned message under the default field names. *)
Theorem createEmailMessage_signed (proto_to_string : str -> str)
    (sha256_base64 toASCIIDomain : str -> str)
    (rsa_sha256_base64 : str -> str -> option str)
    (amb : Ambient) (e : SendEnvelope) (o : DKIMOptions) (signed : str) :
  createEmailMessage proto_to_string sha256_base64 toASCIIDomain
    rsa_sha256_base64 amb e (Some o) = inl signed ->
  exists header unsigned,
    createEmailMessage proto_to_string sha256_base64 toASCIIDomain
      rsa_sha256_base64 amb e None = inl unsigned
    /\ Dkim.DKIMSign proto_to_string sha256_base64 toASCIIDomain
         rsa_sha256_base64 unsigned
         {| Dkim.domainName := domain o;
            Dkim.keySelector := keySelector o;
            Dkim.headerFieldNames := None;
            Dkim.privateKey := privateKey o |} = Some header
    /\ signed = header ++ CRLF ++ unsigned.
Proof.
  unfold createEmailMessage. cbv zeta.
  generalize (message_head amb e) as head. intros head.
  destruct (add_attachments amb _ _ head) as [m|err]; [|discriminate].
  unfold dkimSigned.
  destruct (Dkim.DKIMSign _ _ _ _ _ _) as [header|] eqn:D; [|discriminate].
  intros H. exists header. eexists. split; [reflexivity|].
  split; [exact D|].
  assert (E : forall a b : str, @inl str error a = inl b -> b = a)
    by (intros a b X; congruence).
  apply (E _ _ H).
Qed.

Lemma createEmailMessage_signed_witness :
  exists signed header unsigned,
    createEmailMessage node_proto_to_string Scenario.hash
      Scenario.ascii_domain Scenario.sign Scenario.ambient Scenario.s4 None
    = inl unsigned
    /\ Dkim.DKIMSign node_proto_to_string Scenario.hash Scenario.ascii_domain
         Scenario.sign unsigned
         {| Dkim.domainName := domain Scenario.home_key;
            Dkim.keySelector := keySelector Scenario.home_key;
            Dkim.headerFieldNames := None;
            Dkim.privateKey := privateKey Scenario.home_key |} = Some header
    /\ signed = header ++ CRLF ++ unsigned.
Proof.
  eexists.
  refine (createEmailMessage_signed node_proto_to_string Scenario.hash
            Scenario.ascii_domain Scenario.sign Scenario.ambient Scenario.s4
            Scenario.home_key _ _).
  vm_compute. reflexivity.
Defined.

(** Extra X22.  Folding the signature only inserts CR LF SPACE: without
    these the folded text is the signature; and the folding is complete
    after as many steps as the signature has characters. *)
Theorem fold_signature_only_inserts (signature : str) :
  wrapped signature
    (Dkim.fold_signature (List.length signature) true signature)
  /\ forall more,
       Dkim.fold_signature (List.length signature + more) true signature
       = Dkim.fold_signature (List.length signature) true signature.
Proof.
  split; [apply fold_signature_wrapped|].
  intros more. apply fold_signature_fuel; lia.
Qed.

(** Extra X23.  An address without an at sign has the domain "undefined":
    its recipient is grouped under that name, and as a sender it gives a
    Message-ID that ends in "@undefined>". *)
Theorem address_without_at_sign (amb : Ambient) (address : str) :
  ~ In "@"%char address ->
  domain_of address = lit "undefined"
  /\ generateMessageId amb (domain_of address)
     = lit "<" ++ messageIdHex amb ++ lit "." ++ now amb
       ++ lit "@undefined>".
Proof.
  intros H.
  assert (D : domain_of address = lit "undefined").
  { unfold domain_of. rewrite split_on_free; [reflexivity|].
    apply forallb_forall. intros c Hc. apply negb_true_iff.
    apply Ascii.eqb_neq. intros ->. contradiction. }
  split; [exact D|]. rewrite D. reflexivity.
Qed.

Lemma address_without_at_sign_witness :
  domain_of (lit "postmaster") = lit "undefined"
  /\ generateMessageId Scenario.ambient (domain_of (lit "postmaster"))
     = lit "<" ++ messageIdHex Scenario.ambient ++ lit "."
       ++ now Scenario.ambient ++ lit "@undefined>".
Proof.
  apply (address_without_at_sign Scenario.ambient (lit "postmaster")).
  simpl. intros H. decompose [or] H; discriminate || contradiction.
Defined.



(** Extra X25.  When the grouping does not throw and the lookup of the
    domain of some recipient is rejected, [getRecipientsByMx] is rejected,
    and that reason is among the possible ones. *)
Theorem getRecipientsByMx_failed_lookup (dns : str -> list mx_event)
    (e : SendEnvelope) (timeout : N) (recipient : str) (reason : error) :
  domain_groups e <> None ->
  In recipient (allRecipients e) ->
  getMailExchange (domain_of recipient) timeout (dns (domain_of recipient))
  = Rejected reason ->
  exists reasons,
    getRecipientsByMx dns e timeout = Failed reasons /\ In reason reasons.
Proof.
  intros D Hin R. unfold getRecipientsByMx.
  destruct (domain_groups e) as [byDomain|] eqn:G; [|congruence].
  destruct (domain_groups_spec _ _ G) as [_ [_ C]].
  specialize (C _ Hin). apply in_map_iff in C.
  destruct C as [dr [Ed Hdr]].
  pose proof (rejections_In
                (fun dr => getMailExchange (fst dr) timeout (dns (fst dr)))
                byDomain dr reason Hdr) as I.
  cbv beta in I. rewrite Ed in I. specialize (I R).
  cbv zeta.
  destruct (rejections _) as [|r0 rs] eqn:E; [destruct I|].
  exists (r0 :: rs). split; [reflexivity | assumption].
Qed.

Lemma getRecipientsByMx_failed_lookup_witness :
  exists reasons,
    getRecipientsByMx Scenario.no_dns Scenario.s4 10000 = Failed reasons
    /\ In (DnsFailed (lit "ex1.com") (lit "ENOTFOUND")) reasons.
Proof.
  apply (getRecipientsByMx_failed_lookup Scenario.no_dns Scenario.s4 10000
           (lit "a@ex1.com")).
  - vm_compute. discriminate.
  - vm_compute. left. reflexivity.
  - vm_compute. reflexivity.
Defined.



Section SessionErrors.

Variable proto_to_string : str -> str.
Variable sha256_base64 : str -> str.
Variable toASCIIDomain : str -> str.
Variable rsa_sha256_base64 : str -> str -> option str.
Variable sendOptions : SendEnvelope.
Variable dkimOptions : option DKIMOptions.
Variable group : RecipientGroup.

Local Abbreviation step' :=
  (step proto_to_string sha256_base64 toASCIIDomain rsa_sha256_base64
     sendOptions dkimOptions group).
Local Abbreviation run' :=
  (run proto_to_string sha256_base64 toASCIIDomain rsa_sha256_base64
     sendOptions dkimOptions group).

(** Extra X27.  When [createEmailMessage] is rejected after a 354 (an
    attachment cannot be read, the signing fails), a session that is still
    pending is rejected with that error; but nothing is written, and
    neither socket is destroyed or ended by it: the TLS socket stays as it
    was.  This holds in every state of a session whose TLS socket is in
    use. *)
Theorem failed_message_leaves_sockets_open (s : session) (g : bool)
    (go : str) (amb : Ambient) (e : error) :
  tlsGreeted s = Some g ->
  client_destroyed s = false ->
  tls_destroyed s = false ->
  code_is (code_of go) 354 = true ->
  createEmailMessage proto_to_string sha256_base64 toASCIIDomain
    rsa_sha256_base64 amb sendOptions dkimOptions = inr e ->
  outcome (step' (step' s (TlsData go)) (MessageBuilt amb))
  = reject e (outcome s)
  /\ (outcome s = Pending ->
      outcome (step' (step' s (TlsData go)) (MessageBuilt amb)) = Rejected e)
  /\ written (step' (step' s (TlsData go)) (MessageBuilt amb)) = written s
  /\ client_destroyed (step' (step' s (TlsData go)) (MessageBuilt amb))
     = false
  /\ tls_destroyed (step' (step' s (TlsData go)) (MessageBuilt amb)) = false
  /\ tls_ended (step' (step' s (TlsData go)) (MessageBuilt amb))
     = tls_ended s.
Proof.
  intros G C T Go M.
  rewrite (build_fails proto_to_string sha256_base64 toASCIIDomain
             rsa_sha256_base64 sendOptions dkimOptions group s g go amb e
             G C T Go M).
  cbn [outcome written client_destroyed tls_destroyed tls_ended settle
       set_building].
  split; [reflexivity|]. split; [intros ->; reflexivity|].
  split; [reflexivity|]. split; [assumption|]. split; [assumption|].
  reflexivity.
Qed.

(** Extra X28.  A reply of 500 or more on the TLS socket destroys it and
    rejects the session with 'TLS error:' and the reply; nothing is written
    afterwards, whatever comes next. *)
Theorem refused_over_TLS (s : session) (g : bool) (response : str)
    (evs : list event) :
  tlsGreeted s = Some g ->
  client_destroyed s = false ->
  tls_destroyed s = false ->
  outcome s = Pending ->
  code_at_least (parseInt (substr response 0 3)) 500 = true ->
  outcome (fold_left step' (TlsData response :: evs) s)
  = Rejected (TlsError response)
  /\ written (fold_left step' (TlsData response :: evs) s) = written s.
Proof.
  intros G C T O R. cbn [fold_left].
  assert (S1 : step' s (TlsData response)
               = settle (reject (TlsError response)) (destroy_tls s)).
  { unfold step, tls_live. rewrite G, C, T. cbn [negb andb].
    unfold on_tls_data.
    rewrite (code_at_least_exclusive _ 500 250 R) by lia.
    rewrite (code_at_least_exclusive _ 500 354 R) by lia.
    rewrite R. reflexivity. }
  rewrite S1. split.
  - rewrite run_settled; simpl; rewrite O; [reflexivity | discriminate].
  - rewrite tls_dead_run; simpl; [reflexivity | reflexivity |].
    rewrite G. discriminate.
Qed.

(** Extra X29.  When the first thing the plain socket delivers is a reply
    of 500 or more, or an error, the socket is destroyed and the session is
    rejected with 'SMTP error:' and the reply or the message of the error;
    nothing is ever written. *)
Theorem refused_at_once (text : str) (evs : list event) :
  (code_at_least (parseInt (substr text 0 3)) 500 = true ->
   outcome (run' (ClientData text :: evs)) = Rejected (SmtpError text)
   /\ written (run' (ClientData text :: evs)) = [])
  /\ outcome (run' (ClientError text :: evs)) = Rejected (SmtpError text)
  /\ written (run' (ClientError text :: evs)) = [].
Proof.
  split; [intros R | ]; unfold run; cbn [fold_left].
  - assert (S1 : step' start (ClientData text)
                 = settle (reject (SmtpError text))
                     (destroy_client (disarm start))).
    { unfold step. cbn [client_destroyed tlsGreeted start].
      unfold on_client_data. cbv zeta.
      rewrite (code_at_least_exclusive _ 500 220 R) by lia.
      rewrite (code_at_least_exclusive _ 500 250 R) by lia.
      rewrite R. reflexivity. }
    rewrite S1. split.
    + rewrite run_settled; [reflexivity | discriminate].
    + rewrite dead_run; reflexivity.
  - change (step' start (ClientError text))
      with (settle (reject (SmtpError text)) (destroy_client start)).
    split.
    + rewrite run_settled; [reflexivity | discriminate].
    + rewrite dead_run; reflexivity.
Qed.

End SessionErrors.

Lemma refused_at_once_witness :
  outcome (run node_proto_to_string Scenario.hash Scenario.ascii_domain
             Scenario.sign Scenario.s4 None Scenario.ex1
             [ClientData (lit "554 no service" ++ CRLF);
              ClientData (lit "220 mx ESMTP" ++ CRLF)])
  = Rejected (SmtpError (lit "554 no service" ++ CRLF))
  /\ written (run node_proto_to_string Scenario.hash Scenario.ascii_domain
                Scenario.sign Scenario.s4 None Scenario.ex1
                [ClientData (lit "554 no service" ++ CRLF);
                 ClientData (lit "220 mx ESMTP" ++ CRLF)])
     = [].
Proof.
  apply (proj1 (refused_at_once node_proto_to_string Scenario.hash
                  Scenario.ascii_domain Scenario.sign Scenario.s4 None
                  Scenario.ex1 (lit "554 no service" ++ CRLF)
                  [ClientData (lit "220 mx ESMTP" ++ CRLF)])).
  vm_compute. reflexivity.
Defined.

Lemma failed_message_leaves_sockets_open_witness :
  outcome
    (run node_proto_to_string Scenario.hash Scenario.ascii_domain
       Scenario.sign Scenario.attached None Scenario.ex1_only
       (Scenario.handshake
        ++ [TlsData (lit "354 Go ahead" ++ CRLF);
            MessageBuilt Scenario.ambient]))
  = Rejected (ReadFailed (lit "/tmp/a.txt"))
  /\ written
       (run node_proto_to_string Scenario.hash Scenario.ascii_domain
          Scenario.sign Scenario.attached None Scenario.ex1_only
          (Scenario.handshake
           ++ [TlsData (lit "354 Go ahead" ++ CRLF);
               MessageBuilt Scenario.ambient]))
     = written
         (run node_proto_to_string Scenario.hash Scenario.ascii_domain
            Scenario.sign Scenario.attached None Scenario.ex1_only
            Scenario.handshake).
Proof.
  pose proof (failed_message_leaves_sockets_open node_proto_to_string
                Scenario.hash Scenario.ascii_domain Scenario.sign
                Scenario.attached None Scenario.ex1_only
                (run node_proto_to_string Scenario.hash Scenario.ascii_domain
                   Scenario.sign Scenario.attached None Scenario.ex1_only
                   Scenario.handshake)
                true (lit "354 Go ahead" ++ CRLF) Scenario.ambient
                (ReadFailed (lit "/tmp/a.txt"))
                eq_refl eq_refl eq_refl eq_refl eq_refl) as [_ [P [W _]]].
  split; [exact (P eq_refl) | exact W].
Defined.

Lemma refused_over_TLS_witness :
  outcome
    (fold_left
       (step node_proto_to_string Scenario.hash Scenario.ascii_domain
          Scenario.sign Scenario.s4 None Scenario.ex1)
       [TlsData (lit "550 no" ++ CRLF); TlsData (lit "250 2.0.0 OK" ++ CRLF)]
       (run node_proto_to_string Scenario.hash Scenario.ascii_domain
          Scenario.sign Scenario.s4 None Scenario.ex1
          (firstn 4 Scenario.refusing)))
  = Rejected (TlsError (lit "550 no" ++ CRLF))
  /\ written
       (fold_left
          (step node_proto_to_string Scenario.hash Scenario.ascii_domain
             Scenario.sign Scenario.s4 None Scenario.ex1)
          [TlsData (lit "550 no" ++ CRLF);
           TlsData (lit "250 2.0.0 OK" ++ CRLF)]
          (run node_proto_to_string Scenario.hash Scenario.ascii_domain
             Scenario.sign Scenario.s4 None Scenario.ex1
             (firstn 4 Scenario.refusing)))
     = written
         (run node_proto_to_string Scenario.hash Scenario.ascii_domain
            Scenario.sign Scenario.s4 None Scenario.ex1
            (firstn 4 Scenario.refusing)).
Proof.
  apply (refused_over_TLS node_proto_to_string Scenario.hash
           Scenario.ascii_domain Scenario.sign Scenario.s4 None Scenario.ex1
           (run node_proto_to_string Scenario.hash Scenario.ascii_domain
              Scenario.sign Scenario.s4 None Scenario.ex1
              (firstn 4 Scenario.refusing))
           false (lit "550 no" ++ CRLF)
           [TlsData (lit "250 2.0.0 OK" ++ CRLF)]);
    vm_compute; reflexivity.
Defined.

(** Extra X30.  A requested name that every object inherits from
    [Object.prototype] ("constructor", "__proto__") is always kept, in its
    place among the requested names, and the line signed for it holds the
    text of the inherited member, whatever the header block and the rest of
    the request: a header of that name is never recorded. *)
Theorem relaxedHeaders_prototype_name (proto_to_string : str -> str)
    (headers names : str) :
  exists (keep : str -> bool) (line_of : str -> str),
    fieldNames (relaxedHeaders proto_to_string headers names)
    = join (lit ":") (filter keep (includedFields_of names))
    /\ DKIMCanonicalizer.headers (relaxedHeaders proto_to_string headers names)
       = join CRLF (map line_of (filter keep (includedFields_of names)))
         ++ CRLF
    /\ forall k, inherited k = true ->
         keep k = true /\ line_of k = k ++ lit ":" ++ proto_to_string k.
Proof.
  unfold relaxedHeaders. rewrite select_filter.
  set (inc := includedFields_of names).
  set (F := snd (join_lines inc headers)).
  exists (fun k => truthy (lookup F k)),
         (fun k => k ++ lit ":" ++ to_string proto_to_string (lookup F k)).
  split; [reflexivity|]. split; [reflexivity|].
  intros k H.
  assert (L : lookup F k = Proto k).
  { unfold lookup, F. rewrite join_lines_fields, own_fields, H.
    rewrite andb_false_r. reflexivity. }
  rewrite L. split; reflexivity.
Qed.

(** For instance, with a header of that very name in the block. *)
Lemma relaxedHeaders_prototype_name_example :
  relaxedHeaders node_proto_to_string
    (lit "From: a@x" ++ CRLF ++ lit "Constructor: x" ++ CRLF)
    (lit "From:Constructor")
  = {| DKIMCanonicalizer.headers :=
         lit "from:a@x" ++ CRLF ++ lit "constructor:"
         ++ lit "function Object() { [native code] }" ++ CRLF;
       fieldNames := lit "from:constructor" |}.
Proof.
  vm_compute. reflexivity.
Qed.

End Extras.
